(** * Ghost Story Generator: session synchronisation protocol

    A shallow embedding of the server-side story manager and WebSocket
    gateway (backend/src/services/StoryManager.ts,
    backend/src/routes/websocket.ts, backend/src/utils/validation.ts) and of
    the client-side offline queue and reconnection manager
    (frontend/src/services/offlineQueue.ts), with the properties the
    specification states about them.

    Conventions.
    - A JavaScript string is a [string]; its characters are read as code
      units below 256, so [String.length] is the [.length] of the source.
    - A [Date] is the integer number of milliseconds since the epoch ([Z]).
    - [Map<string, V>] is a [gmap string V]; a socket.io room is a
      [gset] of socket ids.
    - Values the platform draws for the handler ([new Date()],
      [randomUUID()], [Math.random()], the answer of the text generator) are
      explicit arguments of the function that consumes them.  Successive
      [new Date()] reads inside one handler are given the same instant. *)

From Stdlib Require Import Ascii String ZArith QArith Qminmax Lqa.
From Stdlib Require Import DecimalString DecimalZ.
From stdpp Require Import base option list gmap strings sorting.

#[local] Open Scope string_scope.
#[local] Open Scope list_scope.
#[local] Open Scope Z_scope.

(** ** Content validation (backend/src/utils/validation.ts) *)

Module Validation.

Definition PROFANITY_LIST : list string :=
  [ "fuck"; "shit"; "damn"; "bitch"; "ass"; "bastard"; "crap"; "piss";
    "cock"; "dick"; "pussy"; "cunt"; "whore"; "slut"; "fag"; "nigger";
    "retard" ].

Definition MAX_SEGMENT_LENGTH : nat := 500.
Definition MIN_SEGMENT_LENGTH : nat := 1.

(** *** The string primitives the validators use *)

Definition chars (s : string) : list ascii := list_ascii_of_string s.
Definition text (l : list ascii) : string := string_of_list_ascii l.
Definition code (c : ascii) : nat := nat_of_ascii c.

(** [String.prototype.trim] strips WhiteSpace and LineTerminator code
    points; below 256 these are TAB, LF, VT, FF, CR, SP and NBSP. *)
Definition isWhiteSpace (c : ascii) : bool :=
  ((9 <=? code c)%nat && (code c <=? 13)%nat)
  || (code c =? 32)%nat || (code c =? 160)%nat.

Fixpoint trimStart (l : list ascii) : list ascii :=
  match l with
  | [] => []
  | c :: l' => if isWhiteSpace c then trimStart l' else l
  end.

Definition trimEnd (l : list ascii) : list ascii :=
  rev (trimStart (rev l)).

Definition trim (s : string) : string :=
  text (trimEnd (trimStart (chars s))).

(** [String.prototype.toLowerCase] on code units below 256. *)
Definition lowerChar (c : ascii) : ascii :=
  let n := code c in
  if ((65 <=? n) && (n <=? 90))%nat
     || ((192 <=? n) && (n <=? 222) && negb (n =? 215))%nat
  then ascii_of_nat (n + 32) else c.

Definition toLowerCase (s : string) : string :=
  text (map lowerChar (chars s)).

(** Case folding of the [i] flag: without the [u] flag a code unit of
    128 or more never folds onto an ASCII letter. *)
Definition foldCase (c : ascii) : ascii :=
  if ((65 <=? code c) && (code c <=? 90))%nat
  then ascii_of_nat (code c + 32) else c.

Definition sameCharCI (a b : ascii) : bool :=
  bool_decide (foldCase a = foldCase b).

(** The regular-expression class [\w]. *)
Definition isWordChar (c : ascii) : bool :=
  let n := code c in
  (((48 <=? n) && (n <=? 57)) || ((65 <=? n) && (n <=? 90))
   || ((97 <=? n) && (n <=? 122)) || (n =? 95))%nat.

Definition isWordOpt (o : option ascii) : bool :=
  match o with Some c => isWordChar c | None => false end.

(** The assertion [\b] between a previous and a next character. *)
Definition wordBoundary (prev next : option ascii) : bool :=
  xorb (isWordOpt prev) (isWordOpt next).

(** Match a literal, case-insensitively, at the head of [l]: the last
    character consumed and the rest of the input. *)
Fixpoint matchLiteral (prev : option ascii) (pat l : list ascii)
  : option (option ascii * list ascii) :=
  match pat with
  | [] => Some (prev, l)
  | p :: pat' =>
      match l with
      | [] => None
      | c :: l' =>
          if sameCharCI p c then matchLiteral (Some c) pat' l' else None
      end
  end.

Definition startsWithCI (pat l : list ascii) : bool :=
  match matchLiteral None pat l with Some _ => true | None => false end.

(** [new RegExp("\\b" + word + "\\b", "i")] tried at the head of [l],
    [prev] being the character before it. *)
Definition wordMatchesHere (word : list ascii) (prev : option ascii)
    (l : list ascii) : bool :=
  wordBoundary prev (head l)
  && match matchLiteral prev word l with
     | Some (last, rest) => wordBoundary last (head rest)
     | None => false
     end.

(** [regex.test]: some position of the input matches. *)
Fixpoint wordMatchesFrom (word : list ascii) (prev : option ascii)
    (l : list ascii) : bool :=
  wordMatchesHere word prev l
  || match l with
     | [] => false
     | c :: l' => wordMatchesFrom word (Some c) l'
     end.

Definition regexTestWord (word content : string) : bool :=
  wordMatchesFrom (chars word) None (chars content).

Definition containsProfanity (content : string) : bool :=
  let lowerContent := toLowerCase content in
  existsb (fun word => regexTestWord word lowerContent) PROFANITY_LIST.

(** [input.replace(/<[^>]*>/g, '')]: a [<] that has a [>] somewhere
    after it is deleted together with everything up to the first such
    [>]; any other character is kept. *)
Fixpoint stripTags (inTag : bool) (l : list ascii) : list ascii :=
  match l with
  | [] => []
  | c :: l' =>
      if inTag then
        if bool_decide (c = ">"%char) then stripTags false l'
        else stripTags true l'
      else if bool_decide (c = "<"%char)
              && existsb (fun d => bool_decide (d = ">"%char)) l'
      then stripTags true l'
      else c :: stripTags false l'
  end.

Fixpoint occursCI (pat l : list ascii) : bool :=
  startsWithCI pat l
  || match l with [] => false | _ :: l' => occursCI pat l' end.

Definition scriptOpen : list ascii := chars "<script".
Definition scriptClose : list ascii := chars "</script>".

(** The second replacement of [sanitizeInput], with the pattern
    "<script" word-boundary, then any run of characters in which no "<"
    begins "</script>", then "</script>" (flags g and i): a match starts
    at [<script] followed by a word boundary and ends with the first
    [</script>] after it.  [skip] counts the characters of an opening or
    closing tag still to be dropped, [inScript] tells that the scan is
    between the two. *)
Fixpoint stripScripts (skip : nat) (inScript : bool) (l : list ascii)
  : list ascii :=
  match l with
  | [] => []
  | c :: l' =>
      match skip with
      | S k => stripScripts k inScript l'
      | O =>
          if inScript then
            if startsWithCI scriptClose l
            then stripScripts 8 false l'
            else stripScripts 0 true l'
          else if startsWithCI scriptOpen l
                  && wordBoundary (Some "t"%char) (head (drop 7 l))
                  && occursCI scriptClose (drop 7 l)
          then stripScripts 6 true l'
          else c :: stripScripts 0 false l'
      end
  end.

Definition sanitizeInput (input : string) : string :=
  let sanitized := text (stripTags false (chars input)) in
  let sanitized := text (stripScripts 0 false (chars sanitized)) in
  trim sanitized.

Definition isValidLength (content : string) : bool :=
  let length := String.length (trim content) in
  ((MIN_SEGMENT_LENGTH <=? length) && (length <=? MAX_SEGMENT_LENGTH))%nat.

Definition hasContent (content : string) : bool :=
  (0 <? String.length (trim content))%nat.

Record ValidationResult := {
  valid : bool;
  error : option string;
  sanitized : option string
}.

Definition validateSegment (content : string) : ValidationResult :=
  if negb (hasContent content) then
    {| valid := false;
       error := Some "Content cannot be empty or only whitespace";
       sanitized := None |}
  else
    let sanitized := sanitizeInput content in
    if negb (isValidLength sanitized) then
      {| valid := false;
         error := Some "Content must be between 1 and 500 characters";
         sanitized := None |}
    else if containsProfanity sanitized then
      {| valid := false;
         error := Some "Content contains inappropriate language";
         sanitized := None |}
    else {| valid := true; error := None; sanitized := Some sanitized |}.

(** [filtered.replace(new RegExp("\\b" + word + "\\b", "gi"),
    "*".repeat(word.length))] for a non-empty [word]: the input is scanned
    from the left, [prev] being the character before the current one; where
    the word matches, each of its characters becomes an asterisk ([skip]
    counts those still to be written) and the scan goes on after the
    match. *)
Fixpoint replaceWord (word : list ascii) (skip : nat) (prev : option ascii)
    (l : list ascii) : list ascii :=
  match l with
  | [] => []
  | c :: l' =>
      match skip with
      | S k => "*"%char :: replaceWord word k (Some c) l'
      | O =>
          if wordMatchesHere word prev l
          then "*"%char :: replaceWord word (length word - 1) (Some c) l'
          else c :: replaceWord word 0 (Some c) l'
      end
  end.

Definition filterProfanity (content : string) : string :=
  foldl (fun filtered word =>
           text (replaceWord (chars word) 0 None (chars filtered)))
        content PROFANITY_LIST.

(** A complete tag is left in the text: some [<] has a [>] after it. *)
Fixpoint completeTag (l : list ascii) : bool :=
  match l with
  | [] => false
  | c :: l' =>
      (bool_decide (c = "<"%char)
       && existsb (fun d => bool_decide (d = ">"%char)) l')
      || completeTag l'
  end.

(** All 256 code units, for checks by enumeration. *)
Definition allChars : list ascii := map ascii_of_nat (seq 0 256).

(** The words of [PROFANITY_LIST] are non-empty runs of the letters a-z. *)
Definition isLowerLetter (c : ascii) : bool :=
  ((97 <=? code c) && (code c <=? 122))%nat.

Definition plainWord (w : list ascii) : bool :=
  match w with [] => false | _ => forallb isLowerLetter w end.

(** Some position of [l] where [v] matches and [w] does not. *)
Fixpoint matchesBeside (v w : list ascii) (prev : option ascii)
    (l : list ascii) : bool :=
  (wordMatchesHere v prev l && negb (wordMatchesHere w prev l))
  || match l with
     | [] => false
     | c :: l' => matchesBeside v w (Some c) l'
     end.

End Validation.

(** ** Shared types (shared/types.ts) *)

Inductive ContributorType := user | ai.

#[global] Instance ContributorType_eq_dec : EqDecision ContributorType.
Proof. solve_decision. Defined.

Module Segment.
Record t := make {
  id : string;
  content : string;
  contributorId : string;
  contributorType : ContributorType;
  timestamp : Z;
  moodTags : list string
}.
End Segment.

Module Participant.
Record t := make {
  id : string;
  name : string;
  joinedAt : Z
}.
End Participant.

Module Session.
Record t := make {
  id : string;
  title : string;
  startingPrompt : option string;
  participants : list Participant.t;
  segments : list Segment.t;
  createdAt : Z;
  lastActivityAt : Z
}.
End Session.

Record HorrorElement := {
  he_content : string;
  he_intensity : Z;
  he_tags : list string
}.

(** What a JavaScript call does: it returns a value or throws. *)
Inductive Completion (A : Type) :=
| Returns (value : A)
| Throws (message : string).
Arguments Returns {A} value.
Arguments Throws {A} message.

(** The call hands a value back to its caller instead of throwing. *)
Definition completesNormally {A : Type} (c : Completion A) : Prop :=
  exists value, c = Returns value.

(** The count the specification speaks of: the segments of a log that a
    user typed, taken one by one, a segment of the co-author being passed
    over.  The handler of [segment:add] counts with a [filter] of its own,
    [Gateway.userSegments]. *)
Fixpoint userTypedCount (log : list Segment.t) : nat :=
  match log with
  | [] => 0
  | segment :: log' =>
      match Segment.contributorType segment with
      | user => S (userTypedCount log')
      | ai => userTypedCount log'
      end
  end.

(** [a || b] on strings: the empty string is falsy. *)
Definition orElse (a b : string) : string :=
  if bool_decide (a = "") then b else a.

Definition newline : string := String (ascii_of_nat 10) EmptyString.
Definition dquote : string := String (ascii_of_nat 34) EmptyString.

(** [Array.prototype.join]. *)
Fixpoint join (sep : string) (l : list string) : string :=
  match l with
  | [] => ""
  | [x] => x
  | x :: l' => x +:+ sep +:+ join sep l'
  end.

(** [needle] occurs in [hay] ([hay.includes(needle)]). *)
Definition occursIn (needle hay : string) : Prop :=
  exists before after, hay = before +:+ needle +:+ after.

(** ** The story manager (backend/src/services/StoryManager.ts) *)

Module StoryManager.

(** The [sessions] map.  The inactivity timers ([sessionTimers],
    [refreshSessionTimeout]) only ever delete a whole session after 24
    hours of wall-clock silence and are left out. *)
Abbreviation t := (gmap string Session.t).

(** *** [Array.prototype.sort] with the comparator
    [(a, b) => a.timestamp.getTime() - b.timestamp.getTime()]

    The built-in sort is stable, and a stable sort by a total preorder has
    exactly one result ([sorted_stable_unique] below), so any stable
    sorting function is a faithful model; insertion is the simplest. *)
Definition before (a b : Segment.t) : Prop :=
  Segment.timestamp a <= Segment.timestamp b.

Fixpoint insertSegment (x : Segment.t) (l : list Segment.t)
  : list Segment.t :=
  match l with
  | [] => [x]
  | y :: l' =>
      if Segment.timestamp x <=? Segment.timestamp y
      then x :: y :: l'
      else y :: insertSegment x l'
  end.

Definition sortByTimestamp (l : list Segment.t) : list Segment.t :=
  foldr insertSegment [] l.

Definition createSession (m : t) (title : string)
    (startingPrompt : option string) (uuid : string) (now : Z)
  : Session.t * t :=
  let session :=
    {| Session.id := uuid;
       Session.title := title;
       Session.startingPrompt := startingPrompt;
       Session.participants := [];
       Session.segments := [];
       Session.createdAt := now;
       Session.lastActivityAt := now |} in
  (session, <[Session.id session := session]> m).

Definition getSession (m : t) (sessionId : string) : option Session.t :=
  m !! sessionId.

Definition addParticipant (m : t) (sessionId : string)
    (participant : Participant.t) (now : Z) : t :=
  match m !! sessionId with
  | Some session =>
      let existingParticipant :=
        find (fun p => bool_decide
                (Participant.name p = Participant.name participant))
             (Session.participants session) in
      let participants :=
        match existingParticipant with
        | None => Session.participants session ++ [participant]
        | Some _ => Session.participants session
        end in
      <[sessionId :=
          {| Session.id := Session.id session;
             Session.title := Session.title session;
             Session.startingPrompt := Session.startingPrompt session;
             Session.participants := participants;
             Session.segments := Session.segments session;
             Session.createdAt := Session.createdAt session;
             Session.lastActivityAt := now |}]> m
  | None => m
  end.

Definition addSegment (m : t) (sessionId : string) (segment : Segment.t)
    (now : Z) : t :=
  match m !! sessionId with
  | Some session =>
      <[sessionId :=
          {| Session.id := Session.id session;
             Session.title := Session.title session;
             Session.startingPrompt := Session.startingPrompt session;
             Session.participants := Session.participants session;
             Session.segments :=
               sortByTimestamp (Session.segments session ++ [segment]);
             Session.createdAt := Session.createdAt session;
             Session.lastActivityAt := now |}]> m
  | None => m
  end.

Definition getSegments (m : t) (sessionId : string) : list Segment.t :=
  match m !! sessionId with
  | Some session => Session.segments session
  | None => []
  end.

(** A run of [addSegment] calls on one session, each with the clock value
    its [new Date()] reads. *)
Definition addSegments (m : t) (sessionId : string)
    (adds : list (Segment.t * Z)) : t :=
  foldl (fun m add => addSegment m sessionId (fst add) (snd add)) m adds.

(** The segments of a list that carry a given timestamp, in list order. *)
Definition stamped (time : Z) (l : list Segment.t) : list Segment.t :=
  List.filter (fun s => bool_decide (Segment.timestamp s = time)) l.

(** Every stored log reads in chronological order. *)
Definition chronological (m : t) : Prop :=
  forall sessionId session,
    m !! sessionId = Some session -> Sorted before (Session.segments session).

(** The mutating calls of the class, and a history of them. *)
Inductive Call :=
| CreateSession (title : string) (startingPrompt : option string)
    (uuid : string) (now : Z)
| AddParticipant (sessionId : string) (participant : Participant.t) (now : Z)
| AddSegment (sessionId : string) (segment : Segment.t) (now : Z).

Definition call (m : t) (c : Call) : t :=
  match c with
  | CreateSession title startingPrompt uuid now =>
      snd (createSession m title startingPrompt uuid now)
  | AddParticipant sessionId participant now =>
      addParticipant m sessionId participant now
  | AddSegment sessionId segment now => addSegment m sessionId segment now
  end.

Definition calls (m : t) (history : list Call) : t := foldl call m history.

(** Every segment of every log satisfies [P]. *)
Definition everySegment (P : Segment.t -> Prop) (m : t) : Prop :=
  forall sessionId session segment,
    m !! sessionId = Some session ->
    In segment (Session.segments session) ->
    P segment.

(** No two participants of a session carry the same name. *)
Definition distinctNames (m : t) : Prop :=
  forall sessionId session,
    m !! sessionId = Some session ->
    NoDup (map Participant.name (Session.participants session)).

Inductive ExportFormat := text_format | html_format.

Section Rendering.
(** [Date.prototype.toISOString] and [toLocaleString] belong to the
    platform; the renderers take them as parameters. *)
Variables toISOString toLocaleString : Z -> string.

Definition contributorOf (session : Session.t) (segment : Segment.t)
  : option Participant.t :=
  find (fun p => bool_decide
          (Participant.id p = Segment.contributorId segment))
       (Session.participants session).

Definition participantNames (session : Session.t) : string :=
  join ", " (map Participant.name (Session.participants session)).

Definition exportAsText (session : Session.t) : string :=
  let output := Session.title session +:+ newline in
  let output :=
    output +:+ "Created: " +:+ toISOString (Session.createdAt session)
           +:+ newline in
  let output :=
    output +:+ "Participants: " +:+ participantNames session
           +:+ newline +:+ newline in
  foldl (fun output segment =>
           let name :=
             match contributorOf session segment with
             | Some contributor => Participant.name contributor
             | None => Segment.contributorId segment
             end in
           output +:+ "[" +:+ name +:+ "] " +:+ Segment.content segment
                  +:+ newline +:+ newline)
        output (Session.segments session).

Definition exportAsHtml (session : Session.t) : string :=
  let output :=
    "<!DOCTYPE html><html><head><meta charset=" +:+ dquote +:+ "UTF-8"
    +:+ dquote +:+ "><title>" +:+ Session.title session +:+ "</title>" in
  let output :=
    output +:+ "<style>body{font-family:Georgia,serif;max-width:800px;margin:40px auto;padding:20px;background:#0a0a0f;color:#e8e8f0;}" in
  let output :=
    output +:+ "h1{color:#8b5cf6;}.segment{margin:20px 0;padding:15px;border-left:3px solid #6b46c1;}" in
  let output :=
    output +:+ ".ai-segment{background:#1e1433;border-color:#8b5cf6;}.contributor{font-weight:bold;color:#b8b8c8;}</style></head><body>" in
  let output := output +:+ "<h1>" +:+ Session.title session +:+ "</h1>" in
  let output :=
    output +:+ "<p><em>Created: "
           +:+ toLocaleString (Session.createdAt session) +:+ "</em></p>" in
  let output :=
    output +:+ "<p><em>Participants: " +:+ participantNames session
           +:+ "</em></p>" in
  let output :=
    foldl (fun output segment =>
             let name :=
               match contributorOf session segment with
               | Some contributor => Participant.name contributor
               | None =>
                   match Segment.contributorType segment with
                   | ai => "AI Co-Author"
                   | user => Segment.contributorId segment
                   end
               end in
             let segmentClass :=
               match Segment.contributorType segment with
               | ai => "ai-segment"
               | user => "user-segment"
               end in
             output +:+ "<div class=" +:+ dquote +:+ "segment "
                    +:+ segmentClass +:+ dquote +:+ "><span class="
                    +:+ dquote +:+ "contributor" +:+ dquote +:+ ">"
                    +:+ name +:+ ":</span> " +:+ Segment.content segment
                    +:+ "</div>")
          output (Session.segments session) in
  output +:+ "</body></html>".

Definition exportSession (m : t) (sessionId : string)
    (format : ExportFormat) : Completion string :=
  match m !! sessionId with
  | None => Throws "Session not found"
  | Some session =>
      match format with
      | text_format => Returns (exportAsText session)
      | html_format => Returns (exportAsHtml session)
      end
  end.
End Rendering.

(** A registry with one session, one participant and one segment. *)
Definition sessionAfterExportScenario : t :=
  {[ "session-1" :=
       Session.make "session-1" "Test" None
         [Participant.make "socket-1" "Ann" 1]
         [Segment.make "s1" "A knock." "socket-1" user 100 []] 0 100 ]}.

End StoryManager.

(** ** The WebSocket gateway (backend/src/routes/websocket.ts) *)

Module Gateway.

Inductive ServerEvent :=
| session_created (session : Session.t)
| session_updated (session : Session.t)
| session_reconnected (sessionId : string)
| participant_joined (participant : Participant.t)
| segment_added (segment : Segment.t)
| segment_acknowledged (segmentId : string)
| error (message code : string) (details : option string).

(** [socket.data] *)
Record SocketData := {
  data_sessionId : option string;
  data_participantId : option string
}.

(** The state the handlers share: the story manager, the room table of the
    socket.io adapter and the per-socket data.  Rooms are entered with
    [socket.join] only; connections are assumed to stay connected. *)
Record Server := {
  storyManager : gmap string Session.t;
  rooms : gmap string (gset string);
  socketData : gmap string SocketData
}.

Definition initial : Server :=
  {| storyManager := ∅; rooms := ∅; socketData := ∅ |}.

Definition members (σ : Server) (room : string) : gset string :=
  default ∅ (rooms σ !! room).

(** What a handler does that others can see, in program order: a call of
    [storyManager.addSegment] that found its session, and an event put on
    the wire together with the set of connections that receive it. *)
Inductive Effect :=
| Appended (sessionId : string) (segment : Segment.t)
| Delivered (recipients : gset string) (event : ServerEvent).

(** [socket.emit(event)] *)
Definition socket_emit (socket : string) (event : ServerEvent) : Effect :=
  Delivered {[socket]} event.

(** [io.to(room).emit(event)] *)
Definition io_to_emit (σ : Server) (room : string) (event : ServerEvent)
  : Effect :=
  Delivered (members σ room) event.

(** [socket.to(room).emit(event)]: the room without the sender. *)
Definition socket_to_emit (σ : Server) (socket room : string)
    (event : ServerEvent) : Effect :=
  Delivered (members σ room ∖ {[socket]}) event.

(** [socket.join(room)] *)
Definition socket_join (σ : Server) (socket room : string) : Server :=
  {| storyManager := storyManager σ;
     rooms := <[room := {[socket]} ∪ members σ room]> (rooms σ);
     socketData := socketData σ |}.

Definition set_socket_data (σ : Server) (socket sessionId participantId
    : string) : Server :=
  {| storyManager := storyManager σ;
     rooms := rooms σ;
     socketData :=
       <[socket := {| data_sessionId := Some sessionId;
                      data_participantId := Some participantId |}]>
         (socketData σ) |}.

Definition with_manager (σ : Server) (m : gmap string Session.t) : Server :=
  {| storyManager := m; rooms := rooms σ; socketData := socketData σ |}.

(** [socket.data.participantId || socket.id] *)
Definition participantIdOf (σ : Server) (socket : string) : string :=
  match socketData σ !! socket with
  | Some d =>
      match data_participantId d with
      | Some p => orElse p socket
      | None => socket
      end
  | None => socket
  end.

(** *** session:reconnect *)
Definition on_session_reconnect (σ : Server) (socket sessionId
    participantId : string) : Server * list Effect :=
  match StoryManager.getSession (storyManager σ) sessionId with
  | None =>
      (σ, [socket_emit socket
             (error "Session not found" "SESSION_NOT_FOUND" None)])
  | Some session =>
      let σ := socket_join σ socket sessionId in
      let σ := set_socket_data σ socket sessionId participantId in
      (σ, [socket_emit socket (session_updated session);
           socket_emit socket (session_reconnected sessionId)])
  end.

(** *** session:create

    [session] is the object stored in the manager, so the payload sent
    after [addParticipant] already lists the creator: the model reads the
    session back from the map. *)
Definition on_session_create (σ : Server) (socket title : string)
    (startingPrompt : option string) (userName uuid : string) (now : Z)
  : Server * list Effect :=
  let '(session, m) :=
    StoryManager.createSession (storyManager σ) title startingPrompt
      uuid now in
  let participant :=
    {| Participant.id := socket;
       Participant.name := orElse userName "Anonymous";
       Participant.joinedAt := now |} in
  let m := StoryManager.addParticipant m (Session.id session) participant
             now in
  let σ := with_manager σ m in
  let σ := socket_join σ socket (Session.id session) in
  let σ := set_socket_data σ socket (Session.id session) socket in
  let session := default session (m !! Session.id session) in
  (σ, [socket_emit socket (session_created session)]).

(** *** session:join *)
Definition on_session_join (σ : Server) (socket sessionId userName
    : string) (now : Z) : Server * list Effect :=
  match StoryManager.getSession (storyManager σ) sessionId with
  | None =>
      (σ, [socket_emit socket
             (error "Session not found" "SESSION_NOT_FOUND" None)])
  | Some session =>
      let participant :=
        {| Participant.id := socket;
           Participant.name := orElse userName "Anonymous";
           Participant.joinedAt := now |} in
      let m := StoryManager.addParticipant (storyManager σ) sessionId
                 participant now in
      let σ := with_manager σ m in
      let σ := socket_join σ socket sessionId in
      let σ := set_socket_data σ socket sessionId socket in
      let session := default session (m !! sessionId) in
      (σ, [socket_emit socket (session_updated session);
           socket_to_emit σ socket sessionId
             (participant_joined participant)])
  end.

(** *** segment:add

    The handler is [async]: it runs up to the [await] on the text generator
    and is resumed when that promise settles.  [Awaiting] is the suspended
    rest of the handler. *)
Record Awaiting := {
  aw_sessionId : string;
  aw_context : list Segment.t
}.

Inductive GenerationResult :=
| generated (horrorElement : HorrorElement)
| failed (details : string).

Record AddOutcome := {
  server : Server;
  effects : list Effect;
  awaiting : option Awaiting
}.

Definition userSegments (l : list Segment.t) : list Segment.t :=
  List.filter
    (fun s => bool_decide (Segment.contributorType s = user)) l.

Definition on_segment_add (σ : Server) (socket sessionId content uuid
    : string) (now : Z) : AddOutcome :=
  let validationResult := Validation.validateSegment content in
  if negb (Validation.valid validationResult) then
    {| server := σ;
       effects :=
         [socket_emit socket
            (error (orElse (default "" (Validation.error validationResult))
                           "Invalid content")
                   "CONTENT_VALIDATION_ERROR" None)];
       awaiting := None |}
  else
    match StoryManager.getSession (storyManager σ) sessionId with
    | None =>
        {| server := σ;
           effects :=
             [socket_emit socket
                (error "Session not found" "SESSION_NOT_FOUND" None)];
           awaiting := None |}
    | Some _ =>
        let segment :=
          {| Segment.id := uuid;
             Segment.content :=
               orElse (default "" (Validation.sanitized validationResult))
                      content;
             Segment.contributorId := participantIdOf σ socket;
             Segment.contributorType := user;
             Segment.timestamp := now;
             Segment.moodTags := [] |} in
        let σ :=
          with_manager σ
            (StoryManager.addSegment (storyManager σ) sessionId segment
               now) in
        let sent :=
          [Appended sessionId segment;
           io_to_emit σ sessionId (segment_added segment);
           socket_emit socket (segment_added segment);
           socket_emit socket (segment_acknowledged (Segment.id segment))]
        in
        let trigger :=
          match StoryManager.getSession (storyManager σ) sessionId with
          | Some updatedSession =>
              let n := length (userSegments
                                 (Session.segments updatedSession)) in
              if ((0 <? n) && (n mod 3 =? 0))%nat
              then Some {| aw_sessionId := sessionId;
                           aw_context := Session.segments updatedSession |}
              else None
          | None => None
          end in
        {| server := σ; effects := sent; awaiting := trigger |}
    end.

(** The rest of the handler, once the generator has answered. *)
Definition resume_segment_add (σ : Server) (a : Awaiting)
    (result : GenerationResult) (uuid : string) (now : Z)
  : Server * list Effect :=
  let sessionId := aw_sessionId a in
  match result with
  | generated horrorElement =>
      let aiSegment :=
        {| Segment.id := uuid;
           Segment.content := he_content horrorElement;
           Segment.contributorId := "ai-coauthor";
           Segment.contributorType := ai;
           Segment.timestamp := now;
           Segment.moodTags := he_tags horrorElement |} in
      let found := StoryManager.getSession (storyManager σ) sessionId in
      let σ :=
        with_manager σ
          (StoryManager.addSegment (storyManager σ) sessionId aiSegment
             now) in
      (σ, match found with
          | Some _ => [Appended sessionId aiSegment]
          | None => []
          end
          ++ [io_to_emit σ sessionId (segment_added aiSegment)])
  | failed details =>
      (σ, [io_to_emit σ sessionId
             (error "AI co-author failed to generate content"
                    "AI_GENERATION_ERROR" (Some details))])
  end.

(** *** The event loop: one handler at a time, in arrival order *)
Inductive Input :=
| SessionCreate (socket title : string) (startingPrompt : option string)
    (userName uuid : string) (now : Z)
| SessionJoin (socket sessionId userName : string) (now : Z)
| SessionReconnect (socket sessionId participantId : string)
| SegmentAdd (socket sessionId content uuid : string) (now : Z)
| GenerationSettled (a : Awaiting) (result : GenerationResult)
    (uuid : string) (now : Z).

Definition step (σ : Server) (i : Input) : Server * list Effect :=
  match i with
  | SessionCreate socket title startingPrompt userName uuid now =>
      on_session_create σ socket title startingPrompt userName uuid now
  | SessionJoin socket sessionId userName now =>
      on_session_join σ socket sessionId userName now
  | SessionReconnect socket sessionId participantId =>
      on_session_reconnect σ socket sessionId participantId
  | SegmentAdd socket sessionId content uuid now =>
      let r := on_segment_add σ socket sessionId content uuid now in
      (server r, effects r)
  | GenerationSettled a result uuid now =>
      resume_segment_add σ a result uuid now
  end.

(** The connection whose handler an input runs; the continuation of
    [segment:add] after the [await] runs for no connection of its own. *)
Definition requester (i : Input) : option string :=
  match i with
  | SessionCreate socket _ _ _ _ _ => Some socket
  | SessionJoin socket _ _ _ => Some socket
  | SessionReconnect socket _ _ => Some socket
  | SegmentAdd socket _ _ _ _ => Some socket
  | GenerationSettled _ _ _ _ => None
  end.

(** The room an input is about. *)
Definition addressed (i : Input) : string :=
  match i with
  | SessionCreate _ _ _ _ uuid _ => uuid
  | SessionJoin _ sessionId _ _ => sessionId
  | SessionReconnect _ sessionId _ => sessionId
  | SegmentAdd _ sessionId _ _ _ => sessionId
  | GenerationSettled a _ _ _ => aw_sessionId a
  end.

(** An input that leaves connection [c] a mere listener on session
    [sessionId]: [c] is not the one who sends it, and it does not create a
    session under that id once more. *)
Definition quietFor (c sessionId : string) (i : Input) : Prop :=
  requester i <> Some c
  /\ match i with
     | SessionCreate _ _ _ _ uuid _ => uuid <> sessionId
     | _ => True
     end.

(** An input that leaves [socket.data] of connection [c] as it is: any
    input but a [session:create], [session:join] or [session:reconnect]
    that [c] itself sends. *)
Definition keepsIdentity (c : string) (i : Input) : Prop :=
  match i with
  | SessionCreate socket _ _ _ _ _ => socket <> c
  | SessionJoin socket _ _ _ => socket <> c
  | SessionReconnect socket _ _ => socket <> c
  | SegmentAdd _ _ _ _ _ => True
  | GenerationSettled _ _ _ _ => True
  end.

(** *** Requests the handlers cannot read

    Each handler is one [try] with a [catch] that answers the requester.
    The handlers throw only while they read their payload: a request
    without payload cannot be destructured, and [validateSegment] throws on
    content that is not a string.  That is before the handler has changed
    or sent anything. *)
Inductive Handler :=
| reconnectHandler
| createHandler
| joinHandler
| segmentAddHandler.

(** What the [catch] of a handler sends. *)
Definition caught (handler : Handler) : ServerEvent :=
  match handler with
  | reconnectHandler =>
      error "Failed to reconnect to session" "RECONNECT_ERROR" None
  | createHandler =>
      error "Failed to create session" "SESSION_CREATE_ERROR" None
  | joinHandler => error "Failed to join session" "SESSION_JOIN_ERROR" None
  | segmentAddHandler =>
      error "Failed to add segment" "SEGMENT_ADD_ERROR" None
  end.

(** What the event loop is given to run: an input whose payload the handler
    reads, or a request on whose payload the handler throws. *)
Inductive Arrival :=
| readable (i : Input)
| unreadable (socket : string) (handler : Handler).

Definition deliver (σ : Server) (arrival : Arrival)
  : Server * list Effect :=
  match arrival with
  | readable i => step σ i
  | unreadable socket handler => (σ, [socket_emit socket (caught handler)])
  end.

Fixpoint run (σ : Server) (inputs : list Input) : Server * list Effect :=
  match inputs with
  | [] => (σ, [])
  | i :: inputs' =>
      let '(σ1, e1) := step σ i in
      let '(σ2, e2) := run σ1 inputs' in
      (σ2, e1 ++ e2)
  end.

(** The events one connection receives, in order of arrival. *)
Definition observed (c : string) (es : list Effect) : list ServerEvent :=
  omap (fun e => match e with
                 | Delivered recipients event =>
                     if bool_decide (c ∈ recipients) then Some event
                     else None
                 | Appended _ _ => None
                 end) es.

Definition addedSegments (evs : list ServerEvent) : list Segment.t :=
  omap (fun ev => match ev with
                  | segment_added s => Some s
                  | _ => None
                  end) evs.

(** The segments appended to one session, in order of appending. *)
Definition appendedTo (sessionId : string) (es : list Effect)
  : list Segment.t :=
  omap (fun e => match e with
                 | Appended sid s =>
                     if bool_decide (sid = sessionId) then Some s else None
                 | Delivered _ _ => None
                 end) es.

(** The two-client scenario of the specification: one client creates the
    session "Test" and a second one joins it; the creator adds "A", then the
    second client adds "B". *)
Definition twoClientScenario : list Input :=
  [ SessionCreate "socket-1" "Test" None "Ann" "session-1" 1000;
    SessionJoin "socket-2" "session-1" "Bob" 2000;
    SegmentAdd "socket-1" "session-1" "A" "segment-a" 3000;
    SegmentAdd "socket-2" "session-1" "B" "segment-b" 4000 ].

Definition segmentA : Segment.t :=
  {| Segment.id := "segment-a"; Segment.content := "A";
     Segment.contributorId := "socket-1"; Segment.contributorType := user;
     Segment.timestamp := 3000; Segment.moodTags := [] |}.

Definition segmentB : Segment.t :=
  {| Segment.id := "segment-b"; Segment.content := "B";
     Segment.contributorId := "socket-2"; Segment.contributorType := user;
     Segment.timestamp := 4000; Segment.moodTags := [] |}.

Definition ann : Participant.t :=
  {| Participant.id := "socket-1"; Participant.name := "Ann";
     Participant.joinedAt := 1000 |}.

Definition bob : Participant.t :=
  {| Participant.id := "socket-2"; Participant.name := "Bob";
     Participant.joinedAt := 2000 |}.

(** The session the two-client scenario leaves in the manager. *)
Definition sessionAfterScenario : Session.t :=
  {| Session.id := "session-1"; Session.title := "Test";
     Session.startingPrompt := None;
     Session.participants := [ann; bob];
     Session.segments := [segmentA; segmentB];
     Session.createdAt := 1000; Session.lastActivityAt := 4000 |}.

(** The scenario carried on: a third user segment calls the co-author, whose
    segment is appended, and two more user segments follow.  The log then
    holds five segments typed by users and one written by the co-author. *)
Definition scratching : HorrorElement :=
  {| he_content := "Something scratched at the door.";
     he_intensity := 3;
     he_tags := ["door"] |}.

Definition segmentC : Segment.t :=
  {| Segment.id := "segment-c"; Segment.content := "C";
     Segment.contributorId := "socket-1"; Segment.contributorType := user;
     Segment.timestamp := 5000; Segment.moodTags := [] |}.

Definition segmentAI : Segment.t :=
  {| Segment.id := "segment-ai";
     Segment.content := "Something scratched at the door.";
     Segment.contributorId := "ai-coauthor"; Segment.contributorType := ai;
     Segment.timestamp := 6000; Segment.moodTags := ["door"] |}.

Definition segmentD : Segment.t :=
  {| Segment.id := "segment-d"; Segment.content := "D";
     Segment.contributorId := "socket-2"; Segment.contributorType := user;
     Segment.timestamp := 7000; Segment.moodTags := [] |}.

Definition segmentE : Segment.t :=
  {| Segment.id := "segment-e"; Segment.content := "E";
     Segment.contributorId := "socket-1"; Segment.contributorType := user;
     Segment.timestamp := 8000; Segment.moodTags := [] |}.

Definition coAuthorScenario : list Input :=
  twoClientScenario
  ++ [ SegmentAdd "socket-1" "session-1" "C" "segment-c" 5000;
       GenerationSettled
         {| aw_sessionId := "session-1";
            aw_context := [segmentA; segmentB; segmentC] |}
         (generated scratching) "segment-ai" 6000;
       SegmentAdd "socket-2" "session-1" "D" "segment-d" 7000;
       SegmentAdd "socket-1" "session-1" "E" "segment-e" 8000 ].

Definition sessionAfterCoAuthor : Session.t :=
  {| Session.id := "session-1"; Session.title := "Test";
     Session.startingPrompt := None;
     Session.participants := [ann; bob];
     Session.segments :=
       [segmentA; segmentB; segmentC; segmentAI; segmentD; segmentE];
     Session.createdAt := 1000; Session.lastActivityAt := 8000 |}.

End Gateway.

(** ** The session store of the client (frontend/src/store/sessionStore.ts)
    and the handlers that feed it (frontend/src/hooks/useWebSocket.ts)

    The payloads are those the server emitted; on the wire a [Date] travels
    as its ISO text, which is identified here with the instant.  The flags
    [isConnected] and [isOffline] are left out. *)

Module SessionStore.

Record t := {
  currentSession : option Session.t;
  optimisticSegments : gmap string Segment.t
}.

Definition initial : t :=
  {| currentSession := None; optimisticSegments := ∅ |}.

Definition setSession (st : t) (session : Session.t) : t :=
  {| currentSession := Some session;
     optimisticSegments := optimisticSegments st |}.

(** [now] is what [new Date()] reads on the client. *)
Definition addSegment (st : t) (segment : Segment.t) (now : Z) : t :=
  let newOptimistic := delete (Segment.id segment) (optimisticSegments st) in
  {| currentSession :=
       match currentSession st with
       | Some session =>
           Some {| Session.id := Session.id session;
                   Session.title := Session.title session;
                   Session.startingPrompt := Session.startingPrompt session;
                   Session.participants := Session.participants session;
                   Session.segments := Session.segments session ++ [segment];
                   Session.createdAt := Session.createdAt session;
                   Session.lastActivityAt := now |}
       | None => None
       end;
     optimisticSegments := newOptimistic |}.

Definition addOptimisticSegment (st : t) (segment : Segment.t) : t :=
  {| currentSession := currentSession st;
     optimisticSegments :=
       <[Segment.id segment := segment]> (optimisticSegments st) |}.

Definition removeOptimisticSegment (st : t) (segmentId : string) : t :=
  {| currentSession := currentSession st;
     optimisticSegments := delete segmentId (optimisticSegments st) |}.

Definition addParticipant (st : t) (participant : Participant.t) : t :=
  {| currentSession :=
       match currentSession st with
       | Some session =>
           Some {| Session.id := Session.id session;
                   Session.title := Session.title session;
                   Session.startingPrompt := Session.startingPrompt session;
                   Session.participants :=
                     Session.participants session ++ [participant];
                   Session.segments := Session.segments session;
                   Session.createdAt := Session.createdAt session;
                   Session.lastActivityAt :=
                     Session.lastActivityAt session |}
       | None => None
       end;
     optimisticSegments := optimisticSegments st |}.

Definition clearSession (st : t) : t :=
  {| currentSession := None; optimisticSegments := ∅ |}.

(** The handlers of [useWebSocket]: what the arrival of an event, at the
    client's instant [now], does to the store.  The other events only log,
    alert or start a download. *)
Definition receive (st : t) (arrival : Z * Gateway.ServerEvent) : t :=
  let '(now, event) := arrival in
  match event with
  | Gateway.session_created session => setSession st session
  | Gateway.session_updated session => setSession st session
  | Gateway.segment_added segment => addSegment st segment now
  | Gateway.participant_joined participant => addParticipant st participant
  | _ => st
  end.

Definition replay (st : t) (arrivals : list (Z * Gateway.ServerEvent)) : t :=
  foldl receive st arrivals.

(** A listener's scenario: "socket-1" has created the session "Test",
    "socket-2" joins it, and then "socket-1" adds "A".  These are the state
    before the join and what reaches "socket-2", with its clock readings. *)
Definition serverBeforeJoin : Gateway.Server :=
  fst (Gateway.run Gateway.initial
         [Gateway.SessionCreate "socket-1" "Test" None "Ann" "session-1"
            1000]).

Definition sessionBeforeJoin : Session.t :=
  {| Session.id := "session-1"; Session.title := "Test";
     Session.startingPrompt := None;
     Session.participants := [Gateway.ann];
     Session.segments := [];
     Session.createdAt := 1000; Session.lastActivityAt := 1000 |}.

Definition listenerArrivals : list (Z * Gateway.ServerEvent) :=
  [ (2004,
     Gateway.session_updated
       {| Session.id := "session-1"; Session.title := "Test";
          Session.startingPrompt := None;
          Session.participants := [Gateway.ann; Gateway.bob];
          Session.segments := [];
          Session.createdAt := 1000; Session.lastActivityAt := 2000 |});
    (3007, Gateway.segment_added Gateway.segmentA) ].

End SessionStore.

(** ** The AI co-author (backend/src/services/AICoAuthor.ts): what becomes
    of the text the language model answers *)

Module AICoAuthor.

Definition maxRetries : nat := 3.
Definition baseDelay : Z := 1000.

Fixpoint startsWith (pat l : list ascii) : bool :=
  match pat, l with
  | [], _ => true
  | p :: pat', c :: l' => bool_decide (p = c) && startsWith pat' l'
  | _ :: _, [] => false
  end.

Fixpoint includesFrom (pat l : list ascii) : bool :=
  startsWith pat l
  || match l with [] => false | _ :: l' => includesFrom pat l' end.

(** [hay.includes(needle)] *)
Definition includes (hay needle : string) : bool :=
  includesFrom (Validation.chars needle) (Validation.chars hay).

Definition graphicKeywords : list string :=
  [ "gore"; "guts"; "dismember"; "decapitat"; "mutilat"; "torture";
    "eviscerat"; "disembowel"; "blood splatter"; "severed limb" ].

Definition explicitKeywords : list string :=
  [ "sexual"; "nude"; "naked"; "rape"; "molest" ].

Definition genericElement : string :=
  "A cold presence filled the room, and the shadows seemed to move on their own.".

Definition filterContent (text : string) : string :=
  let lowerText := Validation.toLowerCase text in
  if existsb (fun keyword => includes lowerText keyword)
             (graphicKeywords ++ explicitKeywords)
  then genericElement
  else text.

Definition highKeywords : list string :=
  [ "scream"; "terror"; "horrifying"; "nightmare"; "death"; "dead";
    "corpse"; "ghost" ].
Definition mediumKeywords : list string :=
  [ "fear"; "dark"; "shadow"; "cold"; "whisper"; "strange"; "eerie" ].
Definition lowKeywords : list string :=
  [ "odd"; "unusual"; "quiet"; "silence"; "distant" ].

Definition calculateIntensity (text : string) : Z :=
  let lowerText := Validation.toLowerCase text in
  let score := 0 in
  let score :=
    foldl (fun score keyword =>
             if includes lowerText keyword then score + 3 else score)
          score highKeywords in
  let score :=
    foldl (fun score keyword =>
             if includes lowerText keyword then score + 2 else score)
          score mediumKeywords in
  let score :=
    foldl (fun score keyword =>
             if includes lowerText keyword then score + 1 else score)
          score lowKeywords in
  Z.min 10 (Z.max 1 score).

Definition tagKeywords : list (string * list string) :=
  [ ("supernatural",
     ["ghost"; "spirit"; "phantom"; "apparition"; "haunting"]);
    ("psychological", ["fear"; "terror"; "madness"; "insanity"; "paranoia"]);
    ("gothic", ["darkness"; "shadow"; "ancient"; "decay"; "ruins"]);
    ("suspense",
     ["whisper"; "footsteps"; "watching"; "following"; "lurking"]) ].

Definition extractHorrorTags (text : string) : list string :=
  let lowerText := Validation.toLowerCase text in
  omap (fun '(tag, keywords) =>
          if existsb (fun keyword => includes lowerText keyword) keywords
          then Some tag else None)
       tagKeywords.

(** What one call of the model comes to: the text of its response (the
    empty string when there is none), or an exception, which is also what
    a blocked response is turned into. *)
Inductive Answer :=
| answered (text : string)
| threw (message : string).

(** The body of the [try] in [generateHorrorElement]. *)
Definition tryOnce (answer : Answer) : Completion HorrorElement :=
  match answer with
  | threw message => Throws message
  | answered text =>
      let content := Validation.trim text in
      if bool_decide (content = "")
      then Throws "Gemini returned empty content"
      else
        let filteredContent := filterContent content in
        Returns {| he_content := filteredContent;
                   he_intensity := calculateIntensity filteredContent;
                   he_tags := extractHorrorTags filteredContent |}
  end.

(** The retry loop from [attempt] on, with [remaining] rounds to go; the
    result comes with the delays slept on the way. *)
Fixpoint attemptsFrom (answers : nat -> Answer) (attempt remaining : nat)
    (lastError : option string) : Completion HorrorElement * list Z :=
  match remaining with
  | O =>
      (Throws ("Failed to generate horror element after 3 attempts: "
               +:+ default "undefined" lastError), [])
  | S remaining' =>
      match tryOnce (answers attempt) with
      | Returns element => (Returns element, [])
      | Throws message =>
          let slept :=
            if (attempt <? maxRetries - 1)%nat
            then [baseDelay * 2 ^ Z.of_nat attempt] else [] in
          let '(result, later) :=
            attemptsFrom answers (S attempt) remaining' (Some message) in
          (result, slept ++ later)
      end
  end.

(** [modelPresent]: an API key was given to the constructor.
    [answers n] is what the model does at its [n]-th call. *)
Definition generateHorrorElement (modelPresent : bool)
    (answers : nat -> Answer) : Completion HorrorElement * list Z :=
  if negb modelPresent
  then (Throws "Google Gemini client not initialized. Please provide an API key.",
        [])
  else attemptsFrom answers 0 maxRetries None.

End AICoAuthor.

(** ** Invite links (backend/src/utils/inviteLinks.ts)

    The module keeps one table from token to session id.  The token is the
    hexadecimal text of 32 bytes drawn by [randomBytes], an argument here. *)

Module InviteLinks.

Abbreviation t := (gmap string string).

Definition defaultBaseUrl : string := "http://localhost:5173".

(** [baseUrl] is [None] when the caller leaves the parameter undefined. *)
Definition generateInviteLink (inviteTokens : t) (sessionId : string)
    (baseUrl : option string) (token : string) : string * t :=
  let inviteTokens := <[token := sessionId]> inviteTokens in
  let inviteLink := default defaultBaseUrl baseUrl +:+ "/join/" +:+ token in
  (inviteLink, inviteTokens).

(** [inviteTokens.get(token) || null]: the empty string is falsy. *)
Definition validateInviteToken (inviteTokens : t) (token : string)
  : option string :=
  match inviteTokens !! token with
  | Some sessionId =>
      if bool_decide (sessionId = "") then None else Some sessionId
  | None => None
  end.

Definition revokeInviteToken (inviteTokens : t) (token : string) : t :=
  delete token inviteTokens.

End InviteLinks.

(** ** The handlers of the gateway that answer the requester only:
    [session:export], [invite:generate] and [invite:validate]
    (backend/src/routes/websocket.ts) *)

Module Requests.

Inductive Reply :=
| session_exported (sessionId : string)
    (format : StoryManager.ExportFormat) (content : string)
| invite_generated (sessionId inviteLink : string)
| invite_validated (sessionId : string)
| error (message code : string).

Section Handlers.
Variables toISOString toLocaleString : Z -> string.

(** [data] is [None] when the request carries no payload: the
    destructuring at the head of the [try] then throws.  The [catch] of the
    handler turns that throw, and a throw of [exportSession], into
    [SESSION_EXPORT_ERROR]. *)
Definition on_session_export (storyManager : StoryManager.t)
    (data : option (string * StoryManager.ExportFormat)) : Reply :=
  match data with
  | None => error "Failed to export session" "SESSION_EXPORT_ERROR"
  | Some (sessionId, format) =>
      match StoryManager.getSession storyManager sessionId with
      | None => error "Session not found" "SESSION_NOT_FOUND"
      | Some _ =>
          match StoryManager.exportSession toISOString toLocaleString
                  storyManager sessionId format with
          | Returns exportedContent =>
              session_exported sessionId format exportedContent
          | Throws _ =>
              error "Failed to export session" "SESSION_EXPORT_ERROR"
          end
      end
  end.
End Handlers.

Definition on_invite_generate (storyManager : StoryManager.t)
    (inviteTokens : InviteLinks.t) (sessionId : string)
    (baseUrl : option string) (token : string) : InviteLinks.t * Reply :=
  match StoryManager.getSession storyManager sessionId with
  | None => (inviteTokens, error "Session not found" "SESSION_NOT_FOUND")
  | Some _ =>
      let '(inviteLink, inviteTokens) :=
        InviteLinks.generateInviteLink inviteTokens sessionId baseUrl
          token in
      (inviteTokens, invite_generated sessionId inviteLink)
  end.

Definition on_invite_validate (storyManager : StoryManager.t)
    (inviteTokens : InviteLinks.t) (token : string) : Reply :=
  match InviteLinks.validateInviteToken inviteTokens token with
  | None => error "Invalid or expired invite token" "INVALID_INVITE_TOKEN"
  | Some sessionId =>
      match StoryManager.getSession storyManager sessionId with
      | None => error "Session not found" "SESSION_NOT_FOUND"
      | Some _ => invite_validated sessionId
      end
  end.

End Requests.

(** ** The validator of the client (frontend/src/utils/validation.ts)

    It runs in the input form before a text is submitted.  It has its own
    copy of the word list and of the checks, and it does not sanitize. *)

Module ClientValidation.

Definition PROFANITY_LIST : list string :=
  [ "fuck"; "shit"; "damn"; "bitch"; "ass"; "bastard"; "crap"; "piss";
    "cock"; "dick"; "pussy"; "cunt"; "whore"; "slut"; "fag"; "nigger";
    "retard" ].

Definition MAX_SEGMENT_LENGTH : nat := 500.
Definition MIN_SEGMENT_LENGTH : nat := 1.

Record ValidationResult := {
  valid : bool;
  error : option string;
  warning : option string
}.

Definition containsProfanity (content : string) : bool :=
  let lowerContent := Validation.toLowerCase content in
  existsb (fun word => Validation.regexTestWord word lowerContent)
          PROFANITY_LIST.

Definition hasContent (content : string) : bool :=
  (0 <? String.length (Validation.trim content))%nat.

(** A number inside a template literal. *)
Definition numberText (n : nat) : string :=
  NilEmpty.string_of_uint (Nat.to_uint n).

Definition validateSegment (content : string) : ValidationResult :=
  if negb (hasContent content) then
    {| valid := false;
       error := Some "Please enter some text before submitting";
       warning := None |}
  else
    let trimmedContent := Validation.trim content in
    let length := String.length trimmedContent in
    if (MAX_SEGMENT_LENGTH <? length)%nat then
      {| valid := false;
         error := Some ("Content must be " +:+ numberText MAX_SEGMENT_LENGTH
                        +:+ " characters or less (currently "
                        +:+ numberText length +:+ ")");
         warning := None |}
    else if (length <? MIN_SEGMENT_LENGTH)%nat then
      {| valid := false; error := Some "Content is too short";
         warning := None |}
    else if containsProfanity trimmedContent then
      {| valid := false;
         error :=
           Some "Content contains inappropriate language. Please revise.";
         warning := None |}
    else if (length <? 10)%nat then
      {| valid := true; error := None;
         warning :=
           Some "Your contribution is quite short. Consider adding more detail." |}
    else {| valid := true; error := None; warning := None |}.

End ClientValidation.

(** ** The offline queue (frontend/src/services/offlineQueue.ts) *)

Module OfflineQueue.

Record QueuedSegment := {
  sessionId : string;
  content : string;
  timestamp : Z;
  retryCount : nat
}.

(** What [JSON.stringify] writes for one entry: the [Date] has become the
    text [Date.prototype.toJSON] gives for it. *)
Record StoredSegment := {
  stored_sessionId : string;
  stored_content : string;
  stored_timestamp : string;
  stored_retryCount : nat
}.

(** An instance together with the [localStorage] item it reads and writes.
    The item holds a JSON text; it is represented by the array that text
    denotes, [None] standing for an item never written.  [JSON.parse]
    inverts [JSON.stringify] on arrays of such objects. *)
Record t := {
  queue : list QueuedSegment;
  localStorage : option (list StoredSegment)
}.

Definition maxRetries : nat := 3.

Definition sameEntry (sid : string) (ts : Z) (item : QueuedSegment) : Prop :=
  sessionId item = sid ∧ timestamp item = ts.

#[global] Instance sameEntry_dec sid ts item : Decision (sameEntry sid ts item).
Proof. unfold sameEntry. apply _. Defined.

Section Platform.
(** [Date.prototype.toJSON] and [new Date(text).getTime()]. *)
Variable toJSON : Z -> string.
Variable parseDate : string -> Z.

Definition stringify (item : QueuedSegment) : StoredSegment :=
  {| stored_sessionId := sessionId item;
     stored_content := content item;
     stored_timestamp := toJSON (timestamp item);
     stored_retryCount := retryCount item |}.

(** [{ ...item, timestamp: new Date(item.timestamp) }] *)
Definition revive (item : StoredSegment) : QueuedSegment :=
  {| sessionId := stored_sessionId item;
     content := stored_content item;
     timestamp := parseDate (stored_timestamp item);
     retryCount := stored_retryCount item |}.

(** [localStorage.setItem] can throw (the quota is exceeded, storage is
    disabled); [saveToStorage] catches that and only logs it, so the item
    stays as it was while the queue in memory has moved on.
    [setItemThrows item value] tells whether writing [value] over [item]
    throws. *)
Variable setItemThrows
  : option (list StoredSegment) -> list StoredSegment -> bool.

Definition saveToStorage (q : t) : t :=
  let serialized := map stringify (queue q) in
  if setItemThrows (localStorage q) serialized
  then q
  else {| queue := queue q; localStorage := Some serialized |}.

Definition loadFromStorage (q : t) : t :=
  match localStorage q with
  | Some parsed =>
      {| queue := map revive parsed; localStorage := localStorage q |}
  | None => q
  end.

(** [new OfflineQueue()] over a given storage item. *)
Definition construct (storage : option (list StoredSegment)) : t :=
  loadFromStorage {| queue := []; localStorage := storage |}.

Definition enqueue (q : t) (sid text : string) (now : Z) : t :=
  let queuedSegment :=
    {| sessionId := sid; content := text; timestamp := now;
       retryCount := 0 |} in
  saveToStorage {| queue := queue q ++ [queuedSegment];
                   localStorage := localStorage q |}.

Definition getQueuedSegments (q : t) (sid : string) : list QueuedSegment :=
  List.filter (fun item => bool_decide (sessionId item = sid)) (queue q).

Definition getAllQueued (q : t) : list QueuedSegment := queue q.

Definition dequeue (q : t) (sid : string) (ts : Z) : t :=
  saveToStorage
    {| queue :=
         List.filter
           (fun item => negb (bool_decide (sameEntry sid ts item)))
           (queue q);
       localStorage := localStorage q |}.

(** [item.retryCount++] *)
Definition bump (item : QueuedSegment) : QueuedSegment :=
  {| sessionId := sessionId item; content := content item;
     timestamp := timestamp item; retryCount := S (retryCount item) |}.

(** [find] returns the first matching entry itself, so [retryCount++]
    updates the queue in place, at the index where it was found. *)
Definition incrementRetry (q : t) (sid : string) (ts : Z) : bool * t :=
  match list_find (sameEntry sid ts) (queue q) with
  | Some (i, item) =>
      let item := bump item in
      let q := {| queue := <[i := item]> (queue q);
                  localStorage := localStorage q |} in
      if (maxRetries <=? retryCount item)%nat
      then (false, dequeue q sid ts)
      else (true, saveToStorage q)
  | None => (false, q)
  end.

Definition clearSession (q : t) (sid : string) : t :=
  saveToStorage
    {| queue :=
         List.filter
           (fun item => negb (bool_decide (sessionId item = sid)))
           (queue q);
       localStorage := localStorage q |}.

Definition clearAll (q : t) : t :=
  saveToStorage {| queue := []; localStorage := localStorage q |}.

Definition size (q : t) : nat := length (queue q).

Definition isEmpty (q : t) : bool := (length (queue q) =? 0)%nat.

(** Any sequence of calls on one instance. *)
Inductive Call :=
| Enqueue (sid text : string) (now : Z)
| Dequeue (sid : string) (ts : Z)
| IncrementRetry (sid : string) (ts : Z)
| ClearSession (sid : string)
| ClearAll.

Definition call (q : t) (c : Call) : t :=
  match c with
  | Enqueue sid text now => enqueue q sid text now
  | Dequeue sid ts => dequeue q sid ts
  | IncrementRetry sid ts => snd (incrementRetry q sid ts)
  | ClearSession sid => clearSession q sid
  | ClearAll => clearAll q
  end.

Definition calls (q : t) (cs : list Call) : t := foldl call q cs.

(** The storage item mirrors the queue in memory: it holds what
    [saveToStorage] writes for it, or was never written while the queue is
    still empty. *)
Definition synced (q : t) : Prop :=
  localStorage q = Some (map stringify (queue q))
  \/ (localStorage q = None /\ queue q = []).
End Platform.

(** A storage that takes every write, and one that refuses every write. *)
Definition neverThrows
  : option (list StoredSegment) -> list StoredSegment -> bool :=
  fun _ _ => false.

Definition alwaysThrows
  : option (list StoredSegment) -> list StoredSegment -> bool :=
  fun _ _ => true.

(** The pair [dequeue] and [incrementRetry] look an entry up by. *)
Definition entryKey (item : QueuedSegment) : string * Z :=
  (sessionId item, timestamp item).

(** What an entry carries besides its retry count. *)
Definition payload (item : QueuedSegment) : string * string * Z :=
  (sessionId item, content item, timestamp item).

(** The entries the [enqueue] calls of a history add, in order. *)
Definition enqueued (cs : list Call) : list (string * string * Z) :=
  omap (fun c => match c with
                 | Enqueue sid text now => Some (sid, text, now)
                 | _ => None
                 end) cs.

(** A text format for instants under which the platform assumption of the
    durability property can be met outright: the decimal numeral of the
    epoch milliseconds. *)
Definition decimalText (instant : Z) : string :=
  NilEmpty.string_of_int (Z.to_int instant).

Definition readDecimal (s : string) : Z :=
  match NilEmpty.int_of_string s with
  | Some d => Z.of_int d
  | None => 0
  end.

End OfflineQueue.

(** ** The reconnection manager (frontend/src/services/offlineQueue.ts) *)

Module ReconnectionManager.

(** The [attempt] counter; the pending timer lives in real time and is
    left out.  Delays are exact rationals where the code computes with
    doubles.  The values [getNextDelay] is evaluated at below are dyadic
    numbers that a double holds exactly, and the bounds proved of a delay
    are kept by rounding to nearest, which is monotone and leaves three
    quarters and five quarters of the capped delay as they are. *)
Record t := { attempt : nat }.

Definition maxAttempts : nat := 10.
Definition baseDelay : Z := 1000.
Definition maxDelay : Z := 30000.

Definition initial : t := {| attempt := 0 |}.

(** [Math.min(baseDelay * Math.pow(2, attempt), maxDelay)] *)
Definition cappedDelay (attempt : nat) : Z :=
  let exponentialDelay := baseDelay * 2 ^ Z.of_nat attempt in
  Z.min exponentialDelay maxDelay.

(** [random] is the value [Math.random()] returns, in [0, 1). *)
Definition getNextDelay (rm : t) (random : Q) : Q * t :=
  let cappedDelay := inject_Z (cappedDelay (attempt rm)) in
  let jitter := (cappedDelay * (1 # 4) * (random * 2 - 1))%Q in
  let delay := Qmax 0 (cappedDelay + jitter)%Q in
  (delay, {| attempt := S (attempt rm) |}).

Definition reset (rm : t) : t := {| attempt := 0 |}.

Definition isMaxAttemptsReached (rm : t) : bool :=
  (maxAttempts <=? attempt rm)%nat.

Definition getCurrentAttempt (rm : t) : nat := attempt rm.

(** The delays of successive calls, one random draw per call. *)
Fixpoint delays (rm : t) (randoms : list Q) : list Q :=
  match randoms with
  | [] => []
  | r :: randoms' =>
      let '(d, rm') := getNextDelay rm r in d :: delays rm' randoms'
  end.

End ReconnectionManager.

(** ** The timer of the reconnection manager
    (frontend/src/services/offlineQueue.ts)

    [reconnectTimer] is the timeout armed last and not cleared since, given
    by its delay; that the timeout has fired does not clear the field. *)

Module ReconnectSchedule.

Record t := {
  manager : ReconnectionManager.t;
  reconnectTimer : option Q
}.

Definition initial : t :=
  {| manager := ReconnectionManager.initial; reconnectTimer := None |}.

Definition clearTimer (st : t) : t :=
  {| manager := manager st; reconnectTimer := None |}.

(** [reset]: [this.attempt = 0; this.clearTimer()] *)
Definition reset (st : t) : t :=
  clearTimer {| manager := ReconnectionManager.reset (manager st);
                reconnectTimer := reconnectTimer st |}.

(** [random] is the value [Math.random()] returns if [getNextDelay] is
    reached. *)
Definition scheduleReconnect (st : t) (random : Q) : t :=
  let st := clearTimer st in
  if ReconnectionManager.isMaxAttemptsReached (manager st) then st
  else
    let '(delay, rm) :=
      ReconnectionManager.getNextDelay (manager st) random in
    {| manager := rm; reconnectTimer := Some delay |}.

(** Successive calls of [scheduleReconnect] with no [reset] between them,
    one per failed connection attempt. *)
Definition schedule (st : t) (randoms : list Q) : t :=
  foldl scheduleReconnect st randoms.

End ReconnectSchedule.

(** ** The client (frontend/src/services/websocketClient.ts): what it does
    with the offline queue *)

Module WebSocketClient.

Section Platform.
Variable toJSON : Z -> string.
Variable setItemThrows
  : option (list OfflineQueue.StoredSegment)
    -> list OfflineQueue.StoredSegment -> bool.

(** [addSegment]: [connected] is [this.socket?.connected] at the call,
    [now] the instant [enqueue] reads, [sent] how the promise of
    [sendSegment] settles.  Offline the segment is queued and the promise
    resolves; online the queue is not touched, whatever becomes of the
    send. *)
Definition addSegment (q : OfflineQueue.t) (connected : bool)
    (sessionId content : string) (now : Z) (sent : Completion unit)
  : OfflineQueue.t * Completion unit :=
  if negb connected
  then (OfflineQueue.enqueue toJSON setItemThrows q sessionId content now,
        Returns tt)
  else (q, sent).

(** [addSegment] called for each of [adds] while the socket is
    disconnected. *)
Definition addOffline (q : OfflineQueue.t)
    (adds : list (string * string * Z)) : OfflineQueue.t :=
  foldl (fun q '(sessionId, content, now) =>
           fst (addSegment q false sessionId content now (Returns tt)))
        q adds.

(** The loop of [syncOfflineQueue] over its snapshot, with the
    [(sessionId, content)] pairs it hands to [sendSegment], in the order of
    the calls.  [outcomes] tells, for the sends that have settled so far,
    whether the promise of [sendSegment] resolved; the loop is suspended on
    the first send without an outcome.  Nothing else touches the queue while
    the loop runs. *)
Fixpoint syncEach (q : OfflineQueue.t)
    (queuedSegments : list OfflineQueue.QueuedSegment)
    (outcomes : list bool) : OfflineQueue.t * list (string * string) :=
  match queuedSegments with
  | [] => (q, [])
  | queuedSegment :: queuedSegments' =>
      let sent :=
        (OfflineQueue.sessionId queuedSegment,
         OfflineQueue.content queuedSegment) in
      match outcomes with
      | [] => (q, [sent])
      | resolved :: outcomes' =>
          let q :=
            if resolved
            then OfflineQueue.dequeue toJSON setItemThrows q
                   (OfflineQueue.sessionId queuedSegment)
                   (OfflineQueue.timestamp queuedSegment)
            else snd (OfflineQueue.incrementRetry toJSON setItemThrows q
                        (OfflineQueue.sessionId queuedSegment)
                        (OfflineQueue.timestamp queuedSegment)) in
          let '(q, later) := syncEach q queuedSegments' outcomes' in
          (q, sent :: later)
      end
  end.

Definition syncOfflineQueue (q : OfflineQueue.t) (outcomes : list bool)
  : OfflineQueue.t * list (string * string) :=
  if OfflineQueue.isEmpty q then (q, [])
  else syncEach q (OfflineQueue.getAllQueued q) outcomes.

(** What one entry becomes when its send has failed. *)
Definition afterFailure (item : OfflineQueue.QueuedSegment)
  : list OfflineQueue.QueuedSegment :=
  if (OfflineQueue.maxRetries <=? S (OfflineQueue.retryCount item))%nat
  then [] else [OfflineQueue.bump item].

(** What a pass leaves of the entries it started from: an entry whose send
    resolved is gone, one whose send failed has one more retry or is gone,
    one the pass has not come to is as it was. *)
Fixpoint afterPass (items : list OfflineQueue.QueuedSegment)
    (outcomes : list bool) : list OfflineQueue.QueuedSegment :=
  match items, outcomes with
  | item :: items', resolved :: outcomes' =>
      (if resolved then [] else afterFailure item)
      ++ afterPass items' outcomes'
  | _, _ => items
  end.
End Platform.

End WebSocketClient.

(** * Properties *)

(** ** Validation on examples *)

Example validate_plain :
  Validation.validateSegment "  The <b>attic</b> door creaked.  "
  = {| Validation.valid := true; Validation.error := None;
       Validation.sanitized := Some "The attic door creaked." |}.
Proof. vm_compute. reflexivity. Qed.

Example validate_blank :
  Validation.valid (Validation.validateSegment "   ") = false.
Proof. vm_compute. reflexivity. Qed.

Example validate_only_markup :
  Validation.validateSegment "<br>"
  = {| Validation.valid := false;
       Validation.error := Some "Content must be between 1 and 500 characters";
       Validation.sanitized := None |}.
Proof. vm_compute. reflexivity. Qed.

Example validate_profane :
  Validation.valid (Validation.validateSegment "What a Damn cold night") = false.
Proof. vm_compute. reflexivity. Qed.

(** The checks run on the sanitized text: markup is removed before the
    length and the word list are looked at. *)
Example validate_checks_sanitized_text :
  Validation.validateSegment "hi <ass> there"
  = {| Validation.valid := true; Validation.error := None;
       Validation.sanitized := Some "hi  there" |}.
Proof. vm_compute. reflexivity. Qed.

Example validate_substring_is_not_a_word :
  Validation.valid (Validation.validateSegment "The class passed the glass") = true.
Proof. vm_compute. reflexivity. Qed.

(** The three ways [validateSegment] rejects a content, and no other. *)
Lemma validateSegment_invalid_iff content :
  Validation.valid (Validation.validateSegment content) = false
  <-> Validation.hasContent content = false
      \/ Validation.isValidLength (Validation.sanitizeInput content) = false
      \/ Validation.containsProfanity (Validation.sanitizeInput content) = true.
Proof.
  unfold Validation.validateSegment.
  destruct (Validation.hasContent content);
    cbv beta iota delta [negb Validation.valid];
    [|intuition congruence].
  destruct (Validation.isValidLength _);
    cbv beta iota delta [negb Validation.valid];
    [|intuition congruence].
  destruct (Validation.containsProfanity _);
    cbv beta iota delta [negb Validation.valid]; intuition congruence.
Qed.

Lemma isValidLength_empty : Validation.isValidLength "" = false.
Proof. vm_compute. reflexivity. Qed.

Lemma validateSegment_valid_sanitized content :
  Validation.valid (Validation.validateSegment content) = true ->
  Validation.sanitized (Validation.validateSegment content)
  = Some (Validation.sanitizeInput content)
  /\ Validation.sanitizeInput content <> "".
Proof.
  unfold Validation.validateSegment.
  destruct (Validation.hasContent content);
    cbv beta iota delta [negb Validation.valid Validation.sanitized];
    [|discriminate].
  destruct (Validation.isValidLength _) eqn:Hlen;
    cbv beta iota delta [negb Validation.valid Validation.sanitized];
    [|discriminate].
  destruct (Validation.containsProfanity _);
    cbv beta iota delta [negb Validation.valid Validation.sanitized];
    [discriminate|].
  intros _. split; [reflexivity|]. intros Heq. rewrite Heq in Hlen.
  rewrite isValidLength_empty in Hlen. discriminate.
Qed.

(** ** The segment log is a stable sort of what was appended *)

Section SortFacts.
Import StoryManager.

Lemma insertSegment_Permutation x l : insertSegment x l ≡ₚ x :: l.
Proof.
  induction l as [|y l IH]; simpl; [reflexivity|].
  destruct (Segment.timestamp x <=? Segment.timestamp y); [reflexivity|].
  rewrite IH. apply Permutation_swap.
Qed.

Lemma sortByTimestamp_Permutation l : sortByTimestamp l ≡ₚ l.
Proof.
  induction l as [|x l IH]; simpl; [reflexivity|].
  rewrite insertSegment_Permutation. by rewrite IH.
Qed.

Lemma insertSegment_HdRel a x l :
  before a x -> HdRel before a l -> HdRel before a (insertSegment x l).
Proof.
  intros Hax Hal. destruct l as [|y l]; simpl; [by constructor|].
  destruct (Segment.timestamp x <=? Segment.timestamp y);
    constructor; [done|]. by inversion Hal.
Qed.

Lemma insertSegment_Sorted x l :
  Sorted before l -> Sorted before (insertSegment x l).
Proof.
  induction l as [|y l IH]; simpl; intros Hs.
  - repeat constructor.
  - destruct (Z.leb_spec (Segment.timestamp x) (Segment.timestamp y)).
    + constructor; [done|]. by constructor.
    + inversion Hs; subst. constructor; [by apply IH|].
      apply insertSegment_HdRel; [unfold before; lia | done].
Qed.

Lemma sortByTimestamp_Sorted l : Sorted before (sortByTimestamp l).
Proof.
  induction l as [|x l IH]; simpl; [constructor|].
  by apply insertSegment_Sorted.
Qed.

Lemma stamped_app time l1 l2 :
  stamped time (l1 ++ l2) = stamped time l1 ++ stamped time l2.
Proof. apply List.filter_app. Qed.

Lemma stamped_cons time x l :
  stamped time (x :: l) = stamped time [x] ++ stamped time l.
Proof. apply (stamped_app time [x] l). Qed.

Lemma insertSegment_stamped time x l :
  stamped time (insertSegment x l) = stamped time (x :: l).
Proof.
  induction l as [|y l IH]; [reflexivity|]. simpl insertSegment.
  destruct (Z.leb_spec (Segment.timestamp x) (Segment.timestamp y));
    [reflexivity|].
  rewrite (stamped_cons time y (insertSegment x l)), IH.
  rewrite (stamped_cons time x l), (stamped_cons time x (y :: l)).
  rewrite (stamped_cons time y l), !app_assoc. f_equal.
  unfold stamped. cbn [List.filter].
  repeat case_bool_decide; try reflexivity; lia.
Qed.

Lemma sortByTimestamp_stamped time l :
  stamped time (sortByTimestamp l) = stamped time l.
Proof.
  induction l as [|x l IH]; [reflexivity|]. simpl sortByTimestamp.
  rewrite insertSegment_stamped, (stamped_cons time x l).
  by rewrite (stamped_cons time x), IH.
Qed.

Lemma Sorted_head_le x l y :
  Sorted before (x :: l) -> In y (x :: l) -> before x y.
Proof.
  intros Hs Hin. apply Sorted_StronglySorted in Hs.
  - inversion Hs as [|? ? _ Hall]; subst. destruct Hin as [->|Hin].
    + unfold before; lia.
    + rewrite List.Forall_forall in Hall. by apply Hall.
  - intros a b c; unfold before; lia.
Qed.

Lemma stamped_In time x l :
  In x (stamped time l) <-> In x l /\ Segment.timestamp x = time.
Proof.
  unfold stamped. rewrite List.filter_In. by rewrite bool_decide_eq_true.
Qed.

(** A chronological list is determined by its equal-timestamp runs: two
    stable sorts of the same input cannot differ. *)
Lemma sorted_stable_unique l1 l2 :
  Sorted before l1 -> Sorted before l2 ->
  (forall time, stamped time l1 = stamped time l2) ->
  l1 = l2.
Proof.
  revert l2. induction l1 as [|x l1 IH]; intros l2 H1 H2 Hst.
  - destruct l2 as [|y l2]; [reflexivity|].
    specialize (Hst (Segment.timestamp y)). unfold stamped in Hst.
    simpl in Hst. rewrite bool_decide_eq_true_2 in Hst by reflexivity.
    discriminate.
  - destruct l2 as [|y l2].
    + specialize (Hst (Segment.timestamp x)). unfold stamped in Hst.
      simpl in Hst. rewrite bool_decide_eq_true_2 in Hst by reflexivity.
      discriminate.
    + assert (Hxy : Segment.timestamp x = Segment.timestamp y).
      { assert (In x (y :: l2)) as Hx.
        { apply (stamped_In (Segment.timestamp x)).
          rewrite <- Hst. apply stamped_In. split; [by left|reflexivity]. }
        assert (In y (x :: l1)) as Hy.
        { apply (stamped_In (Segment.timestamp y)).
          rewrite Hst. apply stamped_In. split; [by left|reflexivity]. }
        pose proof (Sorted_head_le _ _ _ H2 Hx).
        pose proof (Sorted_head_le _ _ _ H1 Hy).
        unfold before in *. lia. }
      assert (x = y) as ->.
      { specialize (Hst (Segment.timestamp x)). unfold stamped in Hst.
        simpl in Hst.
        rewrite bool_decide_eq_true_2 in Hst by reflexivity.
        rewrite bool_decide_eq_true_2 in Hst by (symmetry; exact Hxy).
        congruence. }
      f_equal. apply IH.
      * by inversion H1.
      * by inversion H2.
      * intros time. specialize (Hst time). unfold stamped in *.
        simpl in Hst. case_bool_decide; [congruence|done].
Qed.

End SortFacts.

(** ** The story manager *)

Section ManagerFacts.
Import StoryManager.

Lemma addSegment_lookup (m : gmap string Session.t) sid session segment now :
  m !! sid = Some session ->
  exists session',
    addSegment m sid segment now !! sid = Some session'
    /\ Session.segments session'
       = sortByTimestamp (Session.segments session ++ [segment])
    /\ Session.participants session' = Session.participants session
    /\ Session.id session' = Session.id session
    /\ Session.title session' = Session.title session.
Proof.
  intros Hm. unfold addSegment. rewrite Hm. eexists.
  rewrite lookup_insert_eq. split; [reflexivity|]. by simpl.
Qed.

Lemma addSegment_lookup_ne (m : gmap string Session.t) sid sid' segment now :
  sid <> sid' ->
  addSegment m sid segment now !! sid' = m !! sid'.
Proof.
  intros Hne. unfold addSegment. destruct (m !! sid); [|reflexivity].
  by rewrite lookup_insert_ne.
Qed.

Lemma addSegment_missing (m : gmap string Session.t) sid segment now :
  m !! sid = None -> addSegment m sid segment now = m.
Proof. intros Hm. unfold addSegment. by rewrite Hm. Qed.

Lemma addParticipant_segments (m : gmap string Session.t) sid sid' p now :
  Session.segments <$> (addParticipant m sid p now !! sid')
  = Session.segments <$> (m !! sid').
Proof.
  unfold addParticipant. destruct (m !! sid) as [session|] eqn:Hm;
    [|reflexivity].
  destruct (decide (sid = sid')) as [<-|Hne].
  - rewrite lookup_insert_eq, Hm. reflexivity.
  - by rewrite lookup_insert_ne.
Qed.

Lemma addSegment_chronological (m : gmap string Session.t) sid segment now :
  chronological m -> chronological (addSegment m sid segment now).
Proof.
  intros Hc sid' s' Hs'. destruct (decide (sid = sid')) as [<-|Hne].
  - destruct (m !! sid) as [session|] eqn:Hm.
    + destruct (addSegment_lookup m sid session segment now Hm)
        as (s'' & Hl & Hseg & _).
      rewrite Hl in Hs'. injection Hs' as <-. rewrite Hseg.
      apply sortByTimestamp_Sorted.
    + rewrite addSegment_missing in Hs' by done. by apply (Hc sid).
  - rewrite addSegment_lookup_ne in Hs' by done. by apply (Hc sid').
Qed.

Lemma addParticipant_chronological (m : gmap string Session.t) sid p now :
  chronological m -> chronological (addParticipant m sid p now).
Proof.
  intros Hc sid' s' Hs'.
  pose proof (addParticipant_segments m sid sid' p now) as Heq.
  rewrite Hs' in Heq. simpl in Heq.
  destruct (m !! sid') as [s|] eqn:Hm; [|discriminate].
  injection Heq as ->. by apply (Hc sid').
Qed.

Lemma createSession_chronological (m : gmap string Session.t) title prompt
    uuid now :
  chronological m ->
  chronological (snd (createSession m title prompt uuid now)).
Proof.
  intros Hc sid' s' Hs'. simpl in Hs'.
  destruct (decide (uuid = sid')) as [<-|Hne].
  - rewrite lookup_insert_eq in Hs'. injection Hs' as <-. constructor.
  - rewrite lookup_insert_ne in Hs' by done. by apply (Hc sid').
Qed.

Lemma addSegments_cons (m : gmap string Session.t) sid add adds :
  addSegments m sid (add :: adds)
  = addSegments (addSegment m sid (fst add) (snd add)) sid adds.
Proof. reflexivity. Qed.

Lemma calls_chronological (m : gmap string Session.t) history :
  chronological m -> chronological (calls m history).
Proof.
  revert m. induction history as [|c history IH]; intros m Hm; [done|].
  simpl. apply IH. destruct c; simpl.
  - by apply (createSession_chronological m).
  - by apply addParticipant_chronological.
  - by apply addSegment_chronological.
Qed.

(** C2.  Chronological invariant: take any session of a registry that the
    calls of the class have produced, and any run of [addSegment] calls on it
    with arbitrary timestamps.  Reading the log then yields timestamps in
    non-decreasing order; the segments carrying one timestamp appear in the
    order they were appended; and the log holds exactly the earlier segments
    and the appended ones, none removed or altered: it is the stable sort of
    them. *)
Theorem chronological_invariant (history : list Call) sid session
    (adds : list (Segment.t * Z)) :
  calls ∅ history !! sid = Some session ->
  let appended := Session.segments session ++ map fst adds in
  let log := getSegments (addSegments (calls ∅ history) sid adds) sid in
  Sorted before log
  /\ (forall i j a b, log !! i = Some a -> log !! j = Some b ->
        (i <= j)%nat -> Segment.timestamp a <= Segment.timestamp b)
  /\ (forall time, stamped time log = stamped time appended)
  /\ log ≡ₚ appended
  /\ length log = (length (Session.segments session) + length adds)%nat
  /\ log = sortByTimestamp appended.
Proof.
  intros Hm appended log.
  assert (Hs : Sorted before (Session.segments session)).
  { eapply (calls_chronological ∅ history); [|exact Hm].
    intros sid' s' Hs'. by rewrite lookup_empty in Hs'. }
  assert (Hmain : Sorted before log
                  /\ (forall time, stamped time log = stamped time appended)
                  /\ log ≡ₚ appended).
  { subst appended log. revert Hm Hs. generalize (calls ∅ history).
    intros m. revert m session.
    induction adds as [|add adds IH]; intros m session Hm Hs.
    - unfold getSegments. simpl. rewrite Hm, app_nil_r. done.
    - rewrite addSegments_cons.
      destruct (addSegment_lookup m sid session (fst add) (snd add) Hm)
        as (s' & Hl & Hseg & _).
      destruct (IH _ s' Hl) as (IH1 & IH2 & IH3).
      { rewrite Hseg. apply sortByTimestamp_Sorted. }
      rewrite Hseg in IH2, IH3. split; [exact IH1|]. split.
      + intros time. rewrite IH2, !stamped_app, sortByTimestamp_stamped.
        rewrite stamped_app. simpl map.
        rewrite (stamped_cons time (fst add) (map fst adds)).
        by rewrite <- !app_assoc.
      + rewrite IH3, sortByTimestamp_Permutation. simpl map.
        by rewrite <- app_assoc. }
  destruct Hmain as (H1 & H2 & H3). split; [exact H1|]. split.
  { intros i j a b Hi Hj Hij.
    apply Sorted_StronglySorted in H1;
      [|intros x y z; unfold before; lia].
    destruct (decide (i = j)) as [->|Hne].
    - rewrite Hi in Hj. injection Hj as ->. lia.
    - assert (i < j)%nat as Hlt by lia.
      clear Hij Hne H2 H3. revert i j Hi Hj Hlt.
      induction H1 as [|x l Hl IHl Hall]; intros i j Hi Hj Hlt.
      + by rewrite lookup_nil in Hi.
      + destruct j as [|j]; [lia|]. simpl in Hj. destruct i as [|i].
        * simpl in Hi. injection Hi as ->.
          rewrite List.Forall_forall in Hall.
          apply (Hall b). apply list_elem_of_In.
          by eapply list_elem_of_lookup_2.
        * simpl in Hi. apply (IHl i j); [done|done|lia]. }
  split; [exact H2|]. split; [exact H3|]. split.
  { rewrite H3. subst appended. by rewrite length_app, length_map. }
  apply sorted_stable_unique; [done|apply sortByTimestamp_Sorted|].
  intros time. by rewrite H2, sortByTimestamp_stamped.
Qed.

(** C6, as the code has it.  On a session id that is not in the registry,
    [addParticipant] and [addSegment] return without reporting anything and
    [exportSession] throws an error with the message "Session not found";
    none of them changes the registry. *)
Theorem missing_session_operations (toISOString toLocaleString : Z -> string)
    (m : gmap string Session.t) sid participant segment now format :
  m !! sid = None ->
  addParticipant m sid participant now = m
  /\ addSegment m sid segment now = m
  /\ exportSession toISOString toLocaleString m sid format
     = Throws "Session not found"
  /\ getSession m sid = None
  /\ getSegments m sid = [].
Proof.
  intros Hm. unfold addParticipant, addSegment, exportSession, getSession,
    getSegments. by rewrite Hm.
Qed.

End ManagerFacts.

Lemma missing_session_operations_witness :
  (∅ : gmap string Session.t) !! "no-such-session" = None
  /\ StoryManager.addSegment ∅ "no-such-session"
       (Segment.make "s1" "Boo" "c1" user 5 []) 7 = ∅
  /\ StoryManager.exportSession (fun _ => "") (fun _ => "") ∅
       "no-such-session" StoryManager.html_format
     = Throws "Session not found".
Proof.
  pose proof (missing_session_operations (fun _ => "") (fun _ => "") ∅
                "no-such-session" (Participant.make "c1" "Ann" 1)
                (Segment.make "s1" "Boo" "c1" user 5 []) 7
                StoryManager.html_format (lookup_empty _)) as (_ & H2 & H3 & _).
  split; [apply lookup_empty|]. split; [exact H2|exact H3].
Defined.

(** C6 as stated fails: [exportSession] on an unknown id does not hand a
    not-found condition back to its caller, it throws. *)
Lemma export_missing_session_throws :
  ~ completesNormally
      (StoryManager.exportSession (fun _ => "") (fun _ => "") ∅
         "no-such-session" StoryManager.text_format).
Proof. intros [value Hvalue]. vm_compute in Hvalue. discriminate. Qed.

(** ** The gateway *)

#[local] Arguments Validation.validateSegment : simpl never.
#[local] Arguments Validation.sanitizeInput : simpl never.
#[local] Arguments StoryManager.sortByTimestamp : simpl never.

Section GatewayFacts.
Import StoryManager Gateway.

(** Case analysis on the input of a step, with the handler's own names. *)
Ltac case_input i :=
  destruct i as [socket title prompt userName uuid now
                |socket sid' userName now
                |socket sid' pid
                |socket sid' content uuid now
                |a result uuid now]; simpl.

Lemma members_socket_join σ socket room r :
  members (socket_join σ socket room) r
  = if decide (room = r) then {[socket]} ∪ members σ r else members σ r.
Proof.
  unfold members, socket_join; simpl. destruct (decide (room = r)) as [->|Hne].
  - by rewrite lookup_insert_eq.
  - by rewrite lookup_insert_ne.
Qed.

Lemma members_socket_join_mono σ socket room r c :
  c ∈ members σ r -> c ∈ members (socket_join σ socket room) r.
Proof. rewrite members_socket_join. case_decide; set_solver. Qed.

Lemma members_with_manager σ m r : members (with_manager σ m) r = members σ r.
Proof. reflexivity. Qed.

Lemma members_set_socket_data σ socket sid pid r :
  members (set_socket_data σ socket sid pid) r = members σ r.
Proof. reflexivity. Qed.

Lemma observed_app c es1 es2 :
  observed c (es1 ++ es2) = observed c es1 ++ observed c es2.
Proof. apply omap_app. Qed.

Lemma addedSegments_app evs1 evs2 :
  addedSegments (evs1 ++ evs2) = addedSegments evs1 ++ addedSegments evs2.
Proof. apply omap_app. Qed.

Lemma appendedTo_app sid es1 es2 :
  appendedTo sid (es1 ++ es2) = appendedTo sid es1 ++ appendedTo sid es2.
Proof. apply omap_app. Qed.

Lemma run_cons σ i inputs :
  run σ (i :: inputs)
  = (fst (run (fst (step σ i)) inputs),
     snd (step σ i) ++ snd (run (fst (step σ i)) inputs)).
Proof.
  simpl. destruct (step σ i) as [σ1 e1]. simpl.
  by destruct (run σ1 inputs) as [σ2 e2].
Qed.

Lemma run_app σ inputs1 inputs2 :
  run σ (inputs1 ++ inputs2)
  = (fst (run (fst (run σ inputs1)) inputs2),
     snd (run σ inputs1) ++ snd (run (fst (run σ inputs1)) inputs2)).
Proof.
  revert σ. induction inputs1 as [|i inputs1 IH]; intros σ.
  - simpl. by destruct (run σ inputs2).
  - rewrite <- app_comm_cons, !run_cons, IH. simpl. by rewrite app_assoc.
Qed.

(** What a successful [segment:add] does, read off the handler. *)
Lemma on_segment_add_success σ socket sid content uuid now session :
  Validation.valid (Validation.validateSegment content) = true ->
  storyManager σ !! sid = Some session ->
  let segment :=
    {| Segment.id := uuid;
       Segment.content := Validation.sanitizeInput content;
       Segment.contributorId := participantIdOf σ socket;
       Segment.contributorType := user;
       Segment.timestamp := now;
       Segment.moodTags := [] |} in
  let r := on_segment_add σ socket sid content uuid now in
  server r
  = with_manager σ (addSegment (storyManager σ) sid segment now)
  /\ effects r
     = [Appended sid segment;
        Delivered (members σ sid) (segment_added segment);
        Delivered {[socket]} (segment_added segment);
        Delivered {[socket]} (segment_acknowledged uuid)]
  /\ getSegments (storyManager (server r)) sid
     = sortByTimestamp (Session.segments session ++ [segment])
  /\ awaiting r
     = let n := length (userSegments
                          (getSegments (storyManager (server r)) sid)) in
       if ((0 <? n) && (n mod 3 =? 0))%nat
       then Some {| aw_sessionId := sid;
                    aw_context := getSegments (storyManager (server r)) sid |}
       else None.
Proof.
  intros Hvalid Hsession segment r.
  destruct (validateSegment_valid_sanitized content Hvalid) as [Hsan Hne].
  assert (Hseg : orElse (default "" (Validation.sanitized
                                      (Validation.validateSegment content)))
                   content = Validation.sanitizeInput content).
  { rewrite Hsan. simpl. unfold orElse. by rewrite bool_decide_eq_false_2. }
  subst r. unfold on_segment_add. rewrite Hvalid.
  cbv beta iota delta [negb]. unfold getSession. rewrite Hsession.
  rewrite Hseg. fold segment.
  destruct (addSegment_lookup (storyManager σ) sid session segment now
              Hsession) as (s' & Hl & Hs' & _).
  cbn [server effects awaiting storyManager with_manager].
  unfold getSegments. rewrite Hl, Hs'. done.
Qed.

Lemma on_segment_add_invalid σ socket sid content uuid now :
  Validation.valid (Validation.validateSegment content) = false ->
  exists message,
    on_segment_add σ socket sid content uuid now
    = {| server := σ;
         effects := [Delivered {[socket]}
                       (error message "CONTENT_VALIDATION_ERROR" None)];
         awaiting := None |}.
Proof.
  intros Hinvalid. unfold on_segment_add. rewrite Hinvalid.
  cbv beta iota delta [negb]. by eexists.
Qed.

Lemma on_segment_add_missing σ socket sid content uuid now :
  Validation.valid (Validation.validateSegment content) = true ->
  storyManager σ !! sid = None ->
  on_segment_add σ socket sid content uuid now
  = {| server := σ;
       effects := [Delivered {[socket]}
                     (error "Session not found" "SESSION_NOT_FOUND" None)];
       awaiting := None |}.
Proof.
  intros Hvalid Hmissing. unfold on_segment_add. rewrite Hvalid.
  cbv beta iota delta [negb]. unfold getSession. by rewrite Hmissing.
Qed.

(** The three shapes of a [segment:add] step. *)
Lemma on_segment_add_cases σ socket sid content uuid now :
  let r := on_segment_add σ socket sid content uuid now in
  (server r = σ /\ exists message code,
      effects r = [Delivered {[socket]} (error message code None)])
  \/ (exists session segment,
        storyManager σ !! sid = Some session
        /\ server r
           = with_manager σ (addSegment (storyManager σ) sid segment now)
        /\ effects r
           = [Appended sid segment;
              Delivered (members σ sid) (segment_added segment);
              Delivered {[socket]} (segment_added segment);
              Delivered {[socket]} (segment_acknowledged uuid)]).
Proof.
  intros r. subst r.
  destruct (Validation.valid (Validation.validateSegment content)) eqn:Hv.
  - destruct (storyManager σ !! sid) as [session|] eqn:Hs.
    + right. destruct (on_segment_add_success σ socket sid content uuid now
                         session Hv Hs) as (H1 & H2 & _). eauto.
    + left. rewrite (on_segment_add_missing _ _ _ _ _ _ Hv Hs). eauto.
  - left. destruct (on_segment_add_invalid σ socket sid content uuid now Hv)
      as [message ->]. eauto.
Qed.

Lemma step_members_mono σ i room c :
  c ∈ members σ room -> c ∈ members (fst (step σ i)) room.
Proof.
  intros Hc. case_input i.
  - rewrite members_set_socket_data. by apply members_socket_join_mono.
  - unfold on_session_join. destruct (getSession _ _); simpl; [|done].
    rewrite members_set_socket_data. by apply members_socket_join_mono.
  - unfold on_session_reconnect. destruct (getSession _ _); simpl; [|done].
    rewrite members_set_socket_data. by apply members_socket_join_mono.
  - destruct (on_segment_add_cases σ socket sid' content uuid now)
      as [[-> _]|(session & segment & _ & -> & _)]; done.
  - unfold resume_segment_add. by destruct result.
Qed.

Lemma run_members_mono σ inputs room c :
  c ∈ members σ room -> c ∈ members (fst (run σ inputs)) room.
Proof.
  revert σ. induction inputs as [|i inputs IH]; intros σ Hc; [done|].
  rewrite run_cons. simpl. apply IH. by apply step_members_mono.
Qed.

(** Every step puts each segment it appends on the wire for the whole room
    at once: who is in the room sees what the step appended, in order. *)
Lemma step_appended_observed σ i sid c :
  c ∈ members σ sid ->
  appendedTo sid (snd (step σ i))
  `sublist_of` addedSegments (observed c (snd (step σ i))).
Proof.
  intros Hc. case_input i.
  - apply sublist_nil_l.
  - unfold on_session_join. destruct (getSession _ _); apply sublist_nil_l.
  - unfold on_session_reconnect.
    destruct (getSession _ _); apply sublist_nil_l.
  - destruct (on_segment_add_cases σ socket sid' content uuid now)
      as [[_ (message & code & ->)]|(session & segment & _ & _ & ->)].
    + apply sublist_nil_l.
    + simpl. destruct (decide (sid' = sid)) as [->|Hne].
      * rewrite (bool_decide_eq_true_2 (sid = sid)) by done.
        rewrite (bool_decide_eq_true_2 (c ∈ members σ sid)) by done.
        simpl. apply sublist_skip, sublist_nil_l.
      * rewrite (bool_decide_eq_false_2 (sid' = sid)) by done.
        apply sublist_nil_l.
  - unfold resume_segment_add. destruct result as [h|details]; simpl.
    + unfold getSession. destruct (storyManager σ !! aw_sessionId a); simpl.
      * destruct (decide (aw_sessionId a = sid)) as [->|Hne].
        -- rewrite (bool_decide_eq_true_2 (sid = sid)) by done.
           rewrite members_with_manager.
           rewrite (bool_decide_eq_true_2 (c ∈ members σ sid)) by done.
           simpl. apply sublist_skip, sublist_nil_l.
        -- rewrite (bool_decide_eq_false_2 (aw_sessionId a = sid)) by done.
           apply sublist_nil_l.
      * apply sublist_nil_l.
    + apply sublist_nil_l.
Qed.

Lemma run_appended_observed σ inputs sid c :
  c ∈ members σ sid ->
  appendedTo sid (snd (run σ inputs))
  `sublist_of` addedSegments (observed c (snd (run σ inputs))).
Proof.
  revert σ. induction inputs as [|i inputs IH]; intros σ Hc; [done|].
  rewrite run_cons. cbn [snd].
  rewrite appendedTo_app, observed_app, addedSegments_app.
  apply sublist_app; [by apply step_appended_observed|].
  apply IH. by apply step_members_mono.
Qed.

Lemma step_chronological σ i :
  chronological (storyManager σ) ->
  chronological (storyManager (fst (step σ i))).
Proof.
  intros Hc. case_input i.
  - apply addParticipant_chronological.
    by apply (createSession_chronological _ title prompt uuid now).
  - unfold on_session_join. destruct (getSession _ _); simpl; [|done].
    by apply addParticipant_chronological.
  - unfold on_session_reconnect. by destruct (getSession _ _).
  - destruct (on_segment_add_cases σ socket sid' content uuid now)
      as [[-> _]|(session & segment & _ & -> & _)]; [done|].
    by apply addSegment_chronological.
  - unfold resume_segment_add. destruct result; simpl; [|done].
    by apply addSegment_chronological.
Qed.

Lemma run_chronological σ inputs :
  chronological (storyManager σ) ->
  chronological (storyManager (fst (run σ inputs))).
Proof.
  revert σ. induction inputs as [|i inputs IH]; intros σ Hc; [done|].
  rewrite run_cons. simpl. apply IH. by apply step_chronological.
Qed.

Lemma initial_chronological : chronological (storyManager initial).
Proof. intros sid s Hs. simpl in Hs. by rewrite lookup_empty in Hs. Qed.

End GatewayFacts.

Section GatewayClaims.
Import StoryManager Gateway.

(** C1, as the code has it.  A successful [segment:add] appends one segment
    and sends [segment:added] for it to the whole room and then once more to
    the sender, followed by the acknowledgement: every joined connection other
    than the sender receives the event exactly once, a joined sender receives
    it twice.  Along any run of the event loop, a connection that is in the
    room sees the segments appended to the session in the order they were
    appended (as a subsequence of its [segment:added] events).  In the
    two-client scenario the creator observes [session:created],
    [participant:joined], [segment:added] for "A" twice,
    [segment:acknowledged], and [segment:added] for "B". *)
Theorem broadcast_completeness :
  (forall σ socket sid content uuid now session,
      Validation.valid (Validation.validateSegment content) = true ->
      storyManager σ !! sid = Some session ->
      let r := on_segment_add σ socket sid content uuid now in
      exists segment,
        effects r
        = [Appended sid segment;
           Delivered (members σ sid) (segment_added segment);
           Delivered {[socket]} (segment_added segment);
           Delivered {[socket]} (segment_acknowledged (Segment.id segment))]
        /\ Segment.content segment = Validation.sanitizeInput content
        /\ Segment.contributorType segment = user
        /\ getSegments (storyManager (server r)) sid
           = sortByTimestamp (Session.segments session ++ [segment])
        /\ forall c, c ∈ members σ sid ->
             addedSegments (observed c (effects r))
             = if decide (c = socket) then [segment; segment] else [segment])
  /\ (forall σ inputs sid c,
        c ∈ members σ sid ->
        appendedTo sid (snd (run σ inputs))
        `sublist_of` addedSegments (observed c (snd (run σ inputs))))
  /\ observed "socket-1" (snd (run initial twoClientScenario))
     = [session_created
          {| Session.id := "session-1"; Session.title := "Test";
             Session.startingPrompt := None;
             Session.participants := [ann]; Session.segments := [];
             Session.createdAt := 1000; Session.lastActivityAt := 1000 |};
        participant_joined bob;
        segment_added segmentA;
        segment_added segmentA;
        segment_acknowledged "segment-a";
        segment_added segmentB].
Proof.
  split; [|split].
  - intros σ socket sid content uuid now session Hvalid Hsession r.
    destruct (on_segment_add_success σ socket sid content uuid now session
                Hvalid Hsession) as (_ & Heffects & Hlog & _).
    eexists. split; [exact Heffects|]. split; [reflexivity|].
    split; [reflexivity|]. split; [exact Hlog|].
    intros c Hc. subst r. rewrite Heffects. simpl.
    rewrite (bool_decide_eq_true_2 (c ∈ members σ sid)) by done.
    destruct (decide (c = socket)) as [->|Hne].
    + rewrite !(bool_decide_eq_true_2 (socket ∈ ({[socket]} : gset string)))
        by set_solver. reflexivity.
    + rewrite !(bool_decide_eq_false_2 (c ∈ ({[socket]} : gset string)))
        by set_solver. reflexivity.
  - intros σ inputs sid c Hc. by apply run_appended_observed.
  - vm_compute. reflexivity.
Qed.

(** C3.  Full-context join: on [session:join] for a session that exists and
    holds M segments, the joining connection alone is sent [session:updated]
    whose payload carries the whole current segment list, all M of them, in
    chronological order. *)
Theorem full_context_join inputs socket sid userName now session :
  storyManager (fst (run initial inputs)) !! sid = Some session ->
  let σ := fst (run initial inputs) in
  let sent := snd (on_session_join σ socket sid userName now) in
  exists payload participant others,
    sent = [Delivered {[socket]} (session_updated payload);
            Delivered others (participant_joined participant)]
    /\ (socket ∉ others)
    /\ Session.segments payload = Session.segments session
    /\ length (Session.segments payload) = length (Session.segments session)
    /\ Sorted before (Session.segments payload).
Proof.
  intros Hsession σ sent. subst sent. unfold on_session_join.
  fold σ in Hsession. unfold getSession. rewrite Hsession.
  set (participant := {| Participant.id := socket;
                         Participant.name := orElse userName "Anonymous";
                         Participant.joinedAt := now |}).
  pose proof (addParticipant_segments (storyManager σ) sid sid participant
                now) as Hsegs.
  rewrite Hsession in Hsegs. simpl in Hsegs.
  destruct (addParticipant (storyManager σ) sid participant now !! sid)
    as [payload|] eqn:Hpayload; [|discriminate].
  apply (inj Some) in Hsegs. cbn [snd default].
  exists payload, participant. eexists.
  split; [reflexivity|].
  split; [rewrite elem_of_difference, elem_of_singleton; tauto|].
  split; [exact Hsegs|].
  split; [by rewrite Hsegs|]. rewrite Hsegs.
  apply (run_chronological initial inputs initial_chronological sid).
  exact Hsession.
Qed.

Lemma length_userSegments_insert x l :
  length (userSegments (insertSegment x l))
  = length (userSegments (x :: l)).
Proof.
  induction l as [|y l IH]; [reflexivity|]. simpl insertSegment.
  destruct (Segment.timestamp x <=? Segment.timestamp y); [reflexivity|].
  unfold userSegments in *. simpl in *.
  repeat case_bool_decide; simpl in *; lia.
Qed.

Lemma length_userSegments_sort l :
  length (userSegments (foldr insertSegment [] l))
  = length (userSegments l).
Proof.
  induction l as [|x l IH]; [reflexivity|]. simpl foldr.
  rewrite length_userSegments_insert. unfold userSegments in *. simpl.
  case_bool_decide; simpl; lia.
Qed.

(** The filter of the handler keeps the segments the specification counts:
    those typed by a user, none of the co-author. *)
Lemma length_userSegments l : length (userSegments l) = userTypedCount l.
Proof.
  induction l as [|x l IH]; [reflexivity|]. unfold userSegments in *.
  cbn [List.filter userTypedCount].
  destruct (Segment.contributorType x); case_bool_decide; try done.
  simpl. by rewrite IH.
Qed.

(** C4.  After a user segment has been appended, the text generator is called
    exactly when the number of user-typed segments now in the log, counted
    by [userTypedCount] which passes over the segments of the co-author, is
    a positive multiple of 3; that number is one more than it was before the
    append.  When the generator answers, an [ai]-typed segment is appended
    and [segment:added] for it goes to the whole room; when it fails,
    [error] with code AI_GENERATION_ERROR goes to the whole room and the
    manager is left as it was, the triggering user segment still in its
    log. *)
Theorem ai_trigger σ socket sid content uuid now session :
  Validation.valid (Validation.validateSegment content) = true ->
  storyManager σ !! sid = Some session ->
  let r := on_segment_add σ socket sid content uuid now in
  let log := getSegments (storyManager (server r)) sid in
  let n := userTypedCount log in
  n = S (userTypedCount (Session.segments session))
  /\ (is_Some (awaiting r) <-> (0 < n)%nat /\ (n mod 3)%nat = 0%nat)
  /\ (forall a, awaiting r = Some a ->
        aw_sessionId a = sid /\ aw_context a = log)
  /\ (exists segment,
        In segment log
        /\ Segment.id segment = uuid
        /\ Segment.contributorType segment = user
        /\ Segment.content segment = Validation.sanitizeInput content)
  /\ (forall a σ2 session2 h uuid2 now2,
        awaiting r = Some a ->
        storyManager σ2 !! sid = Some session2 ->
        let aiSegment :=
          {| Segment.id := uuid2;
             Segment.content := he_content h;
             Segment.contributorId := "ai-coauthor";
             Segment.contributorType := ai;
             Segment.timestamp := now2;
             Segment.moodTags := he_tags h |} in
        let resumed := resume_segment_add σ2 a (generated h) uuid2 now2 in
        snd resumed
        = [Appended sid aiSegment;
           Delivered (members σ2 sid) (segment_added aiSegment)]
        /\ getSegments (storyManager (fst resumed)) sid
           = sortByTimestamp (Session.segments session2 ++ [aiSegment]))
  /\ (forall a σ2 details uuid2 now2,
        awaiting r = Some a ->
        resume_segment_add σ2 a (failed details) uuid2 now2
        = (σ2, [Delivered (members σ2 sid)
                  (error "AI co-author failed to generate content"
                         "AI_GENERATION_ERROR" (Some details))])).
Proof.
  intros Hvalid Hsession r log n.
  destruct (on_segment_add_success σ socket sid content uuid now session
              Hvalid Hsession) as (Hserver & Heffects & Hlog & Hawait).
  cbv zeta in Hawait.
  fold r in Hserver, Heffects, Hlog, Hawait. fold log in Hlog, Hawait.
  rewrite length_userSegments in Hawait. fold n in Hawait.
  assert (Hn : n = S (userTypedCount (Session.segments session))).
  { subst n. rewrite <- !length_userSegments, Hlog. unfold sortByTimestamp.
    rewrite length_userSegments_sort. unfold userSegments.
    rewrite List.filter_app, length_app. simpl. lia. }
  assert (Hid : forall a, awaiting r = Some a ->
                          aw_sessionId a = sid /\ aw_context a = log).
  { intros a Ha. rewrite Hawait in Ha.
    destruct ((0 <? n)%nat && (n mod 3 =? 0)%nat); [|discriminate].
    by injection Ha as <-. }
  split; [exact Hn|]. split.
  { rewrite Hawait, <- Nat.ltb_lt, <- Nat.eqb_eq.
    destruct (0 <? n)%nat; destruct (n mod 3 =? 0)%nat; cbn [andb];
      split; try (intros [? ?]; discriminate); try (intros [? ?]; done);
      try done; by eexists. }
  split; [exact Hid|]. split.
  { exists {| Segment.id := uuid;
               Segment.content := Validation.sanitizeInput content;
               Segment.contributorId := participantIdOf σ socket;
               Segment.contributorType := user;
               Segment.timestamp := now;
               Segment.moodTags := [] |}.
    split; [|done]. rewrite Hlog.
    eapply Permutation_in; [symmetry; apply sortByTimestamp_Permutation|].
    apply in_or_app. right. by left. }
  split.
  - intros a σ2 session2 h uuid2 now2 Ha Hs2 aiSegment resumed.
    destruct (Hid a Ha) as [Hsid _]. subst resumed.
    unfold resume_segment_add. rewrite Hsid. unfold getSession.
    rewrite Hs2. cbn [fst snd app]. split; [reflexivity|].
    destruct (addSegment_lookup (storyManager σ2) sid session2 aiSegment
                now2 Hs2) as (s' & Hl & Hs' & _).
    unfold getSegments. cbn [storyManager with_manager].
    fold aiSegment. by rewrite Hl, Hs'.
  - intros a σ2 details uuid2 now2 Ha. destruct (Hid a Ha) as [Hsid _].
    unfold resume_segment_add. by rewrite Hsid.
Qed.

(** What the handler does with content its validator refuses.  A
    [segment:add] whose content is empty or blank, whose sanitized text has
    a trimmed length outside 1..500, or whose sanitized text holds a word of
    the profanity list, is answered with one [error] of code
    CONTENT_VALIDATION_ERROR sent to the requesting connection and to nobody
    else; the server state, and with it every segment list, stays as it
    was. *)
Lemma invalid_content_rejected σ socket sid content uuid now :
  Validation.hasContent content = false
  \/ Validation.isValidLength (Validation.sanitizeInput content) = false
  \/ Validation.containsProfanity (Validation.sanitizeInput content) = true ->
  let r := on_segment_add σ socket sid content uuid now in
  server r = σ
  /\ awaiting r = None
  /\ getSegments (storyManager (server r)) sid
     = getSegments (storyManager σ) sid
  /\ appendedTo sid (effects r) = []
  /\ (exists message,
        effects r = [Delivered {[socket]}
                       (error message "CONTENT_VALIDATION_ERROR" None)])
  /\ (forall c, c <> socket -> observed c (effects r) = []).
Proof.
  intros Hbad r. apply validateSegment_invalid_iff in Hbad.
  destruct (on_segment_add_invalid σ socket sid content uuid now Hbad)
    as [message Hr]. subst r. rewrite Hr. cbn [server effects awaiting].
  split; [reflexivity|]. split; [reflexivity|]. split; [reflexivity|].
  split; [reflexivity|]. split; [by eexists|].
  intros c Hc. simpl.
  by rewrite (bool_decide_eq_false_2 (c ∈ ({[socket]} : gset string)))
    by set_solver.
Qed.

End GatewayClaims.

(** ** The offline queue *)

Section RetryFacts.
Import OfflineQueue.
Variable toJSON : Z -> string.
Variable setItemThrows
  : option (list OfflineQueue.StoredSegment)
    -> list OfflineQueue.StoredSegment -> bool.

Lemma incrementRetry_found (q : t) sid ts i item :
  list_find (sameEntry sid ts) (queue q) = Some (i, item) ->
  incrementRetry toJSON setItemThrows q sid ts
  = let q1 := {| queue := <[i := bump item]> (queue q);
                 localStorage := localStorage q |} in
    if (maxRetries <=? S (retryCount item))%nat
    then (false, dequeue toJSON setItemThrows q1 sid ts)
    else (true, saveToStorage toJSON setItemThrows q1).
Proof. intros Hfind. unfold incrementRetry. by rewrite Hfind. Qed.

Lemma find_after_bump (l : list QueuedSegment) sid ts i item :
  list_find (sameEntry sid ts) l = Some (i, item) ->
  list_find (sameEntry sid ts) (<[i := bump item]> l)
  = Some (i, bump item).
Proof.
  rewrite !list_find_Some. intros (Hi & [Hsid Hts] & Hfirst).
  assert (i < length l)%nat by (by eapply lookup_lt_Some).
  split; [by apply list_lookup_insert_eq|]. split; [done|].
  intros j y Hj Hlt. rewrite list_lookup_insert_ne in Hj by lia.
  by apply (Hfirst j).
Qed.

Lemma queue_saveToStorage (q : t) :
  queue (saveToStorage toJSON setItemThrows q) = queue q.
Proof.
  unfold saveToStorage. cbv zeta. by destruct (setItemThrows _ _).
Qed.

(** What [saveToStorage] leaves in the storage item. *)
Lemma localStorage_saveToStorage (q : t) :
  localStorage (saveToStorage toJSON setItemThrows q)
  = if setItemThrows (localStorage q) (map (stringify toJSON) (queue q))
    then localStorage q
    else Some (map (stringify toJSON) (queue q)).
Proof.
  unfold saveToStorage. cbv zeta. by destruct (setItemThrows _ _).
Qed.

Lemma queue_dequeue (q : t) sid ts :
  queue (dequeue toJSON setItemThrows q sid ts)
  = List.filter (fun item => negb (bool_decide (sameEntry sid ts item)))
                (queue q).
Proof. unfold dequeue. by rewrite queue_saveToStorage. Qed.

Lemma queue_enqueue (q : t) sid text now :
  queue (enqueue toJSON setItemThrows q sid text now)
  = queue q ++ [{| sessionId := sid; content := text; timestamp := now;
                   retryCount := 0 |}].
Proof. unfold enqueue. by rewrite queue_saveToStorage. Qed.

Lemma queue_clearSession (q : t) sid :
  queue (clearSession toJSON setItemThrows q sid)
  = List.filter (fun item => negb (bool_decide (sessionId item = sid)))
                (queue q).
Proof. unfold clearSession. by rewrite queue_saveToStorage. Qed.

Lemma queue_clearAll (q : t) :
  queue (clearAll toJSON setItemThrows q) = [].
Proof. unfold clearAll. by rewrite queue_saveToStorage. Qed.

Lemma dequeue_removes (q : t) sid ts x :
  x ∈ queue (dequeue toJSON setItemThrows q sid ts) -> ~ sameEntry sid ts x.
Proof.
  rewrite queue_dequeue, list_elem_of_In, List.filter_In, negb_true_iff.
  rewrite bool_decide_eq_false. tauto.
Qed.

(** C8, as the code has it.  [incrementRetry] acts on the first queued entry
    that carries the pair (sessionId, timestamp).  It raises that entry's
    count by one; when the new count reaches [maxRetries] it removes every
    entry with the pair and returns false, otherwise it returns true; either
    way it saves the queue, and the storage item holds the new queue unless
    [setItem] threw, in which case it is as before.  So when the first entry
    with the pair has count 0, three calls return true, true and false, and
    afterwards no entry with that pair is left in the queue. *)
Theorem retry_exhaustion (q : t) sid ts i item :
  list_find (sameEntry sid ts) (queue q) = Some (i, item) ->
  let first := incrementRetry toJSON setItemThrows q sid ts in
  let second := incrementRetry toJSON setItemThrows (snd first) sid ts in
  let third := incrementRetry toJSON setItemThrows (snd second) sid ts in
  let saved :=
    localStorage (snd first)
    = if setItemThrows (localStorage q)
           (map (stringify toJSON) (queue (snd first)))
      then localStorage q
      else Some (map (stringify toJSON) (queue (snd first))) in
  ((maxRetries <= S (retryCount item))%nat ->
     fst first = false
     /\ (forall x, x ∈ queue (snd first) -> ~ sameEntry sid ts x)
     /\ saved)
  /\ ((S (retryCount item) < maxRetries)%nat ->
        fst first = true
        /\ queue (snd first) = <[i := bump item]> (queue q)
        /\ saved)
  /\ (retryCount item = 0%nat ->
        maxRetries = 3%nat
        /\ fst first = true /\ fst second = true /\ fst third = false
        /\ (forall x, x ∈ queue (snd third) -> ~ sameEntry sid ts x)).
Proof.
  intros Hfind first second third saved.
  pose proof (incrementRetry_found q sid ts i item Hfind) as Hfirst.
  fold first in Hfirst. cbv zeta in Hfirst.
  split; [|split].
  - intros Hmax. apply Nat.leb_le in Hmax. rewrite Hmax in Hfirst.
    subst saved. rewrite Hfirst. cbn [fst snd].
    split; [reflexivity|]. split; [intros x; apply dequeue_removes|].
    unfold dequeue. rewrite localStorage_saveToStorage.
    by rewrite queue_saveToStorage.
  - intros Hless. apply Nat.leb_gt in Hless. rewrite Hless in Hfirst.
    subst saved. rewrite Hfirst. cbn [fst snd].
    split; [reflexivity|]. rewrite queue_saveToStorage.
    split; [reflexivity|]. by rewrite localStorage_saveToStorage.
  - intros Hzero. split; [reflexivity|].
    rewrite Hzero in Hfirst. cbn [maxRetries Nat.leb] in Hfirst.
    pose proof (find_after_bump _ _ _ _ _ Hfind) as Hfind1.
    assert (Hq1 : queue (snd first) = <[i := bump item]> (queue q)).
    { rewrite Hfirst. cbn [snd]. by rewrite queue_saveToStorage. }
    rewrite <- Hq1 in Hfind1.
    pose proof (incrementRetry_found _ sid ts i _ Hfind1) as Hsecond.
    fold second in Hsecond. cbv zeta in Hsecond.
    assert (Hc1 : retryCount (bump item) = 1%nat)
      by (simpl; by rewrite Hzero).
    rewrite Hc1 in Hsecond. cbn [maxRetries Nat.leb] in Hsecond.
    pose proof (find_after_bump _ _ _ _ _ Hfind1) as Hfind2.
    assert (Hq2 : queue (snd second)
                  = <[i := bump (bump item)]> (queue (snd first))).
    { rewrite Hsecond. cbn [snd]. by rewrite queue_saveToStorage. }
    rewrite <- Hq2 in Hfind2.
    pose proof (incrementRetry_found _ sid ts i _ Hfind2) as Hthird.
    fold third in Hthird. cbv zeta in Hthird.
    assert (Hc2 : retryCount (bump (bump item)) = 2%nat)
      by (simpl; by rewrite Hzero).
    rewrite Hc2 in Hthird. cbn [maxRetries Nat.leb] in Hthird.
    rewrite Hfirst, Hsecond, Hthird. repeat (split; [reflexivity|]).
    intros x. apply dequeue_removes.
Qed.

(** C10.  When no queued entry matches the pair, [incrementRetry] returns
    false and leaves the queue and the storage item exactly as they were;
    false is also what it returns when the entry it finds has just used up
    its retries, so the result alone does not tell the two apart. *)
Theorem increment_retry_unknown_entry (q : t) sid ts :
  (forall x, x ∈ queue q -> ~ sameEntry sid ts x) ->
  incrementRetry toJSON setItemThrows q sid ts = (false, q)
  /\ forall (q' : t) i item,
       list_find (sameEntry sid ts) (queue q') = Some (i, item) ->
       S (retryCount item) = maxRetries ->
       fst (incrementRetry toJSON setItemThrows q' sid ts)
       = fst (incrementRetry toJSON setItemThrows q sid ts).
Proof.
  intros Hnone.
  assert (Hfind : list_find (sameEntry sid ts) (queue q) = None).
  { apply list_find_None, Forall_forall. exact Hnone. }
  assert (Hq : incrementRetry toJSON setItemThrows q sid ts = (false, q)).
  { unfold incrementRetry. by rewrite Hfind. }
  split; [exact Hq|]. intros q' i item Hfind' Hlast.
  rewrite Hq, (incrementRetry_found q' sid ts i item Hfind').
  cbv zeta. rewrite Hlast. reflexivity.
Qed.

End RetryFacts.

Section DurabilityFacts.
Import OfflineQueue.
Variable toJSON : Z -> string.
Variable parseDate : string -> Z.
Variable setItemThrows
  : option (list OfflineQueue.StoredSegment)
    -> list OfflineQueue.StoredSegment -> bool.
Lemma revive_stringify item :
  (forall instant, parseDate (toJSON instant) = instant) ->
  revive parseDate (stringify toJSON item) = item.
Proof.
  intros Hdate. destruct item. unfold revive, stringify. simpl.
  by rewrite Hdate.
Qed.

Lemma construct_synced (q : t) :
  (forall instant, parseDate (toJSON instant) = instant) ->
  synced toJSON q -> queue (construct parseDate (localStorage q)) = queue q.
Proof.
  intros Hdate [Hsaved|[Hnone Hempty]]; unfold construct, loadFromStorage;
    simpl.
  - rewrite Hsaved. simpl. rewrite map_map.
    rewrite <- (map_id (queue q)) at 2. apply map_ext. intros item.
    by apply revive_stringify.
  - by rewrite Hnone, Hempty.
Qed.

Lemma saveToStorage_synced (q : t) :
  (forall item value, setItemThrows item value = false) ->
  synced toJSON (saveToStorage toJSON setItemThrows q).
Proof.
  intros Hwrites. left. unfold saveToStorage. cbv zeta.
  by rewrite Hwrites.
Qed.

Lemma call_synced (q : t) c :
  (forall item value, setItemThrows item value = false) ->
  synced toJSON q -> synced toJSON (call toJSON setItemThrows q c).
Proof.
  intros Hwrites Hq. destruct c as [sid text now|sid ts|sid ts|sid|]; simpl;
    try (by apply saveToStorage_synced).
  unfold incrementRetry.
  destruct (list_find (sameEntry sid ts) (queue q)) as [[i item]|]; [|done].
  destruct (maxRetries <=? _)%nat; by apply saveToStorage_synced.
Qed.

Lemma calls_synced (q : t) cs :
  (forall item value, setItemThrows item value = false) ->
  synced toJSON q -> synced toJSON (calls toJSON setItemThrows q cs).
Proof.
  intros Hwrites. revert q.
  induction cs as [|c cs IH]; intros q Hq; [done|].
  simpl. apply IH. by apply call_synced.
Qed.

(** C9, as the code has it.  Durability, as long as storage takes every
    write: whatever calls have been made on a queue whose storage item
    mirrored it, if no [setItem] threw, a new instance constructed over the
    same storage holds the same entries in the same order, each with its
    [sessionId], [content], [retryCount] and the same instant as
    [timestamp], hence the same size.  The platform's [Date] text is taken
    to read back as the instant it was written for. *)
Theorem offline_round_trip (q0 : t) (cs : list Call) :
  (forall instant, parseDate (toJSON instant) = instant) ->
  (forall item value, setItemThrows item value = false) ->
  synced toJSON q0 ->
  let q := calls toJSON setItemThrows q0 cs in
  let reloaded := construct parseDate (localStorage q) in
  queue reloaded = queue q
  /\ size reloaded = size q
  /\ getAllQueued reloaded = getAllQueued q
  /\ localStorage reloaded = localStorage q.
Proof.
  intros Hdate Hwrites Hq0 q reloaded.
  assert (Hq : synced toJSON q) by (by apply calls_synced).
  assert (Heq : queue reloaded = queue q) by (by apply construct_synced).
  split; [exact Heq|]. split; [unfold size; by rewrite Heq|].
  split; [exact Heq|]. subst reloaded. unfold construct, loadFromStorage.
  simpl. by destruct (localStorage q).
Qed.

End DurabilityFacts.

Lemma decimal_round_trip instant :
  OfflineQueue.readDecimal (OfflineQueue.decimalText instant) = instant.
Proof.
  unfold OfflineQueue.readDecimal, OfflineQueue.decimalText.
  rewrite NilEmpty.isi. apply DecimalZ.of_to.
Qed.

(** ** The reconnection manager *)

Section BackoffFacts.
Import ReconnectionManager.

Lemma cappedDelay_bounds a : 0 < cappedDelay a <= maxDelay.
Proof.
  unfold cappedDelay, baseDelay, maxDelay.
  assert (0 < 2 ^ Z.of_nat a) by (apply Z.pow_pos_nonneg; lia). lia.
Qed.

Lemma cappedDelay_mono a : cappedDelay a <= cappedDelay (S a).
Proof.
  unfold cappedDelay, baseDelay, maxDelay.
  rewrite Nat2Z.inj_succ, Z.pow_succ_r by lia.
  assert (0 < 2 ^ Z.of_nat a) by (apply Z.pow_pos_nonneg; lia). lia.
Qed.

Lemma cappedDelay_at_cap a : (5 <= a)%nat -> cappedDelay a = maxDelay.
Proof.
  intros Ha. unfold cappedDelay, baseDelay, maxDelay.
  assert (2 ^ 5 <= 2 ^ Z.of_nat a) by (apply Z.pow_le_mono_r; lia). lia.
Qed.

(** C7, as the code has it.  The un-jittered component
    [min(baseDelay * 2^attempt, maxDelay)] never exceeds [maxDelay] and never
    decreases from one call to the next; the delay returned is that component
    moved by at most a quarter of itself either way, so it lies between
    three quarters and five quarters of it and never exceeds
    1.25 * maxDelay = 37500 ms; each call adds one to [attempt]. *)
Theorem backoff_bounds (rm : t) (random : Q) :
  (0 <= random)%Q -> (random < 1)%Q ->
  let capped := cappedDelay (attempt rm) in
  let delay := fst (getNextDelay rm random) in
  let rm' := snd (getNextDelay rm random) in
  capped <= maxDelay
  /\ capped <= cappedDelay (attempt rm')
  /\ attempt rm' = S (attempt rm)
  /\ ((3 # 4) * inject_Z capped <= delay)%Q
  /\ (delay <= (5 # 4) * inject_Z capped)%Q
  /\ (delay <= 37500)%Q.
Proof.
  intros Hlo Hhi capped delay rm'.
  pose proof (cappedDelay_bounds (attempt rm)) as [Hpos Hcap].
  fold capped in Hpos, Hcap.
  assert (Hq0 : (0 < inject_Z capped)%Q).
  { change 0%Q with (inject_Z 0). rewrite <- Zlt_Qlt. exact Hpos. }
  assert (Hq1 : (inject_Z capped <= 30000)%Q).
  { change 30000%Q with (inject_Z maxDelay). rewrite <- Zle_Qle. exact Hcap. }
  set (c := inject_Z capped) in *.
  assert (Hx : delay = Qmax 0 (c + c * (1 # 4) * (random * 2 - 1))%Q)
    by reflexivity.
  assert (Hup : (c + c * (1 # 4) * (random * 2 - 1) <= (5 # 4) * c)%Q) by nra.
  assert (Hdown : ((3 # 4) * c <= c + c * (1 # 4) * (random * 2 - 1))%Q)
    by nra.
  split; [exact Hcap|]. split; [apply cappedDelay_mono|].
  split; [reflexivity|]. rewrite Hx. split; [|split].
  - eapply Qle_trans; [exact Hdown|]. apply Q.le_max_r.
  - apply Q.max_lub; [nra|exact Hup].
  - apply Q.max_lub; [done|]. eapply Qle_trans; [exact Hup|]. nra.
Qed.

End BackoffFacts.

Lemma backoff_bounds_witness :
  (0 <= 3 # 4)%Q /\ (3 # 4 < 1)%Q
  /\ (fst (ReconnectionManager.getNextDelay
             {| ReconnectionManager.attempt := 5 |} (3 # 4)) <= 37500)%Q.
Proof.
  assert (H0 : (0 <= 3 # 4)%Q) by (vm_compute; discriminate).
  assert (H1 : (3 # 4 < 1)%Q) by (vm_compute; reflexivity).
  split; [exact H0|]. split; [exact H1|].
  apply (backoff_bounds {| ReconnectionManager.attempt := 5 |} (3 # 4) H0 H1).
Defined.

(** C7 as stated fails: five calls bring the un-jittered component to the
    cap, and the sixth call, with a random draw of 0.75, returns 33750 ms,
    above [maxDelay]. *)
Lemma jittered_delay_exceeds_maxDelay :
  exists delay,
    ReconnectionManager.delays ReconnectionManager.initial
      [1 # 2; 1 # 2; 1 # 2; 1 # 2; 1 # 2; 3 # 4]%Q !! 5%nat = Some delay
    /\ (delay == 33750)%Q
    /\ (inject_Z ReconnectionManager.maxDelay < delay)%Q.
Proof.
  eexists. split; [vm_compute; reflexivity|]. split; vm_compute; reflexivity.
Qed.

(** ** The properties at concrete inputs *)

Lemma scenario_state :
  Gateway.storyManager (fst (Gateway.run Gateway.initial
                               Gateway.twoClientScenario))
    !! "session-1"
  = Some Gateway.sessionAfterScenario.
Proof. vm_compute. reflexivity. Qed.

Lemma scenario_room :
  "socket-2" ∈ Gateway.members
                 (fst (Gateway.run Gateway.initial Gateway.twoClientScenario))
                 "session-1".
Proof. refine (bool_decide_unpack _ _). vm_compute. exact I. Qed.

Lemma valid_next_line :
  Validation.valid (Validation.validateSegment "The candle went out.") = true.
Proof. vm_compute. reflexivity. Qed.

(** C1 as stated fails: in the two-client scenario the log receives "A" then
    "B", but the creator, who sent "A", is handed [segment:added] for "A"
    twice, so what it observes is not the appended sequence. *)
Lemma creator_receives_own_segment_twice :
  let sent := snd (Gateway.run Gateway.initial Gateway.twoClientScenario) in
  Gateway.appendedTo "session-1" sent = [Gateway.segmentA; Gateway.segmentB]
  /\ Gateway.addedSegments (Gateway.observed "socket-1" sent)
     = [Gateway.segmentA; Gateway.segmentA; Gateway.segmentB]
  /\ Gateway.addedSegments (Gateway.observed "socket-1" sent)
     <> Gateway.appendedTo "session-1" sent.
Proof.
  split; [vm_compute; reflexivity|]. split; [vm_compute; reflexivity|].
  vm_compute. discriminate.
Qed.

Lemma broadcast_completeness_witness :
  Validation.valid (Validation.validateSegment "The candle went out.") = true
  /\ "socket-2" ∈ Gateway.members
                    (fst (Gateway.run Gateway.initial
                            Gateway.twoClientScenario)) "session-1"
  /\ exists segment,
       Gateway.addedSegments
         (Gateway.observed "socket-2"
            (Gateway.effects
               (Gateway.on_segment_add
                  (fst (Gateway.run Gateway.initial Gateway.twoClientScenario))
                  "socket-1" "session-1" "The candle went out." "segment-c"
                  5000)))
       = [segment].
Proof.
  split; [exact valid_next_line|]. split; [exact scenario_room|].
  destruct broadcast_completeness as [Hadd _].
  destruct (Hadd (fst (Gateway.run Gateway.initial Gateway.twoClientScenario))
              "socket-1" "session-1" "The candle went out." "segment-c" 5000
              Gateway.sessionAfterScenario valid_next_line scenario_state)
    as (segment & _ & _ & _ & _ & Hseen).
  exists segment. rewrite (Hseen "socket-2" scenario_room).
  destruct (decide ("socket-2" = "socket-1")); [discriminate|reflexivity].
Defined.

Lemma chronological_invariant_witness :
  let late := Segment.make "s1" "Then it stopped." "c1" user 300 [] in
  let early := Segment.make "s2" "A knock." "c2" user 100 [] in
  let tie := Segment.make "s3" "Silence." "c1" user 300 [] in
  let history :=
    [StoryManager.CreateSession "Test" None "session-1" 0;
     StoryManager.AddParticipant "session-1" (Participant.make "c1" "Ann" 1) 1;
     StoryManager.AddSegment "session-1" late 10] in
  StoryManager.calls ∅ history !! "session-1"
  = Some (Session.make "session-1" "Test" None [Participant.make "c1" "Ann" 1]
            [late] 0 10)
  /\ StoryManager.getSegments
       (StoryManager.addSegments (StoryManager.calls ∅ history) "session-1"
          [(early, 11); (tie, 12)]) "session-1"
     = StoryManager.sortByTimestamp [late; early; tie].
Proof.
  intros late early tie history.
  assert (H1 : StoryManager.calls ∅ history !! "session-1"
               = Some (Session.make "session-1" "Test" None
                         [Participant.make "c1" "Ann" 1] [late] 0 10))
    by (vm_compute; reflexivity).
  split; [exact H1|].
  apply (chronological_invariant history "session-1" _
           [(early, 11); (tie, 12)] H1).
Defined.

Example log_after_out_of_order_adds :
  let late := Segment.make "s1" "Then it stopped." "c1" user 300 [] in
  let early := Segment.make "s2" "A knock." "c2" user 100 [] in
  let tie := Segment.make "s3" "Silence." "c1" user 300 [] in
  StoryManager.getSegments
    (StoryManager.addSegments
       (snd (StoryManager.createSession ∅ "Test" None "session-1" 0))
       "session-1" [(late, 10); (early, 11); (tie, 12)]) "session-1"
  = [early; late; tie].
Proof. vm_compute. reflexivity. Qed.

Lemma full_context_join_witness :
  Gateway.storyManager (fst (Gateway.run Gateway.initial
                               Gateway.twoClientScenario))
    !! "session-1"
  = Some Gateway.sessionAfterScenario
  /\ exists payload participant others,
       snd (Gateway.on_session_join
              (fst (Gateway.run Gateway.initial Gateway.twoClientScenario))
              "socket-3" "session-1" "Cleo" 5000)
       = [Gateway.Delivered {[ "socket-3" ]} (Gateway.session_updated payload);
          Gateway.Delivered others (Gateway.participant_joined participant)]
       /\ Session.segments payload = [Gateway.segmentA; Gateway.segmentB].
Proof.
  split; [exact scenario_state|].
  destruct (full_context_join Gateway.twoClientScenario "socket-3"
              "session-1" "Cleo" 5000 Gateway.sessionAfterScenario
              scenario_state)
    as (payload & participant & others & Hsent & _ & Hsegments & _).
  exists payload, participant, others. split; [exact Hsent|exact Hsegments].
Defined.

Lemma coAuthor_state :
  Gateway.storyManager (fst (Gateway.run Gateway.initial
                               Gateway.coAuthorScenario))
    !! "session-1"
  = Some Gateway.sessionAfterCoAuthor.
Proof. vm_compute. reflexivity. Qed.

(** The continuation in [coAuthorScenario] is the one the third user
    segment leaves behind. *)
Example coAuthor_is_awaited :
  Gateway.awaiting
    (Gateway.on_segment_add
       (fst (Gateway.run Gateway.initial Gateway.twoClientScenario))
       "socket-1" "session-1" "C" "segment-c" 5000)
  = Some {| Gateway.aw_sessionId := "session-1";
            Gateway.aw_context :=
              [Gateway.segmentA; Gateway.segmentB; Gateway.segmentC] |}.
Proof. vm_compute. reflexivity. Qed.

Lemma ai_trigger_witness :
  Validation.valid (Validation.validateSegment "The candle went out.") = true
  /\ Gateway.storyManager (fst (Gateway.run Gateway.initial
                                  Gateway.coAuthorScenario))
       !! "session-1"
     = Some Gateway.sessionAfterCoAuthor
  /\ length (Session.segments Gateway.sessionAfterCoAuthor) = 6%nat
  /\ userTypedCount (Session.segments Gateway.sessionAfterCoAuthor) = 5%nat
  /\ is_Some (Gateway.awaiting
                (Gateway.on_segment_add
                   (fst (Gateway.run Gateway.initial
                           Gateway.coAuthorScenario))
                   "socket-1" "session-1" "The candle went out." "segment-f"
                   9000)).
Proof.
  split; [exact valid_next_line|]. split; [exact coAuthor_state|].
  split; [reflexivity|]. split; [reflexivity|].
  destruct (ai_trigger (fst (Gateway.run Gateway.initial
                               Gateway.coAuthorScenario))
              "socket-1" "session-1" "The candle went out." "segment-f" 9000
              Gateway.sessionAfterCoAuthor valid_next_line coAuthor_state)
    as (Hcount & Hiff & _).
  apply Hiff. rewrite Hcount. vm_compute. split; [lia|reflexivity].
Defined.

Lemma invalid_content_rejected_witness :
  Validation.containsProfanity
    (Validation.sanitizeInput "What a <i>damn</i> cold night") = true
  /\ Gateway.server
       (Gateway.on_segment_add
          (fst (Gateway.run Gateway.initial Gateway.twoClientScenario))
          "socket-1" "session-1" "What a <i>damn</i> cold night" "segment-c"
          5000)
     = fst (Gateway.run Gateway.initial Gateway.twoClientScenario).
Proof.
  assert (H : Validation.containsProfanity
                (Validation.sanitizeInput "What a <i>damn</i> cold night")
              = true) by (vm_compute; reflexivity).
  split; [exact H|].
  apply (invalid_content_rejected
           (fst (Gateway.run Gateway.initial Gateway.twoClientScenario))
           "socket-1" "session-1" "What a <i>damn</i> cold night" "segment-c"
           5000 (or_intror (or_intror H))).
Defined.

(** C5.  The claim fails on the code for a listed word inside markup.  The
    content "hi < ass > there" has the shape the property test of the
    repository builds (a prefix, a space, a listed word, a space, a suffix)
    and [containsProfanity] holds of it, so the claim and that test want it
    refused.  [validateSegment] looks for profanity in the sanitized text
    only, from which the tag is gone: it answers valid, and the handler
    appends "hi  there" to the log, sends it to the room and acknowledges
    it; no error is sent. *)
Theorem profanity_inside_markup_accepted :
  let content := "hi < ass > there" in
  let σ := fst (Gateway.run Gateway.initial Gateway.twoClientScenario) in
  let r :=
    Gateway.on_segment_add σ "socket-1" "session-1" content "segment-c"
      5000 in
  let accepted :=
    {| Segment.id := "segment-c"; Segment.content := "hi  there";
       Segment.contributorId := "socket-1"; Segment.contributorType := user;
       Segment.timestamp := 5000; Segment.moodTags := [] |} in
  content = "hi <" +:+ " " +:+ "ass" +:+ " " +:+ "> there"
  /\ In "ass" Validation.PROFANITY_LIST
  /\ Validation.containsProfanity content = true
  /\ Validation.validateSegment content
     = {| Validation.valid := true; Validation.error := None;
          Validation.sanitized := Some "hi  there" |}
  /\ Gateway.appendedTo "session-1" (Gateway.effects r) = [accepted]
  /\ StoryManager.getSegments (Gateway.storyManager (Gateway.server r))
       "session-1"
     = [Gateway.segmentA; Gateway.segmentB; accepted]
  /\ Gateway.observed "socket-2" (Gateway.effects r)
     = [Gateway.segment_added accepted]
  /\ Gateway.observed "socket-1" (Gateway.effects r)
     = [Gateway.segment_added accepted; Gateway.segment_added accepted;
        Gateway.segment_acknowledged "segment-c"].
Proof.
  cbv zeta. split; [reflexivity|].
  split; [vm_compute; tauto|].
  repeat split; vm_compute; reflexivity.
Qed.

Lemma retry_exhaustion_witness :
  let q := OfflineQueue.enqueue OfflineQueue.decimalText
             OfflineQueue.neverThrows
             (OfflineQueue.construct OfflineQueue.readDecimal None)
             "session-1" "queued text" 7000 in
  list_find (OfflineQueue.sameEntry "session-1" 7000) (OfflineQueue.queue q)
  = Some (0%nat, OfflineQueue.Build_QueuedSegment "session-1" "queued text"
                   7000 0)
  /\ fst (OfflineQueue.incrementRetry OfflineQueue.decimalText
            OfflineQueue.neverThrows
            (snd (OfflineQueue.incrementRetry OfflineQueue.decimalText
                    OfflineQueue.neverThrows
                    (snd (OfflineQueue.incrementRetry
                            OfflineQueue.decimalText
                            OfflineQueue.neverThrows q "session-1" 7000))
                    "session-1" 7000))
            "session-1" 7000)
     = false.
Proof.
  intros q.
  assert (H : list_find (OfflineQueue.sameEntry "session-1" 7000)
                (OfflineQueue.queue q)
              = Some (0%nat, OfflineQueue.Build_QueuedSegment "session-1"
                               "queued text" 7000 0))
    by (vm_compute; reflexivity).
  split; [exact H|].
  destruct (retry_exhaustion OfflineQueue.decimalText OfflineQueue.neverThrows
              q "session-1" 7000 _ _ H)
    as (_ & _ & Hthree).
  destruct (Hthree eq_refl) as (_ & _ & _ & Hthird & _). exact Hthird.
Defined.

(** C8 as stated fails for an entry that is not the first with its pair: two
    texts queued for one session in the same millisecond, the first of them
    retried twice.  The second is queued with retry count 0, yet the first
    call of [incrementRetry] for it returns false, and both are gone.  And
    a call that returns true has not persisted the queue when storage
    refuses the write: the item is still as it was. *)
Lemma shadowed_entry_exhausts_at_once :
  let q := OfflineQueue.calls OfflineQueue.decimalText
             OfflineQueue.neverThrows
             (OfflineQueue.construct OfflineQueue.readDecimal None)
             [OfflineQueue.Enqueue "session-1" "first" 7000;
              OfflineQueue.Enqueue "session-1" "second" 7000;
              OfflineQueue.IncrementRetry "session-1" 7000;
              OfflineQueue.IncrementRetry "session-1" 7000] in
  let entry := OfflineQueue.Build_QueuedSegment "session-1" "second" 7000 0 in
  In entry (OfflineQueue.queue q)
  /\ OfflineQueue.retryCount entry = 0%nat
  /\ fst (OfflineQueue.incrementRetry OfflineQueue.decimalText
            OfflineQueue.neverThrows q
            (OfflineQueue.sessionId entry) (OfflineQueue.timestamp entry))
     = false
  /\ OfflineQueue.queue
       (snd (OfflineQueue.incrementRetry OfflineQueue.decimalText
               OfflineQueue.neverThrows q
               (OfflineQueue.sessionId entry)
               (OfflineQueue.timestamp entry)))
     = []
  /\ OfflineQueue.incrementRetry OfflineQueue.decimalText
       OfflineQueue.alwaysThrows
       {| OfflineQueue.queue := [entry]; OfflineQueue.localStorage := None |}
       "session-1" 7000
     = (true,
        {| OfflineQueue.queue := [OfflineQueue.bump entry];
           OfflineQueue.localStorage := None |}).
Proof.
  cbv zeta. split; [vm_compute; right; left; reflexivity|].
  split; [reflexivity|]. repeat split; vm_compute; reflexivity.
Qed.

Lemma offline_round_trip_witness :
  let q0 := OfflineQueue.construct OfflineQueue.readDecimal None in
  let cs := [OfflineQueue.Enqueue "session-1" "first" 7000;
             OfflineQueue.Enqueue "session-1" "second" 7001;
             OfflineQueue.IncrementRetry "session-1" 7001;
             OfflineQueue.Dequeue "session-1" 7000;
             OfflineQueue.Enqueue "session-2" "third" 7002] in
  (forall instant,
      OfflineQueue.readDecimal (OfflineQueue.decimalText instant) = instant)
  /\ (forall item value, OfflineQueue.neverThrows item value = false)
  /\ OfflineQueue.synced OfflineQueue.decimalText q0
  /\ OfflineQueue.queue
       (OfflineQueue.construct OfflineQueue.readDecimal
          (OfflineQueue.localStorage
             (OfflineQueue.calls OfflineQueue.decimalText
                OfflineQueue.neverThrows q0 cs)))
     = OfflineQueue.queue
         (OfflineQueue.calls OfflineQueue.decimalText
            OfflineQueue.neverThrows q0 cs).
Proof.
  intros q0 cs.
  assert (H : OfflineQueue.synced OfflineQueue.decimalText q0)
    by (right; split; reflexivity).
  assert (Hwrites : forall item value,
            OfflineQueue.neverThrows item value = false)
    by reflexivity.
  split; [exact decimal_round_trip|]. split; [exact Hwrites|].
  split; [exact H|].
  apply (offline_round_trip OfflineQueue.decimalText OfflineQueue.readDecimal
           OfflineQueue.neverThrows q0 cs decimal_round_trip Hwrites H).
Defined.

(** C9 as stated fails when storage refuses a write: [saveToStorage]
    swallows the exception of [setItem], so the entry is queued in memory
    only, and a new instance over the same storage starts empty. *)
Lemma failed_write_is_lost :
  let q := OfflineQueue.enqueue OfflineQueue.decimalText
             OfflineQueue.alwaysThrows
             (OfflineQueue.construct OfflineQueue.readDecimal None)
             "session-1" "first" 7000 in
  OfflineQueue.size q = 1%nat
  /\ OfflineQueue.size
       (OfflineQueue.construct OfflineQueue.readDecimal
          (OfflineQueue.localStorage q))
     = 0%nat.
Proof. split; vm_compute; reflexivity. Qed.

Example queue_after_calls :
  OfflineQueue.queue
    (OfflineQueue.calls OfflineQueue.decimalText OfflineQueue.neverThrows
       (OfflineQueue.construct OfflineQueue.readDecimal None)
       [OfflineQueue.Enqueue "session-1" "first" 7000;
        OfflineQueue.Enqueue "session-1" "second" 7001;
        OfflineQueue.IncrementRetry "session-1" 7001;
        OfflineQueue.Dequeue "session-1" 7000;
        OfflineQueue.Enqueue "session-2" "third" 7002])
  = [OfflineQueue.Build_QueuedSegment "session-1" "second" 7001 1;
     OfflineQueue.Build_QueuedSegment "session-2" "third" 7002 0].
Proof. vm_compute. reflexivity. Qed.

Lemma increment_retry_unknown_entry_witness :
  let q := OfflineQueue.enqueue OfflineQueue.decimalText
             OfflineQueue.neverThrows
             (OfflineQueue.construct OfflineQueue.readDecimal None)
             "session-1" "queued text" 7000 in
  (forall x, x ∈ OfflineQueue.queue q ->
             ~ OfflineQueue.sameEntry "session-1" 9999 x)
  /\ OfflineQueue.incrementRetry OfflineQueue.decimalText
       OfflineQueue.neverThrows q "session-1" 9999
     = (false, q).
Proof.
  intros q.
  assert (H : forall x, x ∈ OfflineQueue.queue q ->
                        ~ OfflineQueue.sameEntry "session-1" 9999 x).
  { intros x Hx [_ Hts]. apply list_elem_of_singleton in Hx. subst x.
    discriminate. }
  split; [exact H|].
  apply (increment_retry_unknown_entry OfflineQueue.decimalText
           OfflineQueue.neverThrows q "session-1" 9999 H).
Defined.

(** * Further properties of the code *)

(** ** Validation utilities *)

Section ValidationFacts.
Import Validation.

Lemma chars_text l : chars (text l) = l.
Proof. apply list_ascii_of_string_of_list_ascii. Qed.

Lemma text_chars s : text (chars s) = s.
Proof. apply string_of_list_ascii_of_string. Qed.

Lemma length_text l : String.length (text l) = length l.
Proof. induction l as [|c l IH]; simpl; [reflexivity|]. by rewrite IH. Qed.

Lemma length_chars s : length (chars s) = String.length s.
Proof. by rewrite <- (text_chars s) at 2; rewrite length_text. Qed.

Lemma allChars_complete c : In c allChars.
Proof.
  unfold allChars. apply in_map_iff. exists (nat_of_ascii c).
  split; [apply ascii_nat_embedding|].
  apply in_seq. pose proof (nat_ascii_bounded c). lia.
Qed.

(** A property of characters that holds on the whole enumeration holds. *)
Lemma by_enumeration (P : ascii -> bool) :
  forallb P allChars = true -> forall c, P c = true.
Proof.
  intros Hall c. rewrite forallb_forall in Hall.
  apply Hall, allChars_complete.
Qed.

(** *** [trim] *)

Lemma trimStart_snoc l c :
  trimStart (l ++ [c])
  = match trimStart l with
    | [] => if isWhiteSpace c then [] else [c]
    | t => t ++ [c]
    end.
Proof.
  induction l as [|d l IH]; simpl; [by destruct (isWhiteSpace c)|].
  destruct (isWhiteSpace d); [exact IH|reflexivity].
Qed.

Lemma trimEnd_cons c l :
  trimEnd (c :: l)
  = match trimEnd l with
    | [] => if isWhiteSpace c then [] else [c]
    | t => c :: t
    end.
Proof.
  unfold trimEnd. simpl rev. rewrite trimStart_snoc.
  destruct (trimStart (rev l)) as [|d t] eqn:Ht; simpl.
  - by destruct (isWhiteSpace c).
  - rewrite rev_app_distr. simpl. destruct (rev t ++ [d]) eqn:Hr; [|done].
    by destruct (rev t).
Qed.

Lemma trimEnd_nil : trimEnd [] = [].
Proof. reflexivity. Qed.

Lemma trimStart_suffix l : exists p, l = p ++ trimStart l.
Proof.
  induction l as [|c l [p IH]]; [by exists []|]. simpl.
  destruct (isWhiteSpace c); [|by exists []].
  exists (c :: p). simpl. by rewrite <- IH.
Qed.

Lemma trimEnd_prefix l : exists q, l = trimEnd l ++ q.
Proof.
  induction l as [|c l [q IH]]; [by exists []|]. rewrite trimEnd_cons.
  destruct (trimEnd l) as [|d t] eqn:Ht.
  - destruct (isWhiteSpace c); [by exists (c :: l)|].
    exists l. reflexivity.
  - exists q. simpl. f_equal. exact IH.
Qed.

Lemma trimStart_fixed c l :
  isWhiteSpace c = false -> trimStart (c :: l) = c :: l.
Proof. intros Hc. simpl. by rewrite Hc. Qed.

Lemma trimStart_head l : 
  match trimStart l with
  | [] => True
  | c :: _ => isWhiteSpace c = false
  end.
Proof.
  induction l as [|c l IH]; simpl; [done|].
  destruct (isWhiteSpace c) eqn:Hc; [exact IH|exact Hc].
Qed.

Lemma trimEnd_last l c :
  last (trimEnd l) = Some c -> isWhiteSpace c = false.
Proof.
  revert c. induction l as [|d l IH]; intros c; [done|]. rewrite trimEnd_cons.
  destruct (trimEnd l) as [|e t] eqn:Ht.
  - destruct (isWhiteSpace d) eqn:Hd; [done|]. simpl. by intros [= <-].
  - rewrite last_cons. destruct (last (e :: t)) as [y|] eqn:Hy.
    + intros [= <-]. by apply IH.
    + by rewrite last_cons in Hy; destruct (last t).
Qed.

Lemma trimEnd_fixed l :
  (forall c, last l = Some c -> isWhiteSpace c = false) ->
  trimEnd l = l.
Proof.
  induction l as [|c l IH]; [done|]. intros Hlast. rewrite trimEnd_cons.
  destruct l as [|d t].
  - simpl. by rewrite (Hlast c).
  - rewrite IH; [reflexivity|]. intros e He. apply Hlast.
    rewrite last_cons. by rewrite He.
Qed.

Lemma trimEnd_keeps_head c l :
  isWhiteSpace c = false ->
  exists t, trimEnd (c :: l) = c :: t.
Proof.
  intros Hc. rewrite trimEnd_cons. destruct (trimEnd l) as [|d t].
  - rewrite Hc. by exists [].
  - by exists (d :: t).
Qed.

Lemma trimmed_fixed l :
  let t := trimEnd (trimStart l) in
  trimEnd (trimStart t) = t.
Proof.
  intros t. subst t. pose proof (trimStart_head l) as Hhead.
  destruct (trimStart l) as [|c l'] eqn:Hl; [reflexivity|].
  destruct (trimEnd_keeps_head c l' Hhead) as [t Ht]. rewrite Ht.
  rewrite trimStart_fixed by done. rewrite <- Ht.
  apply trimEnd_fixed. intros e. apply trimEnd_last.
Qed.

Lemma trim_idempotent s : trim (trim s) = trim s.
Proof.
  unfold trim. rewrite chars_text. f_equal. apply trimmed_fixed.
Qed.

End ValidationFacts.

Section SanitizeFacts.
Import Validation.

#[local] Abbreviation hasGt := (existsb (fun d => bool_decide (d = ">"%char))).

Lemma hasGt_stripTags b l : hasGt (stripTags b l) = true -> hasGt l = true.
Proof.
  revert b. induction l as [|c l IH]; intros b; [by destruct b|].
  cbn [stripTags]. destruct b.
  - destruct (bool_decide (c = ">"%char)); intros Hg%IH; cbn [existsb];
      rewrite Hg; by rewrite orb_true_r.
  - destruct (bool_decide (c = "<"%char) && hasGt l) eqn:Hc.
    + intros H%IH. cbn [existsb]. rewrite H. by rewrite orb_true_r.
    + cbn [existsb]. intros [H|H%IH]%orb_true_iff; rewrite H; [done|].
      by rewrite orb_true_r.
Qed.

Lemma completeTag_stripTags b l : completeTag (stripTags b l) = false.
Proof.
  revert b. induction l as [|c l IH]; intros b; [by destruct b|].
  cbn [stripTags]. destruct b.
  - case_bool_decide; apply IH.
  - destruct (bool_decide (c = "<"%char) && hasGt l) eqn:Hc; [apply IH|].
    cbn [completeTag]. rewrite IH, orb_false_r.
    apply andb_false_iff in Hc as [Hc|Hc]; [by rewrite Hc|].
    destruct (hasGt (stripTags false l)) eqn:Hg; [|by rewrite andb_false_r].
    apply hasGt_stripTags in Hg. congruence.
Qed.

Lemma stripTags_fixed l : completeTag l = false -> stripTags false l = l.
Proof.
  induction l as [|c l IH]; [done|]. cbn [completeTag stripTags].
  intros [Hc Hl]%orb_false_iff. rewrite Hc. f_equal. by apply IH.
Qed.

Lemma hasGt_drop n l : hasGt (drop n l) = true -> hasGt l = true.
Proof.
  revert l. induction n as [|n IH]; intros [|c l]; try done.
  simpl drop. intros H%IH. cbn [existsb]. rewrite H. by rewrite orb_true_r.
Qed.

Lemma matchLiteral_In prev pat l r p :
  matchLiteral prev pat l = Some r -> In p pat ->
  exists c, In c l /\ sameCharCI p c = true.
Proof.
  revert prev l. induction pat as [|q pat IH]; intros prev l Hm Hp; [done|].
  destruct l as [|c l]; [done|]. cbn [matchLiteral] in Hm.
  destruct (sameCharCI q c) eqn:Hq; [|done]. destruct Hp as [->|Hp].
  - exists c. split; [by left|done].
  - destruct (IH _ _ Hm Hp) as (d & Hd & Hpd). exists d. split; [by right|done].
Qed.

Lemma sameChar_gt c : sameCharCI ">"%char c = true -> c = ">"%char.
Proof.
  intros Hc.
  pose proof (by_enumeration
                (fun c => implb (sameCharCI ">"%char c)
                                (bool_decide (c = ">"%char)))) as Hall.
  specialize (Hall ltac:(vm_compute; reflexivity) c). cbv beta in Hall.
  rewrite Hc in Hall. by apply bool_decide_eq_true in Hall.
Qed.

Lemma sameChar_lt c : sameCharCI "<"%char c = true -> c = "<"%char.
Proof.
  intros Hc.
  pose proof (by_enumeration
                (fun c => implb (sameCharCI "<"%char c)
                                (bool_decide (c = "<"%char)))) as Hall.
  specialize (Hall ltac:(vm_compute; reflexivity) c). cbv beta in Hall.
  rewrite Hc in Hall. by apply bool_decide_eq_true in Hall.
Qed.

Lemma occurs_close_hasGt l : occursCI scriptClose l = true -> hasGt l = true.
Proof.
  induction l as [|c l IH]; cbn [occursCI]; intros H.
  - apply orb_true_iff in H as [H|H]; [|done]. by vm_compute in H.
  - apply orb_true_iff in H as [H|H].
    + unfold startsWithCI in H.
      destruct (matchLiteral None scriptClose (c :: l)) as [r|] eqn:Hm;
        [|done].
      destruct (matchLiteral_In _ _ _ _ ">"%char Hm) as (d & Hd & Hsame).
      { vm_compute. tauto. }
      apply sameChar_gt in Hsame. subst d. apply existsb_exists.
      exists ">"%char. split; [done|]. by apply bool_decide_eq_true.
    + apply IH in H. cbn [existsb]. rewrite H. by rewrite orb_true_r.
Qed.

Lemma starts_open_head l :
  startsWithCI scriptOpen l = true -> exists l', l = "<"%char :: l'.
Proof.
  unfold startsWithCI. destruct l as [|c l]; [by vm_compute|].
  change scriptOpen with ("<"%char :: chars "script").
  cbn [matchLiteral]. destruct (sameCharCI "<"%char c) eqn:Hc; [|done].
  apply sameChar_lt in Hc. subst c. by exists l.
Qed.

Lemma stripScripts_fixed l :
  completeTag l = false -> stripScripts 0 false l = l.
Proof.
  induction l as [|c l IH]; [done|]. intros Htag.
  assert (Hl : completeTag l = false).
  { cbn [completeTag] in Htag. by apply orb_false_iff in Htag as [_ ?]. }
  cbn [stripScripts].
  destruct (startsWithCI scriptOpen (c :: l)
            && wordBoundary (Some "t"%char) (head (drop 7 (c :: l)))
            && occursCI scriptClose (drop 7 (c :: l))) eqn:Hcond.
  - exfalso. apply andb_true_iff in Hcond as [Hcond Hclose].
    apply andb_true_iff in Hcond as [Hopen _].
    destruct (starts_open_head _ Hopen) as [l' [= -> <-]].
    apply occurs_close_hasGt in Hclose. change (drop 7 ("<"%char :: l))
      with (drop 6 l) in Hclose. apply hasGt_drop in Hclose.
    cbn [completeTag] in Htag. rewrite Hclose in Htag.
    by rewrite bool_decide_eq_true_2 in Htag.
  - f_equal. by apply IH.
Qed.

Lemma hasGt_app l1 l2 : hasGt (l1 ++ l2) = hasGt l1 || hasGt l2.
Proof. apply existsb_app. Qed.

Lemma completeTag_app l1 l2 :
  completeTag (l1 ++ l2) = false ->
  completeTag l1 = false /\ completeTag l2 = false.
Proof.
  induction l1 as [|c l1 IH]; [done|]. simpl app. cbn [completeTag].
  intros [Hc Hl]%orb_false_iff. destruct (IH Hl) as [H1 H2].
  split; [|done]. rewrite H1, orb_false_r.
  apply andb_false_iff in Hc as [Hc|Hc]; [by rewrite Hc|].
  rewrite hasGt_app in Hc. apply orb_false_iff in Hc as [Hc _].
  by rewrite Hc, andb_false_r.
Qed.

Lemma completeTag_trimmed l :
  completeTag l = false -> completeTag (trimEnd (trimStart l)) = false.
Proof.
  intros Hl. destruct (trimStart_suffix l) as [p Hp].
  rewrite Hp in Hl. apply completeTag_app in Hl as [_ Hl].
  destruct (trimEnd_prefix (trimStart l)) as [q Hq].
  rewrite Hq in Hl. by apply completeTag_app in Hl as [Hl _].
Qed.

Lemma sanitizeInput_tags_only input :
  sanitizeInput input = trim (text (stripTags false (chars input))).
Proof.
  unfold sanitizeInput. rewrite chars_text.
  by rewrite stripScripts_fixed by apply completeTag_stripTags.
Qed.

Lemma sanitizeInput_no_tag input :
  completeTag (chars (sanitizeInput input)) = false.
Proof.
  rewrite sanitizeInput_tags_only. unfold trim.
  rewrite !chars_text. apply completeTag_trimmed, completeTag_stripTags.
Qed.

Lemma sanitizeInput_trimmed input :
  trim (sanitizeInput input) = sanitizeInput input.
Proof. rewrite sanitizeInput_tags_only. apply trim_idempotent. Qed.

Lemma sanitizeInput_fixed input :
  sanitizeInput (sanitizeInput input) = sanitizeInput input.
Proof.
  rewrite (sanitizeInput_tags_only (sanitizeInput input)).
  rewrite stripTags_fixed by apply sanitizeInput_no_tag.
  rewrite text_chars. apply sanitizeInput_trimmed.
Qed.

(** X2.  The second replacement of [sanitizeInput], the one aimed at
    [<script>] elements, never finds anything to remove: the first one has
    already deleted every tag, so the result is the trimmed text with its
    tags stripped. *)
Theorem sanitize_script_pass_idle input :
  stripScripts 0 false (stripTags false (chars input))
  = stripTags false (chars input)
  /\ sanitizeInput input = trim (text (stripTags false (chars input))).
Proof.
  split.
  - apply stripScripts_fixed, completeTag_stripTags.
  - apply sanitizeInput_tags_only.
Qed.

(** X1.  Sanitized text holds no complete tag: no [<] of it has a [>]
    anywhere after it. *)
Theorem sanitize_leaves_no_tag input :
  completeTag (chars (sanitizeInput input)) = false.
Proof.
  unfold sanitizeInput. rewrite chars_text.
  rewrite stripScripts_fixed by apply completeTag_stripTags.
  unfold trim. rewrite !chars_text.
  apply completeTag_trimmed, completeTag_stripTags.
Qed.

(** X3.  Sanitizing is idempotent: sanitized text is left as it is by a
    second pass, and it carries no white space at either end. *)
Theorem sanitize_idempotent input :
  sanitizeInput (sanitizeInput input) = sanitizeInput input
  /\ trim (sanitizeInput input) = sanitizeInput input.
Proof.
  split.
  - apply sanitizeInput_fixed.
  - apply sanitizeInput_trimmed.
Qed.

End SanitizeFacts.

Section AcceptedContent.
Import Validation.

Lemma validateSegment_valid_checks content :
  valid (validateSegment content) = true ->
  hasContent content = true
  /\ isValidLength (sanitizeInput content) = true
  /\ containsProfanity (sanitizeInput content) = false.
Proof.
  unfold validateSegment.
  destruct (hasContent content); cbv beta iota delta [negb valid];
    [|discriminate].
  destruct (isValidLength _); cbv beta iota delta [negb valid];
    [|discriminate].
  destruct (containsProfanity _); cbv beta iota delta [negb valid];
    [discriminate|]. done.
Qed.

Lemma validateSegment_accepts content :
  hasContent content = true ->
  isValidLength (sanitizeInput content) = true ->
  containsProfanity (sanitizeInput content) = false ->
  validateSegment content
  = {| valid := true; error := None;
       sanitized := Some (sanitizeInput content) |}.
Proof.
  intros H1 H2 H3. unfold validateSegment. rewrite H1.
  cbv beta iota delta [negb]. rewrite H2. cbv beta iota delta [negb].
  by rewrite H3.
Qed.

(** X4.  What [validateSegment] accepts: when the result is valid, it carries
    no error and its sanitized text is the sanitized input, between 1 and 500
    characters long, without white space at either end, without a complete
    tag and without a word of the profanity list. *)
Theorem accepted_content_well_formed content :
  valid (validateSegment content) = true ->
  let t := sanitizeInput content in
  validateSegment content
  = {| valid := true; error := None; sanitized := Some t |}
  /\ (1 <= String.length t <= 500)%nat
  /\ trim t = t
  /\ completeTag (chars t) = false
  /\ containsProfanity t = false.
Proof.
  intros Hvalid t.
  destruct (validateSegment_valid_checks content Hvalid) as (H1 & H2 & H3).
  pose proof (sanitizeInput_trimmed content) as Htrim.
  fold t in Htrim, H2, H3.
  split; [by apply validateSegment_accepts|]. split.
  - unfold isValidLength in H2. rewrite Htrim in H2.
    apply andb_true_iff in H2 as [Hlo Hhi].
    apply Nat.leb_le in Hlo, Hhi. unfold MIN_SEGMENT_LENGTH in Hlo.
    unfold MAX_SEGMENT_LENGTH in Hhi. lia.
  - split; [exact Htrim|]. split; [apply sanitizeInput_no_tag|exact H3].
Qed.

(** X5.  An accepted text can be submitted again: the sanitized text of a
    valid submission is itself valid, and validating it returns it
    unchanged. *)
Theorem accepted_content_resubmits content :
  valid (validateSegment content) = true ->
  validateSegment (sanitizeInput content)
  = {| valid := true; error := None;
       sanitized := Some (sanitizeInput content) |}.
Proof.
  intros Hvalid.
  destruct (validateSegment_valid_checks content Hvalid) as (_ & H2 & H3).
  pose proof (sanitizeInput_fixed content) as Hidem.
  pose proof (sanitizeInput_trimmed content) as Htrim.
  rewrite <- Hidem at 2. apply validateSegment_accepts.
  - unfold hasContent. unfold isValidLength in H2.
    apply andb_true_iff in H2 as [Hlo _]. apply Nat.leb_le in Hlo.
    unfold MIN_SEGMENT_LENGTH in Hlo. apply Nat.ltb_lt. lia.
  - by rewrite Hidem.
  - by rewrite Hidem.
Qed.

End AcceptedContent.

Lemma accepted_content_well_formed_witness :
  Validation.valid
    (Validation.validateSegment "  The <b>attic</b> door creaked.  ") = true
  /\ Validation.trim
       (Validation.sanitizeInput "  The <b>attic</b> door creaked.  ")
     = Validation.sanitizeInput "  The <b>attic</b> door creaked.  ".
Proof.
  assert (H : Validation.valid
                (Validation.validateSegment
                   "  The <b>attic</b> door creaked.  ") = true)
    by (vm_compute; reflexivity).
  split; [exact H|].
  destruct (accepted_content_well_formed _ H) as (_ & _ & Htrim & _).
  exact Htrim.
Defined.

Lemma accepted_content_resubmits_witness :
  Validation.valid
    (Validation.validateSegment "  The <b>attic</b> door creaked.  ") = true
  /\ Validation.validateSegment
       (Validation.sanitizeInput "  The <b>attic</b> door creaked.  ")
     = {| Validation.valid := true; Validation.error := None;
          Validation.sanitized :=
            Some (Validation.sanitizeInput
                    "  The <b>attic</b> door creaked.  ") |}.
Proof.
  assert (H : Validation.valid
                (Validation.validateSegment
                   "  The <b>attic</b> door creaked.  ") = true)
    by (vm_compute; reflexivity).
  split; [exact H|]. exact (accepted_content_resubmits _ H).
Defined.

(** ** [filterProfanity] *)

Section FilterFacts.
Import Validation.

Lemma by_enumeration2 (P : ascii -> ascii -> bool) :
  forallb (fun p => forallb (P p) allChars) allChars = true ->
  forall p c, P p c = true.
Proof.
  intros Hall p c.
  pose proof (by_enumeration _ Hall p) as Hp. cbv beta in Hp.
  exact (by_enumeration _ Hp c).
Qed.

Lemma sameChar_letter p c :
  isLowerLetter p = true -> sameCharCI p c = true ->
  isWordChar c = true /\ c <> "*"%char.
Proof.
  pose proof (by_enumeration2
                (fun p c => implb (isLowerLetter p && sameCharCI p c)
                              (isWordChar c
                               && negb (bool_decide (c = "*"%char)))))
    as Hall.
  specialize (Hall ltac:(vm_compute; reflexivity) p c). cbv beta in Hall.
  intros Hp Hc. rewrite Hp, Hc in Hall. simpl in Hall.
  apply andb_true_iff in Hall as [Hw Hs]. split; [done|].
  by apply negb_true_iff, bool_decide_eq_false in Hs.
Qed.

Lemma length_replaceWord w k prev l :
  length (replaceWord w k prev l) = length l.
Proof.
  revert k prev. induction l as [|c l IH]; intros k prev; [done|].
  cbn [replaceWord]. destruct k; [destruct (wordMatchesHere w prev _)|];
    simpl; by rewrite IH.
Qed.

(** X6.  [filterProfanity] masks in place: its result has exactly the length
    of its input. *)
Theorem filterProfanity_keeps_length content :
  String.length (filterProfanity content) = String.length content.
Proof.
  unfold filterProfanity. generalize PROFANITY_LIST. intros words.
  revert content. induction words as [|word words IH]; intros content;
    [done|].
  simpl. rewrite IH, length_text, length_replaceWord. apply length_chars.
Qed.

Lemma replaceWord_no_match w prev l :
  wordMatchesFrom w prev l = false -> replaceWord w 0 prev l = l.
Proof.
  revert prev. induction l as [|c l IH]; intros prev; [done|].
  cbn [wordMatchesFrom replaceWord]. intros [Hhere Hrest]%orb_false_iff.
  rewrite Hhere. f_equal. by apply IH.
Qed.

Lemma plainWord_letters w : plainWord w = true -> forallb isLowerLetter w = true.
Proof. by destruct w. Qed.

Lemma profanity_words_plain :
  forall word, In word PROFANITY_LIST -> plainWord (chars word) = true.
Proof.
  apply forallb_forall with (f := fun word => plainWord (chars word)).
  vm_compute. reflexivity.
Qed.

(** X7.  Text in which none of the patterns of [filterProfanity], a word of
    the list between two word boundaries with the flag [i], has a match is
    returned unchanged by [filterProfanity]. *)
Theorem filterProfanity_keeps_clean_text content :
  (forall word, In word PROFANITY_LIST ->
                regexTestWord word content = false) ->
  filterProfanity content = content.
Proof.
  unfold filterProfanity, regexTestWord.
  generalize PROFANITY_LIST. intros words.
  induction words as [|word words IH]; [done|]. cbn [foldl]. intros Hclean.
  rewrite (replaceWord_no_match _ _ _ (Hclean word (or_introl eq_refl))).
  rewrite text_chars. apply IH. intros w Hw. apply Hclean. by right.
Qed.

End FilterFacts.

Lemma filterProfanity_keeps_clean_text_witness :
  (forall word, In word Validation.PROFANITY_LIST ->
     Validation.regexTestWord word "The Class passed the glass" = false)
  /\ Validation.filterProfanity "The Class passed the glass"
     = "The Class passed the glass".
Proof.
  assert (H : forall word, In word Validation.PROFANITY_LIST ->
                Validation.regexTestWord word "The Class passed the glass"
                = false).
  { intros word Hin. unfold Validation.PROFANITY_LIST in Hin.
    cbn [In] in Hin.
    repeat (destruct Hin as [<-|Hin]; [vm_compute; reflexivity|]).
    destruct Hin. }
  split; [exact H|]. exact (filterProfanity_keeps_clean_text _ H).
Defined.

Example filterProfanity_masks :
  Validation.filterProfanity "Damn, what an ASS. Classy!"
  = "****, what an ***. Classy!".
Proof. vm_compute. reflexivity. Qed.

Section FilterLeavesNothing.
Import Validation.

Lemma plainWord_cons p v :
  plainWord (p :: v) = true ->
  isLowerLetter p = true /\ forallb isLowerLetter v = true.
Proof. cbn [plainWord forallb]. by intros ?%andb_true_iff. Qed.

Lemma no_match_on_nil v prev : plainWord v = true -> wordMatchesFrom v prev [] = false.
Proof.
  destruct v as [|p v]; [done|]. intros _. cbn [wordMatchesFrom].
  unfold wordMatchesHere. cbn [matchLiteral]. by rewrite andb_false_r.
Qed.

Lemma matchesBeside_same w prev l : matchesBeside w w prev l = false.
Proof.
  revert prev. induction l as [|c l IH]; intros prev; cbn [matchesBeside];
    rewrite andb_negb_r; [done|]. apply IH.
Qed.

Lemma matchesBeside_matches v w prev l :
  matchesBeside v w prev l = true -> wordMatchesFrom v prev l = true.
Proof.
  revert prev. induction l as [|c l IH]; intros prev;
    cbn [matchesBeside wordMatchesFrom].
  - intros [H|H]%orb_true_iff; [|done].
    apply andb_true_iff in H as [-> _]. done.
  - intros [H|H]%orb_true_iff.
    + apply andb_true_iff in H as [-> _]. done.
    + rewrite (IH _ H). by rewrite orb_true_r.
Qed.

Lemma wordMatchesHere_head w prev l :
  plainWord w = true -> wordMatchesHere w prev l = true ->
  exists c l', l = c :: l' /\ isWordChar c = true
               /\ isWordOpt prev = false.
Proof.
  destruct w as [|p w]; [done|]. intros [Hp _]%plainWord_cons.
  unfold wordMatchesHere. intros [Hb Hm]%andb_true_iff.
  destruct l as [|c l]; [done|]. cbn [matchLiteral] in Hm.
  destruct (sameCharCI p c) eqn:Hc; [|done].
  destruct (sameChar_letter p c Hp Hc) as [Hw _].
  exists c, l. split; [done|]. split; [done|].
  unfold wordBoundary in Hb. simpl in Hb. rewrite Hw in Hb.
  by destruct (isWordOpt prev).
Qed.

(** Where the output of [replaceWord] matches a plain word, the matched
    stretch was copied from the input, which matches there as well. *)
Lemma match_in_output w p v prev po l lastO restO :
  isLowerLetter p = true -> forallb isLowerLetter v = true ->
  matchLiteral po (p :: v) (replaceWord w 0 prev l) = Some (lastO, restO) ->
  exists last rest,
    matchLiteral prev (p :: v) l = Some (Some last, rest)
    /\ lastO = Some last
    /\ restO = replaceWord w 0 (Some last) rest
    /\ isWordChar last = true
    /\ wordMatchesHere w prev l = false
    /\ head (replaceWord w 0 prev l) = head l.
Proof.
  revert p prev po l. induction v as [|q v IH]; intros p prev po l Hp Hv Hm.
  - destruct l as [|c l]; [done|]. cbn [replaceWord] in Hm |- *.
    destruct (wordMatchesHere w prev (c :: l)) eqn:Hw.
    + cbn [matchLiteral] in Hm.
      destruct (sameCharCI p "*"%char) eqn:Hs; [|done].
      by destruct (sameChar_letter _ _ Hp Hs) as [_ ?].
    + cbn [matchLiteral] in Hm |- *.
      destruct (sameCharCI p c) eqn:Hs; [|done]. injection Hm as <- <-.
      destruct (sameChar_letter _ _ Hp Hs) as [Hc _].
      exists c, l. done.
  - cbn [forallb] in Hv. apply andb_true_iff in Hv as [Hq Hv].
    destruct l as [|c l]; [done|]. cbn [replaceWord] in Hm |- *.
    destruct (wordMatchesHere w prev (c :: l)) eqn:Hw.
    + cbn [matchLiteral] in Hm.
      destruct (sameCharCI p "*"%char) eqn:Hs; [|done].
      by destruct (sameChar_letter _ _ Hp Hs) as [_ ?].
    + change (matchLiteral po (p :: q :: v)
                (c :: replaceWord w 0 (Some c) l))
        with (if sameCharCI p c
              then matchLiteral (Some c) (q :: v)
                     (replaceWord w 0 (Some c) l)
              else None) in Hm.
      change (matchLiteral prev (p :: q :: v) (c :: l))
        with (if sameCharCI p c
              then matchLiteral (Some c) (q :: v) l else None).
      destruct (sameCharCI p c) eqn:Hs; [|done].
      destruct (IH q (Some c) (Some c) l Hq Hv Hm)
        as (last & rest & H1 & H2 & H3 & H4 & _).
      exists last, rest. done.
Qed.

Lemma match_here_in_output v w prev po l :
  plainWord v = true -> plainWord w = true ->
  po = prev \/ (po = Some "*"%char /\ isWordOpt (head l) = false) ->
  wordMatchesHere v po (replaceWord w 0 prev l) = true ->
  wordMatchesHere v prev l = true /\ wordMatchesHere w prev l = false.
Proof.
  intros Hv Hw Hpo Hhere. destruct v as [|p v]; [done|].
  apply plainWord_cons in Hv as [Hp Hv].
  unfold wordMatchesHere in Hhere. apply andb_true_iff in Hhere as [Hb Hm].
  destruct (matchLiteral po (p :: v) (replaceWord w 0 prev l))
    as [[lastO restO]|] eqn:Hmatch; [|done].
  destruct (match_in_output w p v prev po l lastO restO Hp Hv Hmatch)
    as (last & rest & Hl & -> & -> & Hlast & Hnot & Hhead).
  split; [|exact Hnot]. rewrite Hhead in Hb.
  assert (Hfirst : exists c l', l = c :: l' /\ isWordChar c = true).
  { destruct l as [|c l']; [done|]. cbn [matchLiteral] in Hl.
    destruct (sameCharCI p c) eqn:Hs; [|done].
    destruct (sameChar_letter _ _ Hp Hs) as [Hc _]. by exists c, l'. }
  destruct Hfirst as (c & l' & -> & Hc).
  assert (Hprev : isWordOpt prev = false).
  { destruct Hpo as [->|[_ Hbad]].
    - unfold wordBoundary in Hb. simpl in Hb. rewrite Hc in Hb.
      by destruct (isWordOpt prev).
    - simpl in Hbad. congruence. }
  unfold wordMatchesHere. rewrite Hl. apply andb_true_iff. split.
  - unfold wordBoundary. cbn [head isWordOpt]. by rewrite Hprev, Hc.
  - destruct rest as [|d rest]; [exact Hm|]. cbn [replaceWord] in Hm.
    destruct (wordMatchesHere w (Some last) (d :: rest)) eqn:Hwd; [|exact Hm].
    destruct (wordMatchesHere_head w _ _ Hw Hwd) as (c' & l'' & _ & _ & Hbad).
    cbn [isWordOpt] in Hbad. congruence.
Qed.

Lemma no_new_match v w l :
  plainWord v = true -> plainWord w = true ->
  forall k prev po,
    match k with
    | O => po = prev \/ (po = Some "*"%char /\ isWordOpt (head l) = false)
    | S _ =>
        exists wk last rest,
          length wk = k /\ forallb isLowerLetter wk = true
          /\ matchLiteral prev wk l = Some (last, rest)
          /\ wordBoundary last (head rest) = true
    end ->
    wordMatchesFrom v po (replaceWord w k prev l) = true ->
    matchesBeside v w prev l = true.
Proof.
  intros Hv Hw. induction l as [|c l IH]; intros k prev po Hinv Hfrom.
  - destruct k; cbn [replaceWord] in Hfrom;
      by rewrite (no_match_on_nil v po Hv) in Hfrom.
  - assert (Hnext : forall p wk last rest,
               isLowerLetter p = true -> forallb isLowerLetter wk = true ->
               sameCharCI p c = true ->
               matchLiteral (Some c) wk l = Some (last, rest) ->
               wordBoundary last (head rest) = true ->
               wordMatchesFrom v (Some "*"%char)
                 (replaceWord w (length wk) (Some c) l) = true ->
               matchesBeside v w (Some c) l = true).
    { intros p wk last rest Hp Hwk Hs Hm Hb Hrest.
      apply (IH (length wk) (Some c) (Some "*"%char)); [|exact Hrest].
      destruct wk as [|q wk].
      - right. split; [done|]. cbn [matchLiteral] in Hm.
        injection Hm as <- <-. destruct (sameChar_letter _ _ Hp Hs) as [Hc _].
        unfold wordBoundary in Hb. simpl in Hb. rewrite Hc in Hb.
        by destruct (isWordOpt (head l)).
      - exists (q :: wk), last, rest. done. }
    assert (Hstar : wordMatchesHere v po ("*"%char :: replaceWord w
                      (match k with O => length w - 1 | S k' => k' end)
                      (Some c) l) = false).
    { destruct v as [|p v]; [done|]. apply plainWord_cons in Hv as [Hp _].
      unfold wordMatchesHere. cbn [matchLiteral].
      destruct (sameCharCI p "*"%char) eqn:Hs; [|by rewrite andb_false_r].
      by destruct (sameChar_letter _ _ Hp Hs) as [_ ?]. }
    destruct k as [|k].
    + cbn [replaceWord] in Hfrom.
      destruct (wordMatchesHere w prev (c :: l)) eqn:Hwc.
      * cbn [wordMatchesFrom] in Hfrom. rewrite Hstar in Hfrom.
        cbn [orb] in Hfrom. cbn [matchesBeside].
        destruct w as [|p w']; [done|].
        apply plainWord_cons in Hw as [Hp Hw'].
        unfold wordMatchesHere in Hwc.
        apply andb_true_iff in Hwc as [_ Hwc]. cbn [matchLiteral] in Hwc.
        destruct (sameCharCI p c) eqn:Hs; [|done].
        destruct (matchLiteral (Some c) w' l) as [[last rest]|] eqn:Hm;
          [|done].
        replace (length (p :: w') - 1)%nat with (length w') in Hfrom
          by (cbn [length]; lia).
        rewrite (Hnext p w' last rest Hp Hw' Hs Hm Hwc Hfrom).
        by rewrite orb_true_r.
      * cbn [wordMatchesFrom] in Hfrom. cbn [matchesBeside].
        apply orb_true_iff in Hfrom as [Hhere|Hrest].
        -- assert (Hout : replaceWord w 0 prev (c :: l)
                          = c :: replaceWord w 0 (Some c) l)
             by (cbn [replaceWord]; by rewrite Hwc).
           rewrite <- Hout in Hhere.
           destruct (match_here_in_output v w prev po (c :: l) Hv Hw Hinv
                       Hhere) as [H1 H2].
           by rewrite H1, H2.
        -- rewrite (IH 0%nat (Some c) (Some c)); [by rewrite orb_true_r| |done].
           by left.
    + cbn [replaceWord] in Hfrom. cbn [wordMatchesFrom] in Hfrom.
      rewrite Hstar in Hfrom. cbn [orb] in Hfrom. cbn [matchesBeside].
      destruct Hinv as (wk & last & rest & Hlen & Hwk & Hm & Hb).
      destruct wk as [|p wk]; [done|]. cbn [forallb] in Hwk.
      apply andb_true_iff in Hwk as [Hp Hwk]. cbn [matchLiteral] in Hm.
      destruct (sameCharCI p c) eqn:Hs; [|done].
      cbn [length] in Hlen. injection Hlen as Hlen. rewrite <- Hlen in Hfrom.
      rewrite (Hnext p wk last rest Hp Hwk Hs Hm Hb Hfrom).
      by rewrite orb_true_r.
Qed.

Lemma replaceWord_clean v w l :
  plainWord v = true -> plainWord w = true ->
  v = w \/ wordMatchesFrom v None l = false ->
  wordMatchesFrom v None (replaceWord w 0 None l) = false.
Proof.
  intros Hv Hw Hcase.
  destruct (wordMatchesFrom v None (replaceWord w 0 None l)) eqn:Hfrom;
    [|done].
  pose proof (no_new_match v w l Hv Hw 0%nat None None (or_introl eq_refl)
                Hfrom) as Hbeside.
  destruct Hcase as [->|Hno].
  - by rewrite matchesBeside_same in Hbeside.
  - apply matchesBeside_matches in Hbeside. congruence.
Qed.

Lemma filter_words_clean (finished words : list string) content :
  (forall word, In word (finished ++ words) -> plainWord (chars word) = true) ->
  (forall word, In word finished ->
                wordMatchesFrom (chars word) None (chars content) = false) ->
  forall word, In word (finished ++ words) ->
    wordMatchesFrom (chars word) None
      (chars (foldl (fun filtered word =>
                       text (replaceWord (chars word) 0 None (chars filtered)))
                content words)) = false.
Proof.
  revert finished content. induction words as [|w words IH];
    intros finished content Hplain Hclean word Hin.
  - rewrite app_nil_r in Hin. by apply Hclean.
  - cbn [foldl]. apply (IH (finished ++ [w])).
    + intros u Hu. apply Hplain. by rewrite <- app_assoc in Hu.
    + intros u Hu. rewrite chars_text. apply replaceWord_clean.
      * apply Hplain. apply in_app_iff in Hu as [Hu|[<-|[]]];
          apply in_app_iff; [by left|right; by left].
      * apply Hplain. apply in_app_iff. right. by left.
      * apply in_app_iff in Hu as [Hu|[<-|[]]]; [right; by apply Hclean|].
        by left.
    + by rewrite <- app_assoc.
Qed.

(** X8.  What [filterProfanity] returns holds no match of any of its
    patterns: for every word of the list, the pattern of that word between
    two word boundaries, with the flag [i], finds nothing in the result. *)
Theorem filterProfanity_result_clean content :
  forall word, In word PROFANITY_LIST ->
    regexTestWord word (filterProfanity content) = false.
Proof.
  intros word Hin. unfold regexTestWord, filterProfanity.
  apply (filter_words_clean [] PROFANITY_LIST content); try done.
  intros w Hw. by apply profanity_words_plain.
Qed.

End FilterLeavesNothing.

Lemma filterProfanity_result_clean_witness :
  In "damn" Validation.PROFANITY_LIST
  /\ Validation.regexTestWord "damn" "Damn, what an ASS. Classy!" = true
  /\ Validation.regexTestWord "damn"
       (Validation.filterProfanity "Damn, what an ASS. Classy!")
     = false.
Proof.
  assert (H : In "damn" Validation.PROFANITY_LIST)
    by (unfold Validation.PROFANITY_LIST; cbn [In]; right; right; left;
        reflexivity).
  split; [exact H|]. split; [vm_compute; reflexivity|].
  exact (filterProfanity_result_clean _ _ H).
Defined.

(** ** The story manager: roster, growth and export *)

Section RosterFacts.
Import StoryManager.

Lemma find_name_None (l : list Participant.t) name :
  find (fun p => bool_decide (Participant.name p = name)) l = None ->
  ~ In name (map Participant.name l).
Proof.
  intros Hfind Hin. apply in_map_iff in Hin as (p & Hp & Hin).
  pose proof (find_none _ _ Hfind p Hin) as Hno. cbv beta in Hno.
  by apply bool_decide_eq_false in Hno.
Qed.

Lemma addParticipant_lookup (m : gmap string Session.t) sid session p now :
  m !! sid = Some session ->
  exists session',
    addParticipant m sid p now !! sid = Some session'
    /\ Session.participants session'
       = (if bool_decide (Participant.name p
                            ∈ map Participant.name
                                (Session.participants session))
          then Session.participants session
          else Session.participants session ++ [p])
    /\ Session.segments session' = Session.segments session
    /\ Session.id session' = Session.id session
    /\ Session.title session' = Session.title session
    /\ Session.startingPrompt session' = Session.startingPrompt session
    /\ Session.createdAt session' = Session.createdAt session
    /\ Session.lastActivityAt session' = now.
Proof.
  intros Hm. unfold addParticipant. rewrite Hm. eexists.
  rewrite lookup_insert_eq. split; [reflexivity|]. cbn.
  split; [|done].
  destruct (find _ (Session.participants session)) as [q|] eqn:Hfind.
  - rewrite bool_decide_eq_true_2; [done|].
    apply find_some in Hfind as [Hq Hname].
    apply bool_decide_eq_true in Hname. rewrite <- Hname.
    by apply list_elem_of_In, in_map.
  - rewrite bool_decide_eq_false_2; [done|].
    intros Hin%list_elem_of_In. by apply (find_name_None _ _ Hfind).
Qed.

Lemma addParticipant_lookup_ne (m : gmap string Session.t) sid sid' p now :
  sid <> sid' -> addParticipant m sid p now !! sid' = m !! sid'.
Proof.
  intros Hne. unfold addParticipant. destruct (m !! sid); [|done].
  by rewrite lookup_insert_ne.
Qed.

Lemma addParticipant_distinct (m : gmap string Session.t) sid p now :
  distinctNames m -> distinctNames (addParticipant m sid p now).
Proof.
  intros Hd sid' s' Hs'. destruct (decide (sid = sid')) as [<-|Hne].
  - destruct (m !! sid) as [session|] eqn:Hm.
    + destruct (addParticipant_lookup m sid session p now Hm)
        as (s'' & Hl & Hp & _).
      rewrite Hl in Hs'. injection Hs' as <-. rewrite Hp.
      case_bool_decide as Hin; [by apply (Hd sid)|].
      rewrite map_app. apply NoDup_app. split; [by apply (Hd sid)|].
      split; [|apply NoDup_singleton].
      intros name Hname ->%list_elem_of_singleton. by apply Hin.
    + unfold addParticipant in Hs'. rewrite Hm in Hs'. by apply (Hd sid).
  - rewrite addParticipant_lookup_ne in Hs' by done. by apply (Hd sid').
Qed.

Lemma addSegment_distinct (m : gmap string Session.t) sid segment now :
  distinctNames m -> distinctNames (addSegment m sid segment now).
Proof.
  intros Hd sid' s' Hs'. destruct (decide (sid = sid')) as [<-|Hne].
  - destruct (m !! sid) as [session|] eqn:Hm.
    + destruct (addSegment_lookup m sid session segment now Hm)
        as (s'' & Hl & _ & Hp & _).
      rewrite Hl in Hs'. injection Hs' as <-. rewrite Hp. by apply (Hd sid).
    + rewrite addSegment_missing in Hs' by done. by apply (Hd sid).
  - rewrite addSegment_lookup_ne in Hs' by done. by apply (Hd sid').
Qed.

Lemma createSession_distinct (m : gmap string Session.t) title prompt uuid
    now :
  distinctNames m ->
  distinctNames (snd (createSession m title prompt uuid now)).
Proof.
  intros Hd sid' s' Hs'. simpl in Hs'.
  destruct (decide (uuid = sid')) as [<-|Hne].
  - rewrite lookup_insert_eq in Hs'. injection Hs' as <-. constructor.
  - rewrite lookup_insert_ne in Hs' by done. by apply (Hd sid').
Qed.

Lemma calls_distinct (m : gmap string Session.t) history :
  distinctNames m -> distinctNames (calls m history).
Proof.
  revert m. induction history as [|c history IH]; intros m Hm; [done|].
  simpl. apply IH. destruct c; simpl.
  - by apply (createSession_distinct m).
  - by apply addParticipant_distinct.
  - by apply addSegment_distinct.
Qed.

Lemma step_distinct σ i :
  distinctNames (Gateway.storyManager σ) ->
  distinctNames (Gateway.storyManager (fst (Gateway.step σ i))).
Proof.
  intros Hd. destruct i as [socket title prompt userName uuid now
                           |socket sid userName now
                           |socket sid pid
                           |socket sid content uuid now
                           |a result uuid now]; simpl.
  - apply addParticipant_distinct.
    by apply (createSession_distinct _ title prompt uuid now).
  - unfold Gateway.on_session_join. destruct (getSession _ _); simpl; [|done].
    by apply addParticipant_distinct.
  - unfold Gateway.on_session_reconnect. by destruct (getSession _ _).
  - destruct (on_segment_add_cases σ socket sid content uuid now)
      as [[-> _]|(session & segment & _ & -> & _)]; [done|].
    by apply addSegment_distinct.
  - unfold Gateway.resume_segment_add. destruct result; simpl; [|done].
    by apply addSegment_distinct.
Qed.

(** X9.  Roster names stay distinct: in every registry the calls of the
    class produce, and in every server state the handlers reach, no session
    lists two participants with the same name. *)
Theorem roster_names_distinct :
  (forall history, distinctNames (calls ∅ history))
  /\ (forall inputs,
        distinctNames
          (Gateway.storyManager (fst (Gateway.run Gateway.initial inputs)))).
Proof.
  assert (Hempty : distinctNames ∅).
  { intros sid s Hs. by rewrite lookup_empty in Hs. }
  split; [intros history; by apply calls_distinct|].
  intros inputs.
  assert (Hinit : distinctNames (Gateway.storyManager Gateway.initial))
    by exact Hempty.
  revert Hinit. generalize Gateway.initial.
  induction inputs as [|i inputs IH]; intros σ Hσ; [done|].
  rewrite run_cons. cbn [fst]. apply IH. by apply step_distinct.
Qed.

(** X10.  [addParticipant] on a session that exists: a participant whose name
    is already on the roster is not added and the earlier entry stays as it
    is, with its id and join time; a new name is appended at the end.  The
    log and the other fields are untouched except [lastActivityAt], and so is
    every other session. *)
Theorem addParticipant_effect (m : gmap string Session.t) sid session p now :
  m !! sid = Some session ->
  exists session',
    addParticipant m sid p now !! sid = Some session'
    /\ (In (Participant.name p)
          (map Participant.name (Session.participants session)) ->
        Session.participants session' = Session.participants session)
    /\ (~ In (Participant.name p)
            (map Participant.name (Session.participants session)) ->
        Session.participants session' = Session.participants session ++ [p])
    /\ Session.segments session' = Session.segments session
    /\ Session.title session' = Session.title session
    /\ Session.createdAt session' = Session.createdAt session
    /\ Session.lastActivityAt session' = now
    /\ (forall sid', sid <> sid' ->
          addParticipant m sid p now !! sid' = m !! sid').
Proof.
  intros Hm.
  destruct (addParticipant_lookup m sid session p now Hm)
    as (s' & Hl & Hp & Hseg & _ & Htitle & _ & Hcreated & Hlast).
  exists s'. split; [exact Hl|]. split; [|split].
  - intros Hin%list_elem_of_In. by rewrite Hp, bool_decide_eq_true_2.
  - intros Hin. rewrite Hp, bool_decide_eq_false_2; [done|].
    by intros Hin'%list_elem_of_In.
  - repeat (split; [done|]). intros sid' Hne.
    by apply addParticipant_lookup_ne.
Qed.

(** X11.  Append growth: [addSegment] on a session that exists makes its log
    exactly one segment longer, with the new segment in it, and leaves its
    roster and title and every other session as they were. *)
Theorem addSegment_effect (m : gmap string Session.t) sid session segment now :
  m !! sid = Some session ->
  exists session',
    addSegment m sid segment now !! sid = Some session'
    /\ length (Session.segments session')
       = S (length (Session.segments session))
    /\ In segment (Session.segments session')
    /\ (forall s, In s (Session.segments session) ->
                  In s (Session.segments session'))
    /\ Session.participants session' = Session.participants session
    /\ Session.title session' = Session.title session
    /\ (forall sid', sid <> sid' ->
          addSegment m sid segment now !! sid' = m !! sid').
Proof.
  intros Hm.
  destruct (addSegment_lookup m sid session segment now Hm)
    as (s' & Hl & Hseg & Hp & _ & Htitle).
  pose proof (sortByTimestamp_Permutation (Session.segments session ++ [segment]))
    as Hperm. rewrite <- Hseg in Hperm.
  exists s'. split; [exact Hl|]. split.
  { rewrite (Permutation_length Hperm), length_app. simpl. lia. }
  split.
  { eapply Permutation_in; [symmetry; exact Hperm|].
    apply in_or_app. right. by left. }
  split.
  { intros s Hs. eapply Permutation_in; [symmetry; exact Hperm|].
    apply in_or_app. by left. }
  repeat (split; [done|]). intros sid' Hne. by apply addSegment_lookup_ne.
Qed.

End RosterFacts.

Lemma addParticipant_effect_witness :
  let m := StoryManager.calls ∅
             [StoryManager.CreateSession "Test" None "session-1" 0;
              StoryManager.AddParticipant "session-1"
                (Participant.make "socket-1" "Ann" 1) 1] in
  m !! "session-1"
  = Some (Session.make "session-1" "Test" None
            [Participant.make "socket-1" "Ann" 1] [] 0 1)
  /\ exists session',
       StoryManager.addParticipant m "session-1"
         (Participant.make "socket-9" "Ann" 50) 50 !! "session-1"
       = Some session'
       /\ Session.participants session'
          = [Participant.make "socket-1" "Ann" 1]
       /\ Session.lastActivityAt session' = 50.
Proof.
  intros m.
  assert (H : m !! "session-1"
              = Some (Session.make "session-1" "Test" None
                        [Participant.make "socket-1" "Ann" 1] [] 0 1))
    by (vm_compute; reflexivity).
  split; [exact H|].
  destruct (addParticipant_effect m "session-1" _
              (Participant.make "socket-9" "Ann" 50) 50 H)
    as (s' & Hl & Hsame & _ & Hseg & Htitle & Hcreated & Hlast & _).
  exists s'. split; [exact Hl|]. split; [|exact Hlast].
  apply Hsame. left. reflexivity.
Defined.

Lemma addSegment_effect_witness :
  let m := StoryManager.calls ∅
             [StoryManager.CreateSession "Test" None "session-1" 0] in
  m !! "session-1" = Some (Session.make "session-1" "Test" None [] [] 0 0)
  /\ exists session',
       StoryManager.addSegment m "session-1"
         (Segment.make "s1" "A knock." "socket-1" user 100 []) 100
         !! "session-1" = Some session'
       /\ length (Session.segments session') = 1%nat.
Proof.
  intros m.
  assert (H : m !! "session-1"
              = Some (Session.make "session-1" "Test" None [] [] 0 0))
    by (vm_compute; reflexivity).
  split; [exact H|].
  destruct (addSegment_effect m "session-1" _
              (Segment.make "s1" "A knock." "socket-1" user 100 []) 100 H)
    as (s' & Hl & Hlen & _).
  exists s'. split; [exact Hl|exact Hlen].
Defined.

(** ** Export *)

Section ExportFacts.
Import StoryManager.

Lemma append_assoc (a b c : string) : (a +:+ b) +:+ c = a +:+ b +:+ c.
Proof.
  induction a as [|x a IH]; [done|].
  change (String x ((a +:+ b) +:+ c) = String x (a +:+ b +:+ c)).
  by rewrite IH.
Qed.

Lemma append_nil_r (a : string) : a +:+ "" = a.
Proof.
  induction a as [|x a IH]; [done|].
  change (String x (a +:+ "") = String x a). by rewrite IH.
Qed.

Lemma occursIn_middle (before needle after : string) :
  occursIn needle (before +:+ needle +:+ after).
Proof. by exists before, after. Qed.

Lemma occursIn_trans (a b c : string) :
  occursIn a b -> occursIn b c -> occursIn a c.
Proof.
  intros (p & q & ->) (p' & q' & ->). exists (p' +:+ p), (q +:+ q').
  by rewrite !append_assoc.
Qed.

Lemma occursIn_append_l (a b c : string) :
  occursIn a b -> occursIn a (b +:+ c).
Proof.
  intros (p & q & ->). exists p, (q +:+ c). by rewrite !append_assoc.
Qed.

Lemma occursIn_append_r (a b c : string) :
  occursIn a c -> occursIn a (b +:+ c).
Proof.
  intros (p & q & ->). exists (b +:+ p), q. by rewrite !append_assoc.
Qed.

(** A loop that only appends a piece per element appends the pieces to
    whatever it started with. *)
Lemma foldl_append_rest {A} (f : string -> A -> string) (piece : A -> string)
    (l : list A) :
  (forall out x, f out x = out +:+ piece x) ->
  exists rest, forall out, foldl f out l = out +:+ rest.
Proof.
  intros Hf. induction l as [|x l [rest IH]].
  - exists "". intros out. by rewrite append_nil_r.
  - exists (piece x +:+ rest). intros out. simpl.
    by rewrite IH, Hf, append_assoc.
Qed.

Lemma foldl_append_occurs {A} (f : string -> A -> string)
    (piece : A -> string) (l : list A) (out : string) (x : A) :
  (forall out x, f out x = out +:+ piece x) ->
  In x l -> occursIn (piece x) (foldl f out l).
Proof.
  intros Hf. revert out. induction l as [|y l IH]; intros out; [done|].
  intros [->|Hin]; simpl; [|by apply IH].
  destruct (foldl_append_rest f piece l Hf) as [rest ->].
  rewrite Hf, append_assoc. apply occursIn_middle.
Qed.

Lemma foldl_append_start {A} (f : string -> A -> string)
    (piece : A -> string) (l : list A) (out needle : string) :
  (forall out x, f out x = out +:+ piece x) ->
  occursIn needle out -> occursIn needle (foldl f out l).
Proof.
  intros Hf Hocc. destruct (foldl_append_rest f piece l Hf) as [rest ->].
  by apply occursIn_append_l.
Qed.

(** X12.  The text export of a session that exists returns normally; the
    result starts with the title line, lists the roster names joined by
    commas, and holds, for every segment of the log, the line
    [[name] content] followed by an empty line, where the name is that of the
    first participant whose id is the segment's contributor id and the
    contributor id itself when there is none. *)
Theorem export_text_complete (toISOString toLocaleString : Z -> string)
    (m : gmap string Session.t) sessionId session :
  m !! sessionId = Some session ->
  exists out,
    exportSession toISOString toLocaleString m sessionId text_format
    = Returns out
    /\ (exists rest, out = Session.title session +:+ newline +:+ rest)
    /\ occursIn ("Participants: "
                 +:+ join ", " (map Participant.name
                                  (Session.participants session))
                 +:+ newline +:+ newline) out
    /\ forall segment,
         In segment (Session.segments session) ->
         occursIn ("["
                   +:+ match contributorOf session segment with
                       | Some contributor => Participant.name contributor
                       | None => Segment.contributorId segment
                       end
                   +:+ "] " +:+ Segment.content segment
                   +:+ newline +:+ newline) out.
Proof.
  intros Hm. unfold exportSession. rewrite Hm. eexists.
  split; [reflexivity|]. unfold exportAsText. cbv zeta.
  set (piece := fun segment : Segment.t =>
         "[" +:+ match contributorOf session segment with
                 | Some contributor => Participant.name contributor
                 | None => Segment.contributorId segment
                 end
         +:+ "] " +:+ Segment.content segment +:+ newline +:+ newline).
  set (f := fun (output : string) (segment : Segment.t) => _).
  assert (Hf : forall out x, f out x = out +:+ piece x) by done.
  split; [|split].
  - destruct (foldl_append_rest f piece (Session.segments session) Hf)
      as [rest ->].
    rewrite !append_assoc. by eexists.
  - apply (foldl_append_start f piece); [done|].
    apply occursIn_append_r. exists "", "".
    unfold participantNames. by rewrite !append_assoc, append_nil_r.
  - intros segment Hin.
    apply (foldl_append_occurs f piece _ _ segment Hf Hin).
Qed.

(** X13.  The HTML export of a session that exists returns normally; the
    result runs from [<!DOCTYPE html>] to [</body></html>] with the
    title in its [<title>] and [<h1>], and holds one [div] per segment of the
    log, of class [ai-segment] for a segment of the AI and [user-segment]
    otherwise, with the contributor's name and the content as stored.
    Title, names and content are inserted as they are, without escaping. *)
Theorem export_html_complete (toISOString toLocaleString : Z -> string)
    (m : gmap string Session.t) sessionId session :
  m !! sessionId = Some session ->
  exists out,
    exportSession toISOString toLocaleString m sessionId html_format
    = Returns out
    /\ (exists rest,
          out = "<!DOCTYPE html><html><head><meta charset=" +:+ rest)
    /\ (exists body, out = body +:+ "</body></html>")
    /\ occursIn ("<title>" +:+ Session.title session +:+ "</title>") out
    /\ occursIn ("<h1>" +:+ Session.title session +:+ "</h1>") out
    /\ forall segment,
         In segment (Session.segments session) ->
         occursIn ("<div class=" +:+ dquote +:+ "segment "
                   +:+ match Segment.contributorType segment with
                       | ai => "ai-segment"
                       | user => "user-segment"
                       end
                   +:+ dquote +:+ "><span class=" +:+ dquote
                   +:+ "contributor" +:+ dquote +:+ ">"
                   +:+ match contributorOf session segment with
                       | Some contributor => Participant.name contributor
                       | None =>
                           match Segment.contributorType segment with
                           | ai => "AI Co-Author"
                           | user => Segment.contributorId segment
                           end
                       end
                   +:+ ":</span> " +:+ Segment.content segment
                   +:+ "</div>") out.
Proof.
  intros Hm. unfold exportSession. rewrite Hm. eexists.
  split; [reflexivity|]. unfold exportAsHtml. cbv zeta.
  set (piece := fun segment : Segment.t =>
         "<div class=" +:+ dquote +:+ "segment "
         +:+ match Segment.contributorType segment with
             | ai => "ai-segment"
             | user => "user-segment"
             end
         +:+ dquote +:+ "><span class=" +:+ dquote
         +:+ "contributor" +:+ dquote +:+ ">"
         +:+ match contributorOf session segment with
             | Some contributor => Participant.name contributor
             | None =>
                 match Segment.contributorType segment with
                 | ai => "AI Co-Author"
                 | user => Segment.contributorId segment
                 end
             end
         +:+ ":</span> " +:+ Segment.content segment +:+ "</div>").
  set (f := fun (output : string) (segment : Segment.t) => _).
  assert (Hf : forall out x, f out x = out +:+ piece x) by done.
  destruct (foldl_append_rest f piece (Session.segments session) Hf)
    as [rest Hrest].
  split; [|split; [|split; [|split]]].
  - rewrite Hrest, !append_assoc. by eexists.
  - by eexists.
  - apply occursIn_append_l, (foldl_append_start f piece); [done|].
    do 6 apply occursIn_append_l.
    exists ("<!DOCTYPE html><html><head><meta charset=" +:+ dquote
            +:+ "UTF-8" +:+ dquote +:+ ">"), "".
    rewrite !append_assoc. reflexivity.
  - apply occursIn_append_l, (foldl_append_start f piece); [done|].
    do 2 apply occursIn_append_l. apply occursIn_append_r.
    exists "", "". rewrite !append_assoc. reflexivity.
  - intros segment Hin. apply occursIn_append_l.
    apply (foldl_append_occurs f piece _ _ segment Hf Hin).
Qed.

End ExportFacts.

Lemma export_text_complete_witness :
  exists out,
    StoryManager.exportSession (fun _ => "") (fun _ => "")
      StoryManager.sessionAfterExportScenario "session-1" StoryManager.text_format
    = Returns out
    /\ occursIn ("[Ann] A knock." +:+ newline +:+ newline) out.
Proof.
  destruct (export_text_complete (fun _ => "") (fun _ => "")
              StoryManager.sessionAfterExportScenario "session-1" _ eq_refl)
    as (out & Hout & _ & _ & Hseg).
  exists out. split; [exact Hout|].
  apply (Hseg (Segment.make "s1" "A knock." "socket-1" user 100 [])).
  left. reflexivity.
Defined.

Lemma export_html_complete_witness :
  exists out,
    StoryManager.exportSession (fun _ => "") (fun _ => "")
      StoryManager.sessionAfterExportScenario "session-1" StoryManager.html_format
    = Returns out
    /\ occursIn ("<h1>Test</h1>") out.
Proof.
  destruct (export_html_complete (fun _ => "") (fun _ => "")
              StoryManager.sessionAfterExportScenario "session-1" _ eq_refl)
    as (out & Hout & _ & _ & _ & Htitle & _).
  exists out. split; [exact Hout|exact Htitle].
Defined.

(** ** The gateway: what every reachable state and every step satisfy *)

Section GatewayInvariants.
Import StoryManager Gateway.

Ltac by_input i :=
  destruct i as [socket title prompt userName uuid now
                |socket sid' userName now
                |socket sid' pid
                |socket sid' content uuid now
                |a result uuid now]; simpl.

Lemma everySegment_createSession P (m : gmap string Session.t) title prompt
    uuid now :
  everySegment P m ->
  everySegment P (snd (createSession m title prompt uuid now)).
Proof.
  intros Hm sid s seg Hs Hin. simpl in Hs.
  destruct (decide (uuid = sid)) as [<-|Hne].
  - rewrite lookup_insert_eq in Hs. injection Hs as <-. destruct Hin.
  - rewrite lookup_insert_ne in Hs by done. by apply (Hm sid s).
Qed.

Lemma everySegment_addParticipant P (m : gmap string Session.t) sid p now :
  everySegment P m -> everySegment P (addParticipant m sid p now).
Proof.
  intros Hm sid' s' seg Hs' Hin. destruct (decide (sid = sid')) as [<-|Hne].
  - destruct (m !! sid) as [session|] eqn:Hsession.
    + destruct (addParticipant_lookup m sid session p now Hsession)
        as (s'' & Hl & _ & Hseg & _).
      rewrite Hl in Hs'. injection Hs' as <-. rewrite Hseg in Hin.
      by apply (Hm sid session).
    + unfold addParticipant in Hs'. rewrite Hsession in Hs'.
      by apply (Hm sid s').
  - rewrite addParticipant_lookup_ne in Hs' by done. by apply (Hm sid' s').
Qed.

Lemma everySegment_addSegment (P : Segment.t -> Prop)
    (m : gmap string Session.t) sid segment now :
  P segment -> everySegment P m ->
  everySegment P (addSegment m sid segment now).
Proof.
  intros Hsegment Hm sid' s' seg Hs' Hin.
  destruct (decide (sid = sid')) as [<-|Hne].
  - destruct (m !! sid) as [session|] eqn:Hsession.
    + destruct (addSegment_lookup m sid session segment now Hsession)
        as (s'' & Hl & Hseg & _).
      rewrite Hl in Hs'. injection Hs' as <-. rewrite Hseg in Hin.
      eapply Permutation_in in Hin; [|apply sortByTimestamp_Permutation].
      apply in_app_or in Hin as [Hin|[<-|[]]]; [|done].
      by apply (Hm sid session).
    + rewrite addSegment_missing in Hs' by done. by apply (Hm sid s').
  - rewrite addSegment_lookup_ne in Hs' by done. by apply (Hm sid' s').
Qed.

(** What the two places that build a segment put into it carries over to
    every log. *)
Lemma step_everySegment (P : Segment.t -> Prop) σ i :
  (forall content uuid contributor now,
      Validation.valid (Validation.validateSegment content) = true ->
      P {| Segment.id := uuid;
           Segment.content := Validation.sanitizeInput content;
           Segment.contributorId := contributor;
           Segment.contributorType := user;
           Segment.timestamp := now;
           Segment.moodTags := [] |}) ->
  (forall uuid horrorElement now,
      P {| Segment.id := uuid;
           Segment.content := he_content horrorElement;
           Segment.contributorId := "ai-coauthor";
           Segment.contributorType := ai;
           Segment.timestamp := now;
           Segment.moodTags := he_tags horrorElement |}) ->
  everySegment P (storyManager σ) ->
  everySegment P (storyManager (fst (step σ i))).
Proof.
  intros Huser Hai Hσ. by_input i.
  - apply everySegment_addParticipant.
    by apply (everySegment_createSession P _ title prompt uuid now).
  - unfold on_session_join. destruct (getSession _ _); simpl; [|done].
    by apply everySegment_addParticipant.
  - unfold on_session_reconnect. by destruct (getSession _ _).
  - destruct (Validation.valid (Validation.validateSegment content)) eqn:Hv.
    + destruct (storyManager σ !! sid') as [session|] eqn:Hs.
      * destruct (on_segment_add_success σ socket sid' content uuid now
                    session Hv Hs) as (-> & _).
        simpl. apply everySegment_addSegment; [|done]. by apply Huser.
      * by rewrite (on_segment_add_missing _ _ _ _ _ _ Hv Hs).
    + destruct (on_segment_add_invalid σ socket sid' content uuid now Hv)
        as [message ->]. done.
  - unfold resume_segment_add. destruct result; simpl; [|done].
    apply everySegment_addSegment; [|done]. apply Hai.
Qed.

Lemma run_everySegment (P : Segment.t -> Prop) σ inputs :
  (forall content uuid contributor now,
      Validation.valid (Validation.validateSegment content) = true ->
      P {| Segment.id := uuid;
           Segment.content := Validation.sanitizeInput content;
           Segment.contributorId := contributor;
           Segment.contributorType := user;
           Segment.timestamp := now;
           Segment.moodTags := [] |}) ->
  (forall uuid horrorElement now,
      P {| Segment.id := uuid;
           Segment.content := he_content horrorElement;
           Segment.contributorId := "ai-coauthor";
           Segment.contributorType := ai;
           Segment.timestamp := now;
           Segment.moodTags := he_tags horrorElement |}) ->
  everySegment P (storyManager σ) ->
  everySegment P (storyManager (fst (run σ inputs))).
Proof.
  intros Huser Hai. revert σ.
  induction inputs as [|i inputs IH]; intros σ Hσ; [done|].
  rewrite run_cons. cbn [fst]. apply IH. by apply step_everySegment.
Qed.

(** X14.  Whatever the clients send, in whatever order: every segment a
    user typed that sits in a log of the server has passed the validator.
    Its content is between 1 and 500 characters long, trimmed, free of
    complete tags and of profanity-list words, and validates again to
    itself; it carries no mood tags.  Every segment of the AI is attributed
    to [ai-coauthor]. *)
Theorem logged_content_checked inputs sessionId session segment :
  storyManager (fst (run initial inputs)) !! sessionId = Some session ->
  In segment (Session.segments session) ->
  match Segment.contributorType segment with
  | user =>
      let content := Segment.content segment in
      (1 <= String.length content <= 500)%nat
      /\ Validation.trim content = content
      /\ Validation.completeTag (Validation.chars content) = false
      /\ Validation.containsProfanity content = false
      /\ Validation.validateSegment content
         = {| Validation.valid := true; Validation.error := None;
              Validation.sanitized := Some content |}
      /\ Segment.moodTags segment = []
  | ai => Segment.contributorId segment = "ai-coauthor"
  end.
Proof.
  intros Hs Hin.
  refine (run_everySegment
            (fun segment =>
               match Segment.contributorType segment with
               | user => _
               | ai => _
               end) initial inputs _ _ _ sessionId session segment Hs Hin).
  - intros content uuid contributor now Hv. cbn.
    destruct (validateSegment_valid_checks content Hv) as (H1 & H2 & H3).
    pose proof (sanitizeInput_trimmed content) as Htrim.
    pose proof (sanitizeInput_fixed content) as Hfixed.
    assert (Hlen : (1 <= String.length (Validation.sanitizeInput content)
                    <= 500)%nat).
    { unfold Validation.isValidLength in H2. rewrite Htrim in H2.
      apply andb_true_iff in H2 as [Hlo Hhi]. apply Nat.leb_le in Hlo, Hhi.
      unfold Validation.MIN_SEGMENT_LENGTH in Hlo.
      unfold Validation.MAX_SEGMENT_LENGTH in Hhi. lia. }
    split; [exact Hlen|]. split; [exact Htrim|].
    split; [apply sanitizeInput_no_tag|]. split; [exact H3|].
    split; [|done].
    rewrite <- Hfixed at 2. apply validateSegment_accepts.
    + unfold Validation.hasContent. rewrite Htrim. apply Nat.ltb_lt. lia.
    + by rewrite Hfixed.
    + by rewrite Hfixed.
  - done.
  - intros sid s seg Hsid. simpl in Hsid. by rewrite lookup_empty in Hsid.
Qed.

(** A step's events reach the requester and the room the input is about,
    nobody else. *)
Lemma step_recipients σ i recipients event :
  In (Delivered recipients event) (snd (step σ i)) ->
  forall c, c ∈ recipients ->
    requester i = Some c \/ c ∈ members (fst (step σ i)) (addressed i).
Proof.
  intros Hin c Hc. revert Hin. by_input i; intros Hin.
  - destruct Hin as [[= <- _]|[]]. left. f_equal. set_solver.
  - unfold on_session_join in *. destruct (getSession _ _); simpl in *.
    + destruct Hin as [[= <- _]|[[= <- _]|[]]].
      * left. f_equal. set_solver.
      * right. by apply elem_of_difference in Hc as [Hc _].
    + destruct Hin as [[= <- _]|[]]. left. f_equal. set_solver.
  - unfold on_session_reconnect in *. destruct (getSession _ _); simpl in *.
    + destruct Hin as [[= <- _]|[[= <- _]|[]]]; left; f_equal; set_solver.
    + destruct Hin as [[= <- _]|[]]. left. f_equal. set_solver.
  - destruct (on_segment_add_cases σ socket sid' content uuid now)
      as [[Hσ (message & code & He)]
         |(session & segment & _ & Hσ & He)];
      rewrite He in Hin; rewrite Hσ.
    + destruct Hin as [[= <- _]|[]]. left. f_equal. set_solver.
    + destruct Hin as [[=]|[[= <- _]|[[= <- _]|[[= <- _]|[]]]]].
      * right. by rewrite members_with_manager.
      * left. f_equal. set_solver.
      * left. f_equal. set_solver.
  - unfold resume_segment_add in *. destruct result; simpl in *.
    + right. apply in_app_or in Hin as [Hin|[[= <- _]|[]]].
      * destruct (getSession _ _); [|done]. by destruct Hin as [[=]|[]].
      * done.
    + destruct Hin as [[= <- _]|[]]. by right.
Qed.

(** X15.  Events stay in the room: a connection that is not the requester
    of a step and is not in the room the step is about, once the step is
    done, receives nothing from it. *)
Theorem events_stay_in_room σ i c :
  requester i <> Some c ->
  c ∉ members (fst (step σ i)) (addressed i) ->
  observed c (snd (step σ i)) = [].
Proof.
  intros Hreq Hroom. unfold observed.
  assert (H : forall e, In e (snd (step σ i)) ->
            match e with
            | Delivered recipients event =>
                if bool_decide (c ∈ recipients) then Some event else None
            | Appended _ _ => None
            end = None).
  { intros [sid seg|recipients event] Hin; [done|].
    case_bool_decide as Hc; [|done].
    by destruct (step_recipients σ i recipients event Hin c Hc). }
  induction (snd (step σ i)) as [|e es IH]; [done|]. simpl.
  rewrite (H e) by (by left). apply IH. intros e' He'. apply H. by right.
Qed.

(** A [segment:add] handler that goes on to await the generator has
    appended the user's segment and sent it, with the acknowledgement, before
    the [await]. *)
Lemma awaiting_after_append σ socket sid content uuid now a :
  awaiting (on_segment_add σ socket sid content uuid now) = Some a ->
  aw_sessionId a = sid
  /\ exists segment,
       effects (on_segment_add σ socket sid content uuid now)
       = [Appended sid segment;
          Delivered (members σ sid) (segment_added segment);
          Delivered {[socket]} (segment_added segment);
          Delivered {[socket]} (segment_acknowledged uuid)]
       /\ Segment.contributorType segment = user
       /\ Segment.content segment = Validation.sanitizeInput content
       /\ In segment (aw_context a).
Proof.
  intros Ha.
  destruct (Validation.valid (Validation.validateSegment content)) eqn:Hv.
  - destruct (storyManager σ !! sid) as [session|] eqn:Hs.
    + destruct (on_segment_add_success σ socket sid content uuid now
                  session Hv Hs) as (_ & He & Hlog & Hawait).
      cbv zeta in He, Hlog, Hawait. rewrite Hawait in Ha.
      destruct (_ && _); [|discriminate]. injection Ha as <-.
      cbn [aw_sessionId aw_context]. split; [done|].
      eexists. split; [exact He|]. split; [done|]. split; [done|].
      rewrite Hlog.
      eapply Permutation_in; [symmetry; apply sortByTimestamp_Permutation|].
      apply in_or_app. right. by left.
    + by rewrite (on_segment_add_missing _ _ _ _ _ _ Hv Hs) in Ha.
  - destruct (on_segment_add_invalid σ socket sid content uuid now Hv)
      as [message He]. by rewrite He in Ha.
Qed.


End GatewayInvariants.

Lemma logged_content_checked_witness :
  Validation.containsProfanity (Segment.content Gateway.segmentB) = false.
Proof.
  pose proof (logged_content_checked Gateway.twoClientScenario "session-1"
                Gateway.sessionAfterScenario Gateway.segmentB scenario_state
                (or_intror (or_introl eq_refl))) as H.
  cbv beta iota delta [Segment.contributorType Gateway.segmentB] in H.
  cbv zeta in H. apply H.
Defined.

Lemma events_stay_in_room_witness :
  Gateway.observed "socket-2"
    (snd (Gateway.step Gateway.initial
            (Gateway.SessionCreate "socket-1" "Test" None "Ann" "session-1"
               1000)))
  = [].
Proof.
  apply events_stay_in_room.
  - discriminate.
  - refine (bool_decide_unpack _ _). vm_compute. exact I.
Defined.


(** ** The gateway: who a segment is attributed to *)

Section Attribution.
Import StoryManager Gateway.

Lemma orElse_same (a : string) : orElse a a = a.
Proof. unfold orElse. by case_bool_decide. Qed.

Lemma participantIdOf_set σ socket sid pid :
  participantIdOf (set_socket_data σ socket sid pid) socket
  = orElse pid socket.
Proof.
  unfold participantIdOf, set_socket_data. simpl.
  by rewrite lookup_insert_eq.
Qed.

Lemma participantIdOf_with_manager σ m socket :
  participantIdOf (with_manager σ m) socket = participantIdOf σ socket.
Proof. reflexivity. Qed.

Lemma participantIdOf_socket_join σ socket room c :
  participantIdOf (socket_join σ socket room) c = participantIdOf σ c.
Proof. reflexivity. Qed.

Lemma find_id_None (l : list Participant.t) id :
  ~ In id (map Participant.id l) ->
  find (fun p => bool_decide (Participant.id p = id)) l = None.
Proof.
  intros Hid. induction l as [|p l IH]; [done|]. simpl.
  case_bool_decide as Hp.
  - exfalso. apply Hid. left. exact Hp.
  - apply IH. intros Hin. apply Hid. by right.
Qed.

Lemma participantIdOf_set_ne σ socket sid pid c :
  socket <> c ->
  participantIdOf (set_socket_data σ socket sid pid) c = participantIdOf σ c.
Proof.
  intros Hne. unfold participantIdOf, set_socket_data. simpl.
  by rewrite lookup_insert_ne.
Qed.

(** The participant id of a connection is written by its own
    [session:create], [session:join] and [session:reconnect] only. *)
Lemma step_keepsIdentity σ i c :
  keepsIdentity c i ->
  participantIdOf (fst (step σ i)) c = participantIdOf σ c.
Proof.
  destruct i as [socket title prompt userName uuid now
                |socket sid' userName now
                |socket sid' pid
                |socket sid' content uuid now
                |a result uuid now]; cbn [keepsIdentity step]; intros Hc.
  - unfold on_session_create, createSession. cbn [fst Session.id].
    by rewrite participantIdOf_set_ne.
  - unfold on_session_join. destruct (getSession _ _); [|done]. cbn [fst].
    by rewrite participantIdOf_set_ne.
  - unfold on_session_reconnect. destruct (getSession _ _); [|done].
    cbn [fst]. by rewrite participantIdOf_set_ne.
  - cbn [fst].
    by destruct (on_segment_add_cases σ socket sid' content uuid now)
      as [[-> _]|(session & segment & _ & -> & _)].
  - unfold resume_segment_add. by destruct result.
Qed.

Lemma run_keepsIdentity σ inputs c :
  Forall (keepsIdentity c) inputs ->
  participantIdOf (fst (run σ inputs)) c = participantIdOf σ c.
Proof.
  revert σ. induction inputs as [|i inputs IH]; intros σ Hall; [done|].
  apply Forall_cons in Hall as [Hi Hall]. rewrite run_cons. cbn [fst].
  rewrite IH by done. by apply step_keepsIdentity.
Qed.

(** X17.  [session:reconnect] on a session that exists: the stored sessions
    are left as they are (the roster is neither consulted nor changed), the
    connection enters the room, and it alone receives the session as stored
    and then the acknowledgement.  From then on, whatever the server is
    given to run in between, and until the connection itself sends
    [session:create], [session:join] or [session:reconnect] again, every
    segment it adds, to whatever session is stored then, carries the
    participant id it announced, or its socket id when it announced the
    empty string. *)
Theorem reconnect_restores σ socket sessionId participantId session :
  storyManager σ !! sessionId = Some session ->
  let σ' := fst (on_session_reconnect σ socket sessionId participantId) in
  storyManager σ' = storyManager σ
  /\ members σ' sessionId = {[socket]} ∪ members σ sessionId
  /\ snd (on_session_reconnect σ socket sessionId participantId)
     = [Delivered {[socket]} (session_updated session);
        Delivered {[socket]} (session_reconnected sessionId)]
  /\ forall later target session' content uuid now,
       Forall (keepsIdentity socket) later ->
       let σ'' := fst (run σ' later) in
       storyManager σ'' !! target = Some session' ->
       Validation.valid (Validation.validateSegment content) = true ->
       exists rest,
         effects (on_segment_add σ'' socket target content uuid now)
         = Appended target
             {| Segment.id := uuid;
                Segment.content := Validation.sanitizeInput content;
                Segment.contributorId := orElse participantId socket;
                Segment.contributorType := user;
                Segment.timestamp := now;
                Segment.moodTags := [] |} :: rest.
Proof.
  intros Hs σ'. subst σ'. unfold on_session_reconnect, getSession.
  rewrite Hs. cbn [fst snd].
  split; [done|]. split.
  { rewrite members_set_socket_data, members_socket_join.
    by rewrite decide_True. }
  split; [done|].
  intros later target session' content uuid now Hlater Htarget Hv.
  destruct (on_segment_add_success _ socket target content uuid now
              session' Hv Htarget) as (_ & He & _).
  cbv zeta in He. rewrite He.
  rewrite run_keepsIdentity, participantIdOf_set by done. by eexists.
Qed.

(** X18.  [session:join] under a name that is already on the roster: the
    roster stays as it is, so the connection's socket id is not recorded;
    the others in the room are still told [participant:joined], with the new
    socket id.  When that socket id is not an id of the roster, a segment the
    connection then adds has no contributor on the roster, and the exports
    print the socket id in place of a name. *)
Theorem join_under_taken_name σ socket sessionId userName now session :
  storyManager σ !! sessionId = Some session ->
  In (orElse userName "Anonymous")
     (map Participant.name (Session.participants session)) ->
  let joined := on_session_join σ socket sessionId userName now in
  exists session',
    storyManager (fst joined) !! sessionId = Some session'
    /\ Session.participants session' = Session.participants session
    /\ Session.segments session' = Session.segments session
    /\ snd joined
       = [Delivered {[socket]} (session_updated session');
          Delivered (members (fst joined) sessionId ∖ {[socket]})
            (participant_joined
               {| Participant.id := socket;
                  Participant.name := orElse userName "Anonymous";
                  Participant.joinedAt := now |})]
    /\ (~ In socket (map Participant.id (Session.participants session)) ->
        forall content uuid now',
          Validation.valid (Validation.validateSegment content) = true ->
          let r := on_segment_add (fst joined) socket sessionId content uuid
                     now' in
          exists segment session'',
            effects r
            = [Appended sessionId segment;
               Delivered (members (fst joined) sessionId)
                 (segment_added segment);
               Delivered {[socket]} (segment_added segment);
               Delivered {[socket]} (segment_acknowledged uuid)]
            /\ Segment.contributorId segment = socket
            /\ storyManager (server r) !! sessionId = Some session''
            /\ In segment (Session.segments session'')
            /\ contributorOf session'' segment = None).
Proof.
  intros Hs Hname joined. subst joined.
  set (participant := {| Participant.id := socket;
                         Participant.name := orElse userName "Anonymous";
                         Participant.joinedAt := now |}).
  destruct (addParticipant_lookup (storyManager σ) sessionId session
              participant now Hs)
    as (session' & Hl & Hp & Hseg & _).
  rewrite bool_decide_eq_true_2 in Hp by (by apply list_elem_of_In).
  unfold on_session_join, getSession. rewrite Hs. cbn [fst snd].
  fold participant.
  set (σ' := set_socket_data _ _ _ _).
  assert (Hσ' : storyManager σ' !! sessionId = Some session') by exact Hl.
  exists session'. split; [exact Hσ'|]. split; [exact Hp|].
  split; [exact Hseg|]. split.
  { change (storyManager σ') with
      (addParticipant (storyManager σ) sessionId participant now).
    by rewrite Hl. }
  intros Hid content uuid now' Hv.
  destruct (on_segment_add_success σ' socket sessionId content uuid now'
              session' Hv Hσ') as (Hserver & He & _).
  cbv zeta in Hserver, He.
  assert (Hpid : participantIdOf σ' socket = socket).
  { unfold σ'. by rewrite participantIdOf_set, orElse_same. }
  rewrite Hpid in Hserver, He.
  set (segment := {| Segment.id := uuid;
                     Segment.content := Validation.sanitizeInput content;
                     Segment.contributorId := socket;
                     Segment.contributorType := user;
                     Segment.timestamp := now';
                     Segment.moodTags := [] |}) in *.
  destruct (addSegment_lookup (storyManager σ') sessionId session' segment
              now' Hσ') as (session'' & Hl'' & Hseg'' & Hp'' & _).
  exists segment, session''. split; [exact He|]. split; [done|].
  rewrite Hserver. split; [exact Hl''|]. split.
  - rewrite Hseg''.
    eapply Permutation_in; [symmetry; apply sortByTimestamp_Permutation|].
    apply in_or_app. right. by left.
  - unfold contributorOf. rewrite Hp'', Hp. by apply find_id_None.
Qed.

End Attribution.

Lemma reconnect_restores_witness :
  snd (Gateway.on_session_reconnect
         (fst (Gateway.run Gateway.initial Gateway.twoClientScenario))
         "socket-3" "session-1" "socket-1")
  = [Gateway.Delivered {["socket-3"]}
       (Gateway.session_updated Gateway.sessionAfterScenario);
     Gateway.Delivered {["socket-3"]}
       (Gateway.session_reconnected "session-1")]
  /\ exists rest,
       Gateway.effects
         (Gateway.on_segment_add
            (fst (Gateway.run
                    (fst (Gateway.on_session_reconnect
                            (fst (Gateway.run Gateway.initial
                                    Gateway.twoClientScenario))
                            "socket-3" "session-1" "socket-1"))
                    [Gateway.SessionJoin "socket-4" "session-1" "Dee" 5000;
                     Gateway.SegmentAdd "socket-4" "session-1" "C"
                       "segment-c" 6000]))
            "socket-3" "session-1" "The candle went out." "segment-d" 7000)
       = Gateway.Appended "session-1"
           {| Segment.id := "segment-d";
              Segment.content
                := Validation.sanitizeInput "The candle went out.";
              Segment.contributorId := "socket-1";
              Segment.contributorType := user;
              Segment.timestamp := 7000;
              Segment.moodTags := [] |} :: rest.
Proof.
  destruct (reconnect_restores
              (fst (Gateway.run Gateway.initial Gateway.twoClientScenario))
              "socket-3" "session-1" "socket-1"
              Gateway.sessionAfterScenario scenario_state)
    as (_ & _ & Hsent & Hlater).
  split; [exact Hsent|].
  assert (Hstored : exists session',
             Gateway.storyManager
               (fst (Gateway.run
                       (fst (Gateway.on_session_reconnect
                               (fst (Gateway.run Gateway.initial
                                       Gateway.twoClientScenario))
                               "socket-3" "session-1" "socket-1"))
                       [Gateway.SessionJoin "socket-4" "session-1" "Dee"
                          5000;
                        Gateway.SegmentAdd "socket-4" "session-1" "C"
                          "segment-c" 6000]))
               !! "session-1" = Some session')
    by (eexists; vm_compute; reflexivity).
  destruct Hstored as [session' Hstored].
  apply (Hlater _ "session-1" session' "The candle went out." "segment-d"
           7000).
  - repeat constructor; discriminate.
  - exact Hstored.
  - exact valid_next_line.
Defined.

Lemma join_under_taken_name_witness :
  exists session',
    Gateway.storyManager
      (fst (Gateway.on_session_join
              (fst (Gateway.run Gateway.initial Gateway.twoClientScenario))
              "socket-3" "session-1" "Ann" 5000))
      !! "session-1" = Some session'
    /\ Session.participants session' = [Gateway.ann; Gateway.bob].
Proof.
  destruct (join_under_taken_name
              (fst (Gateway.run Gateway.initial Gateway.twoClientScenario))
              "socket-3" "session-1" "Ann" 5000
              Gateway.sessionAfterScenario scenario_state
              (or_introl eq_refl))
    as (session' & Hl & Hp & _).
  exists session'. split; [exact Hl|exact Hp].
Defined.

(** ** Invite links and the handlers that answer the requester only *)

Section InviteFacts.
Import InviteLinks Requests.

Lemma validate_after_generate (inviteTokens : gmap string string) sessionId
    baseUrl token :
  validateInviteToken
    (snd (generateInviteLink inviteTokens sessionId baseUrl token)) token
  = if bool_decide (sessionId = "") then None else Some sessionId.
Proof.
  unfold validateInviteToken, generateInviteLink. cbn [snd].
  by rewrite lookup_insert_eq.
Qed.

Lemma validate_other_after_generate (inviteTokens : gmap string string)
    sessionId baseUrl token other :
  other <> token ->
  validateInviteToken
    (snd (generateInviteLink inviteTokens sessionId baseUrl token)) other
  = validateInviteToken inviteTokens other.
Proof.
  intros Hne. unfold validateInviteToken, generateInviteLink. cbn [snd].
  by rewrite lookup_insert_ne.
Qed.

(** X19.  An invitation that was generated can be redeemed until it is
    revoked.  After [invite:generate] for a session that exists and has a
    non-empty id, the requester holds the link, which is the base URL,
    [/join/] and the token; [invite:validate] with that token answers
    [invite:validated] with the session id for as long as the session is
    stored; every other token validates as it did before; and once the token
    is revoked the answer is [INVALID_INVITE_TOKEN].  Nothing but the token
    table changes. *)
Theorem invite_generate_then_validate (storyManager : gmap string Session.t)
    (inviteTokens : gmap string string) sessionId session baseUrl token :
  storyManager !! sessionId = Some session ->
  sessionId <> "" ->
  let '(issued, reply) :=
    on_invite_generate storyManager inviteTokens sessionId baseUrl token in
  reply = invite_generated sessionId
            (default "http://localhost:5173" baseUrl +:+ "/join/" +:+ token)
  /\ on_invite_validate storyManager issued token
     = invite_validated sessionId
  /\ (forall storyManager' : gmap string Session.t,
        on_invite_validate storyManager' issued token
        = match storyManager' !! sessionId with
          | Some _ => invite_validated sessionId
          | None => error "Session not found" "SESSION_NOT_FOUND"
          end)
  /\ (forall other, other <> token ->
        validateInviteToken issued other
        = validateInviteToken inviteTokens other)
  /\ on_invite_validate storyManager (revokeInviteToken issued token) token
     = error "Invalid or expired invite token" "INVALID_INVITE_TOKEN".
Proof.
  intros Hs Hne.
  pose proof (validate_after_generate inviteTokens sessionId baseUrl token)
    as Hsame.
  pose proof (validate_other_after_generate inviteTokens sessionId baseUrl
                token) as Hother.
  rewrite bool_decide_eq_false_2 in Hsame by done.
  unfold on_invite_generate, StoryManager.getSession. rewrite Hs.
  unfold generateInviteLink in *. cbn [snd] in Hsame, Hother.
  split; [done|].
  unfold on_invite_validate, StoryManager.getSession. rewrite Hsame, Hs.
  split; [done|]. split.
  { intros storyManager'. by destruct (storyManager' !! _). }
  split; [exact Hother|].
  unfold validateInviteToken, revokeInviteToken.
  by rewrite lookup_delete_eq.
Qed.


End InviteFacts.

Lemma invite_generate_then_validate_witness :
  Requests.on_invite_validate StoryManager.sessionAfterExportScenario
    (fst (Requests.on_invite_generate StoryManager.sessionAfterExportScenario
            ∅ "session-1" None "c0ffee"))
    "c0ffee"
  = Requests.invite_validated "session-1".
Proof.
  pose proof (invite_generate_then_validate
                StoryManager.sessionAfterExportScenario ∅ "session-1" _ None
                "c0ffee" eq_refl ltac:(discriminate)) as H.
  destruct (Requests.on_invite_generate _ _ _ _ _) as [issued reply].
  apply H.
Defined.

(** ** The offline queue: what every history of calls keeps *)

Section QueueFacts.
Import OfflineQueue.
Variable toJSON : Z -> string.
Variable setItemThrows
  : option (list OfflineQueue.StoredSegment)
    -> list OfflineQueue.StoredSegment -> bool.

Lemma filter_all {A} (f : A -> bool) (l : list A) :
  (forall x, In x l -> f x = true) -> List.filter f l = l.
Proof.
  induction l as [|x l IH]; [done|]. intros Hall. simpl.
  rewrite (Hall x) by (by left). f_equal. apply IH. intros y Hy.
  apply Hall. by right.
Qed.

Lemma filter_none {A} (f : A -> bool) (l : list A) :
  (forall x, In x l -> f x = false) -> List.filter f l = [].
Proof.
  induction l as [|x l IH]; [done|]. intros Hall. simpl.
  rewrite (Hall x) by (by left). apply IH. intros y Hy.
  apply Hall. by right.
Qed.

Lemma filter_sublist {A} (f : A -> bool) (l : list A) :
  List.filter f l `sublist_of` l.
Proof.
  induction l as [|x l IH]; [done|]. simpl.
  destruct (f x); [by apply sublist_skip|by apply sublist_cons].
Qed.

Lemma map_sublist {A B} (f : A -> B) (l k : list A) :
  l `sublist_of` k -> map f l `sublist_of` map f k.
Proof. induction 1; simpl; by constructor. Qed.

Lemma In_insert {A} (l : list A) i x y :
  In y (<[i := x]> l) -> y = x \/ In y l.
Proof.
  revert i. induction l as [|z l IH]; intros i; [done|].
  destruct i as [|i]; simpl.
  - intros [<-|Hy]; auto.
  - intros [<-|Hy]; [auto|]. destruct (IH i Hy); auto.
Qed.

Lemma map_payload_insert (l : list QueuedSegment) i item :
  l !! i = Some item ->
  map payload (<[i := bump item]> l) = map payload l.
Proof.
  revert i. induction l as [|z l IH]; intros i; [done|].
  destruct i as [|i]; simpl.
  - by intros [= ->].
  - intros Hi. f_equal. by apply IH.
Qed.

Lemma queue_incrementRetry (q : t) sid ts :
  queue (snd (incrementRetry toJSON setItemThrows q sid ts))
  = match list_find (sameEntry sid ts) (queue q) with
    | Some (i, item) =>
        if (maxRetries <=? S (retryCount item))%nat
        then List.filter
               (fun x => negb (bool_decide (sameEntry sid ts x)))
               (<[i := bump item]> (queue q))
        else <[i := bump item]> (queue q)
    | None => queue q
    end.
Proof.
  unfold incrementRetry.
  destruct (list_find _ _) as [[i item]|]; [|done].
  cbn [retryCount bump].
  destruct (maxRetries <=? _)%nat; cbn [snd];
    [by rewrite queue_dequeue|by rewrite queue_saveToStorage].
Qed.

Lemma call_retries_bounded (q : t) c :
  Forall (fun item => (retryCount item < maxRetries)%nat) (queue q) ->
  Forall (fun item => (retryCount item < maxRetries)%nat)
         (queue (call toJSON setItemThrows q c)).
Proof.
  intros Hq. rewrite Forall_forall in Hq.
  destruct c as [sid text now|sid ts|sid ts|sid|]; cbn [call];
    rewrite ?queue_enqueue, ?queue_dequeue, ?queue_clearSession,
      ?queue_clearAll.
  - apply Forall_app. split; [by apply Forall_forall|].
    repeat constructor.
  - apply Forall_forall. intros x Hx%list_elem_of_In.
    apply List.filter_In in Hx as [Hx _]. by apply Hq, list_elem_of_In.
  - rewrite queue_incrementRetry.
    destruct (list_find _ _) as [[i item]|] eqn:Hfind;
      [|by apply Forall_forall].
    apply list_find_Some in Hfind as (Hi & Hsame & _).
    destruct (maxRetries <=? S (retryCount item))%nat eqn:Hmax.
    + apply Forall_forall. intros x Hx%list_elem_of_In.
      apply List.filter_In in Hx as [Hx Hnot].
      apply negb_true_iff, bool_decide_eq_false in Hnot.
      apply In_insert in Hx as [->|Hx]; [|by apply Hq, list_elem_of_In].
      exfalso. apply Hnot. exact Hsame.
    + apply Nat.leb_gt in Hmax. apply Forall_insert; [|exact Hmax].
      by apply Forall_forall.
  - apply Forall_forall. intros x Hx%list_elem_of_In.
    apply List.filter_In in Hx as [Hx _]. by apply Hq, list_elem_of_In.
  - constructor.
Qed.

(** X21.  No entry waits with a spent retry budget: starting from a queue
    whose retry counts are all below [maxRetries] (an empty one, say), every
    history of calls leaves only entries with a count below [maxRetries]. *)
Theorem retry_counts_stay_below_max (q : t) cs :
  Forall (fun item => (retryCount item < maxRetries)%nat) (queue q) ->
  Forall (fun item => (retryCount item < maxRetries)%nat)
         (queue (calls toJSON setItemThrows q cs)).
Proof.
  revert q. induction cs as [|c cs IH]; intros q Hq; [done|].
  simpl. apply IH. by apply call_retries_bounded.
Qed.

(** X22.  [enqueue] then [dequeue] with the entry's session id and instant
    gives the queue back, when no older entry carries that pair.  Two
    entries queued for one session in the same millisecond are one pair: a
    single [dequeue] removes both. *)
Theorem enqueue_dequeue_round_trip (q : t) sid text text' now :
  (forall item, In item (queue q) -> ~ sameEntry sid now item) ->
  queue (dequeue toJSON setItemThrows
           (enqueue toJSON setItemThrows q sid text now) sid now)
  = queue q
  /\ queue (dequeue toJSON setItemThrows
              (enqueue toJSON setItemThrows
                 (enqueue toJSON setItemThrows q sid text now)
                 sid text' now)
              sid now)
     = queue q.
Proof.
  intros Hfresh.
  assert (Hkeep : List.filter
                    (fun item => negb (bool_decide (sameEntry sid now item)))
                    (queue q) = queue q).
  { apply filter_all. intros x Hx. apply negb_true_iff, bool_decide_eq_false.
    by apply Hfresh. }
  split; rewrite queue_dequeue, !queue_enqueue, !List.filter_app, Hkeep;
    simpl.
  - rewrite bool_decide_eq_true_2 by (by split). simpl.
    by rewrite app_nil_r.
  - rewrite !bool_decide_eq_true_2 by (by split). simpl.
    by rewrite !app_nil_r.
Qed.

(** X23.  [clearSession] removes the entries of one session and no other:
    the session has nothing queued afterwards, every other session has what
    it had, in the same order, and the size goes down by the number of
    entries removed. *)
Theorem clearSession_clears_one_session (q : t) sid :
  getQueuedSegments (clearSession toJSON setItemThrows q sid) sid = []
  /\ (forall other, other <> sid ->
        getQueuedSegments (clearSession toJSON setItemThrows q sid) other
        = getQueuedSegments q other)
  /\ (size (clearSession toJSON setItemThrows q sid)
      + length (getQueuedSegments q sid) = size q)%nat.
Proof.
  unfold getQueuedSegments, size. rewrite queue_clearSession.
  split; [|split].
  - apply filter_none. intros x [_ Hx]%List.filter_In.
    apply negb_true_iff in Hx. exact Hx.
  - intros other Hne. induction (queue q) as [|x l IH]; [done|]. simpl.
    destruct (bool_decide (sessionId x = sid)) eqn:Hx; simpl.
    + apply bool_decide_eq_true in Hx.
      rewrite bool_decide_eq_false_2 by congruence. exact IH.
    + by rewrite IH.
  - induction (queue q) as [|x l IH]; [done|]. simpl.
    destruct (bool_decide (sessionId x = sid)); simpl; lia.
Qed.

Lemma call_payload_sublist (q : t) c :
  map payload (queue (call toJSON setItemThrows q c)) ++ enqueued [c]
  `sublist_of` map payload (queue q) ++ enqueued [c]
  \/ exists sid text now, c = Enqueue sid text now.
Proof.
  destruct c as [sid text now|sid ts|sid ts|sid|]; cbn [call];
    rewrite ?queue_dequeue, ?queue_clearSession, ?queue_clearAll; simpl.
  - right. eauto.
  - left. rewrite !app_nil_r. apply map_sublist, filter_sublist.
  - left. rewrite !app_nil_r, queue_incrementRetry.
    destruct (list_find _ _) as [[i item]|] eqn:Hfind; [|done].
    apply list_find_Some in Hfind as (Hi & _ & _).
    rewrite <- (map_payload_insert (queue q) i item Hi).
    destruct (maxRetries <=? S (retryCount item))%nat; [|done].
    apply map_sublist, filter_sublist.
  - left. rewrite !app_nil_r. apply map_sublist, filter_sublist.
  - left. apply sublist_nil_l.
Qed.

(** X24.  The queue keeps its order and invents nothing: after any history
    of calls, the entries in the queue, read without their retry counts, are
    a subsequence of the entries it started with followed by the entries the
    history enqueued, in that order. *)
Theorem queue_keeps_order (q : t) cs :
  map payload (queue (calls toJSON setItemThrows q cs))
  `sublist_of` map payload (queue q) ++ enqueued cs.
Proof.
  revert q. induction cs as [|c cs IH]; intros q.
  - simpl. by rewrite app_nil_r.
  - change (calls toJSON setItemThrows q (c :: cs))
      with (calls toJSON setItemThrows (call toJSON setItemThrows q c) cs).
    etransitivity; [apply IH|].
    assert (Hsplit : enqueued (c :: cs) = enqueued [c] ++ enqueued cs)
      by apply (omap_app _ [c] cs).
    rewrite Hsplit, app_assoc.
    destruct (call_payload_sublist q c) as [Hsub|(sid & text & now & ->)].
    + etransitivity; [|apply sublist_app; [exact Hsub|reflexivity]].
      apply sublist_app; [|reflexivity]. apply sublist_inserts_r.
      reflexivity.
    + cbn [call]. rewrite queue_enqueue, map_app. simpl. reflexivity.
Qed.

End QueueFacts.

Lemma retry_counts_stay_below_max_witness :
  Forall (fun item =>
            (OfflineQueue.retryCount item < OfflineQueue.maxRetries)%nat)
    (OfflineQueue.queue
       (OfflineQueue.calls OfflineQueue.decimalText OfflineQueue.neverThrows
          {| OfflineQueue.queue := []; OfflineQueue.localStorage := None |}
          [OfflineQueue.Enqueue "session-1" "A knock." 100;
           OfflineQueue.IncrementRetry "session-1" 100;
           OfflineQueue.IncrementRetry "session-1" 100;
           OfflineQueue.IncrementRetry "session-1" 100])).
Proof.
  apply retry_counts_stay_below_max. simpl. constructor.
Defined.

Lemma enqueue_dequeue_round_trip_witness :
  OfflineQueue.queue
    (OfflineQueue.dequeue OfflineQueue.decimalText OfflineQueue.neverThrows
       (OfflineQueue.enqueue OfflineQueue.decimalText OfflineQueue.neverThrows
          {| OfflineQueue.queue := []; OfflineQueue.localStorage := None |}
          "session-1" "A knock." 100)
       "session-1" 100)
  = [].
Proof.
  apply (enqueue_dequeue_round_trip OfflineQueue.decimalText
           OfflineQueue.neverThrows
           {| OfflineQueue.queue := []; OfflineQueue.localStorage := None |}
           "session-1" "A knock." "" 100).
  simpl. intros item [].
Defined.

(** ** The client: queueing while offline and the pass that sends the queue *)

Section SyncFacts.
Import OfflineQueue WebSocketClient.
Variable toJSON : Z -> string.
Variable setItemThrows
  : option (list OfflineQueue.StoredSegment)
    -> list OfflineQueue.StoredSegment -> bool.

Lemma sameEntry_key (item x : QueuedSegment) :
  sameEntry (sessionId item) (timestamp item) x
  <-> entryKey x = entryKey item.
Proof.
  unfold sameEntry, entryKey. split.
  - by intros [-> ->].
  - by intros [= -> ->].
Qed.

Lemma insert_middle {A} (l k : list A) x y :
  <[length l := y]> (l ++ x :: k) = l ++ y :: k.
Proof. induction l as [|z l IH]; [done|]. simpl. by rewrite IH. Qed.

Lemma find_middle (kept rest : list QueuedSegment) item :
  (forall d, In d kept -> entryKey d <> entryKey item) ->
  list_find (sameEntry (sessionId item) (timestamp item))
            (kept ++ item :: rest)
  = Some (length kept, item).
Proof.
  intros Hdone. apply list_find_Some. split; [apply list_lookup_middle; done|].
  split; [done|]. intros j y Hj Hlt.
  rewrite lookup_app_l in Hj by done.
  intros Hsame%sameEntry_key. apply (Hdone y); [|done].
  apply list_elem_of_In. by eapply list_elem_of_lookup_2.
Qed.

Lemma filter_middle (kept rest : list QueuedSegment) item x :
  entryKey x = entryKey item ->
  (forall d, In d kept -> entryKey d <> entryKey item) ->
  (forall r, In r rest -> entryKey r <> entryKey item) ->
  List.filter
    (fun y => negb (bool_decide
                      (sameEntry (sessionId item) (timestamp item) y)))
    (kept ++ x :: rest)
  = kept ++ rest.
Proof.
  intros Hx Hdone Hrest. rewrite List.filter_app. cbn [List.filter].
  rewrite bool_decide_eq_true_2 by (by apply sameEntry_key).
  cbn [negb]. f_equal; apply filter_all; intros y Hy;
    apply negb_true_iff, bool_decide_eq_false;
    intros Hsame%sameEntry_key; [by apply (Hdone y)|by apply (Hrest y)].
Qed.

Lemma syncEach_result (rest : list QueuedSegment) outcomes kept (q : t) :
  queue q = kept ++ rest ->
  NoDup (map entryKey rest) ->
  (forall d, In d kept -> ~ In (entryKey d) (map entryKey rest)) ->
  queue (fst (syncEach toJSON setItemThrows q rest outcomes))
  = kept ++ afterPass rest outcomes.
Proof.
  revert outcomes kept q.
  induction rest as [|item rest IH]; intros outcomes kept q Hq Hnodup Hdone;
    [done|].
  destruct outcomes as [|resolved outcomes]; [done|].
  apply NoDup_cons in Hnodup as [Hitem Hnodup].
  assert (Hd : forall d, In d kept -> entryKey d <> entryKey item).
  { intros d Hin Heq. apply (Hdone d Hin). left. by rewrite Heq. }
  assert (Hr : forall r, In r rest -> entryKey r <> entryKey item).
  { intros r Hin Heq. apply Hitem. rewrite <- Heq.
    by apply list_elem_of_In, in_map. }
  assert (Hd' : forall d, In d kept -> ~ In (entryKey d) (map entryKey rest)).
  { intros d Hin Hk. apply (Hdone d Hin). by right. }
  assert (Hstep : forall q1 : t,
            fst (let '(q2, later) :=
                   syncEach toJSON setItemThrows q1 rest outcomes in
                 (q2, (sessionId item, content item) :: later))
            = fst (syncEach toJSON setItemThrows q1 rest outcomes)).
  { intros q1. by destruct (syncEach _ _ q1 rest outcomes). }
  cbn [syncEach afterPass]. rewrite Hstep. destruct resolved.
  - apply IH; [|done|done]. rewrite queue_dequeue, Hq.
    by apply filter_middle.
  - pose proof (find_middle kept rest item Hd) as Hfind.
    rewrite <- Hq in Hfind.
    pose proof (queue_incrementRetry toJSON setItemThrows q (sessionId item)
                  (timestamp item)) as Hinc.
    rewrite Hfind, Hq, insert_middle in Hinc.
    unfold afterFailure.
    destruct (maxRetries <=? S (retryCount item))%nat.
    + apply IH; [|done|done]. rewrite Hinc. by apply filter_middle.
    + rewrite (IH outcomes (kept ++ [bump item])).
      * by rewrite <- app_assoc.
      * rewrite Hinc. by rewrite <- app_assoc.
      * done.
      * intros d [Hin|[<-|[]]]%in_app_or; [by apply Hd'|].
        intros Hk. apply Hitem. by apply list_elem_of_In.
Qed.

Lemma syncEach_drains (items : list QueuedSegment) outcomes (q : t) :
  length outcomes = length items ->
  Forall (eq true) outcomes ->
  (forall x, In x (queue q) ->
     exists y, In y items /\ entryKey x = entryKey y) ->
  queue (fst (syncEach toJSON setItemThrows q items outcomes)) = [].
Proof.
  revert outcomes q.
  induction items as [|item items IH]; intros outcomes q Hlen Hall Hcover.
  - simpl. destruct (queue q) as [|x l]; [done|].
    by destruct (Hcover x (or_introl eq_refl)) as (y & [] & _).
  - destruct outcomes as [|resolved outcomes]; [done|].
    apply Forall_cons in Hall as [<- Hall]. cbn [syncEach].
    specialize (IH outcomes
                  (dequeue toJSON setItemThrows q (sessionId item)
                     (timestamp item))).
    destruct (syncEach _ _ _ items outcomes) as [q2 later]. cbn [fst] in *.
    apply IH; [by injection Hlen|done|].
    intros x. rewrite queue_dequeue. intros [Hx Hnot]%List.filter_In.
    apply negb_true_iff, bool_decide_eq_false in Hnot.
    destruct (Hcover x Hx) as (y & [<-|Hy] & Hkey).
    + exfalso. by apply Hnot, sameEntry_key.
    + eauto.
Qed.

(** The loop calls [sendSegment] once for each entry of its snapshot, in
    the order of the snapshot. *)
Lemma syncEach_sends (items : list QueuedSegment) outcomes (q : t) :
  length outcomes = length items ->
  snd (syncEach toJSON setItemThrows q items outcomes)
  = map (fun item => (sessionId item, content item)) items.
Proof.
  revert outcomes q.
  induction items as [|item items IH]; intros outcomes q Hlen; [done|].
  destruct outcomes as [|resolved outcomes]; [done|]. cbn [syncEach map].
  match goal with
  | |- context [syncEach _ _ ?q1 items outcomes] =>
      specialize (IH outcomes q1 ltac:(by injection Hlen));
      destruct (syncEach toJSON setItemThrows q1 items outcomes)
        as [q2 later]
  end.
  cbn [snd] in *. by rewrite IH.
Qed.

Lemma queue_addOffline (q : t) adds :
  queue (addOffline toJSON setItemThrows q adds)
  = queue q
    ++ map (fun '(sid, text, now) =>
              {| sessionId := sid; content := text; timestamp := now;
                 retryCount := 0 |}) adds.
Proof.
  revert q. induction adds as [|[[sid text] now] adds IH]; intros q.
  - simpl. by rewrite app_nil_r.
  - unfold addOffline in *. cbn [foldl]. rewrite IH.
    unfold addSegment. cbn [negb fst]. rewrite queue_enqueue.
    by rewrite <- app_assoc.
Qed.

(** X25.  Written offline, delivered on reconnection.  An [addSegment] made
    while the socket is disconnected resolves and appends one entry with
    retry count 0, so a run of them queues the texts in call order; made
    while connected it leaves the queue alone.  A pass of [syncOfflineQueue]
    in which every send resolves calls [sendSegment] with the queued texts
    in queue order, the older entries first, and leaves the queue empty. *)
Theorem offline_adds_then_sync (q : t) adds outcomes :
  let q' := addOffline toJSON setItemThrows q adds in
  length outcomes = size q' ->
  Forall (eq true) outcomes ->
  (forall q0 sid text now sent,
      addSegment toJSON setItemThrows q0 false sid text now sent
      = (enqueue toJSON setItemThrows q0 sid text now, Returns tt)
      /\ queue (enqueue toJSON setItemThrows q0 sid text now)
         = queue q0 ++ [{| sessionId := sid; content := text;
                           timestamp := now; retryCount := 0 |}]
      /\ fst (addSegment toJSON setItemThrows q0 true sid text now sent)
         = q0)
  /\ queue q'
     = queue q
       ++ map (fun '(sid, text, now) =>
                 {| sessionId := sid; content := text; timestamp := now;
                    retryCount := 0 |}) adds
  /\ snd (syncOfflineQueue toJSON setItemThrows q' outcomes)
     = map (fun item => (sessionId item, content item)) (queue q)
       ++ map (fun '(sid, text, _) => (sid, text)) adds
  /\ queue (fst (syncOfflineQueue toJSON setItemThrows q' outcomes)) = [].
Proof.
  intros q' Hlen Hall. pose proof (queue_addOffline q adds) as Hq'.
  fold q' in Hq'. unfold size in *.
  split; [|split; [exact Hq'|]].
  { intros q0 sid text now sent. split; [reflexivity|].
    split; [apply queue_enqueue|reflexivity]. }
  unfold syncOfflineQueue. destruct (isEmpty q') eqn:Hempty.
  - unfold isEmpty in Hempty. apply Nat.eqb_eq, nil_length_inv in Hempty.
    rewrite Hempty in Hq'. symmetry in Hq'.
    apply app_eq_nil in Hq' as [Hq Hadds]. apply map_eq_nil in Hadds.
    cbn [fst snd]. by rewrite Hq, Hadds.
  - unfold getAllQueued. rewrite syncEach_sends by done. split.
    + rewrite Hq', map_app, map_map. f_equal. apply map_ext.
      by intros [[sid text] now].
    + apply syncEach_drains; [done|done|]. intros x Hx. by exists x.
Qed.

(** X26.  What one pass of [syncOfflineQueue] leaves, when no two entries
    share session id and instant: in queue order, an entry whose send
    resolved is gone; an entry whose send failed stays with one more retry,
    or is gone when that was its third failure; the entries the pass has not
    come to are untouched. *)
Theorem sync_pass_result (q : t) outcomes :
  NoDup (map entryKey (queue q)) ->
  queue (fst (syncOfflineQueue toJSON setItemThrows q outcomes))
  = afterPass (queue q) outcomes.
Proof.
  intros Hnodup. unfold syncOfflineQueue.
  destruct (isEmpty q) eqn:Hempty.
  - unfold isEmpty in Hempty. apply Nat.eqb_eq, nil_length_inv in Hempty.
    by rewrite Hempty.
  - by apply (syncEach_result (queue q) outcomes []).
Qed.

End SyncFacts.

Lemma offline_adds_then_sync_witness :
  snd (WebSocketClient.syncOfflineQueue OfflineQueue.decimalText
         OfflineQueue.neverThrows
         (WebSocketClient.addOffline OfflineQueue.decimalText
            OfflineQueue.neverThrows
            {| OfflineQueue.queue := []; OfflineQueue.localStorage := None |}
            [("session-1", "A knock.", 100);
             ("session-1", "Then silence.", 100)])
         [true; true])
  = [("session-1", "A knock."); ("session-1", "Then silence.")]
  /\ OfflineQueue.queue
       (fst (WebSocketClient.syncOfflineQueue OfflineQueue.decimalText
               OfflineQueue.neverThrows
               (WebSocketClient.addOffline OfflineQueue.decimalText
                  OfflineQueue.neverThrows
                  {| OfflineQueue.queue := [];
                     OfflineQueue.localStorage := None |}
                  [("session-1", "A knock.", 100);
                   ("session-1", "Then silence.", 100)])
               [true; true]))
     = [].
Proof.
  apply (offline_adds_then_sync OfflineQueue.decimalText
           OfflineQueue.neverThrows
           {| OfflineQueue.queue := []; OfflineQueue.localStorage := None |}
           [("session-1", "A knock.", 100);
            ("session-1", "Then silence.", 100)]
           [true; true]).
  - reflexivity.
  - repeat constructor.
Defined.

Lemma sync_pass_result_witness :
  OfflineQueue.queue
    (fst (WebSocketClient.syncOfflineQueue OfflineQueue.decimalText
            OfflineQueue.neverThrows
            (WebSocketClient.addOffline OfflineQueue.decimalText
               OfflineQueue.neverThrows
               {| OfflineQueue.queue := [];
                  OfflineQueue.localStorage := None |}
               [("session-1", "A knock.", 100);
                ("session-1", "Then silence.", 101)])
            [false; true]))
  = [ {| OfflineQueue.sessionId := "session-1";
         OfflineQueue.content := "A knock.";
         OfflineQueue.timestamp := 100;
         OfflineQueue.retryCount := 1 |} ].
Proof.
  apply (sync_pass_result OfflineQueue.decimalText OfflineQueue.neverThrows
           (WebSocketClient.addOffline OfflineQueue.decimalText
              OfflineQueue.neverThrows
              {| OfflineQueue.queue := []; OfflineQueue.localStorage := None |}
              [("session-1", "A knock.", 100);
               ("session-1", "Then silence.", 101)])
           [false; true]).
  refine (bool_decide_unpack _ _). vm_compute. exact I.
Defined.

(** ** The validator of the client against the validator of the server *)

Section ClientServer.

Lemma sanitizeInput_without_markup content :
  Validation.completeTag (Validation.chars content) = false ->
  Validation.sanitizeInput content = Validation.trim content.
Proof.
  intros Htag. rewrite sanitizeInput_tags_only.
  by rewrite stripTags_fixed, text_chars.
Qed.

Lemma client_containsProfanity content :
  ClientValidation.containsProfanity content
  = Validation.containsProfanity content.
Proof. reflexivity. Qed.

Lemma client_valid_iff content :
  ClientValidation.valid (ClientValidation.validateSegment content) = true
  <-> (1 <= String.length (Validation.trim content) <= 500)%nat
      /\ Validation.containsProfanity (Validation.trim content) = false.
Proof.
  unfold ClientValidation.validateSegment, ClientValidation.hasContent,
    ClientValidation.MAX_SEGMENT_LENGTH, ClientValidation.MIN_SEGMENT_LENGTH.
  rewrite client_containsProfanity.
  generalize (Validation.containsProfanity (Validation.trim content)).
  generalize (String.length (Validation.trim content)). intros n b.
  destruct (0 <? n)%nat eqn:H0; cbv beta iota delta [negb ClientValidation.valid].
  2:{ apply Nat.ltb_ge in H0. split; [discriminate|lia]. }
  apply Nat.ltb_lt in H0.
  destruct (500 <? n)%nat eqn:H500; cbv beta iota delta [ClientValidation.valid].
  { apply Nat.ltb_lt in H500. split; [discriminate|lia]. }
  apply Nat.ltb_ge in H500.
  destruct (n <? 1)%nat eqn:H1; cbv beta iota delta [ClientValidation.valid].
  { apply Nat.ltb_lt in H1. lia. }
  destruct b; cbv beta iota delta [ClientValidation.valid].
  { split; [discriminate|]. by intros [_ ?]. }
  destruct (n <? 10)%nat; cbv beta iota delta [ClientValidation.valid];
    (split; [intros _; split; [lia|done]|done]).
Qed.

Lemma server_valid_iff content :
  Validation.valid (Validation.validateSegment content) = true
  <-> Validation.hasContent content = true
      /\ Validation.isValidLength (Validation.sanitizeInput content) = true
      /\ Validation.containsProfanity (Validation.sanitizeInput content)
         = false.
Proof.
  split; [apply validateSegment_valid_checks|].
  intros (H1 & H2 & H3). by rewrite validateSegment_accepts.
Qed.

(** X27.  The two validators agree on text without markup.  For a text with
    no complete tag, the form's validator accepts exactly when the server's
    does; the server then stores the trimmed text, which is the text the
    form submits and shows in advance. *)
Theorem client_server_validation_agree content :
  Validation.completeTag (Validation.chars content) = false ->
  ClientValidation.valid (ClientValidation.validateSegment content)
  = Validation.valid (Validation.validateSegment content)
  /\ (ClientValidation.valid (ClientValidation.validateSegment content)
      = true ->
      Validation.validateSegment content
      = {| Validation.valid := true; Validation.error := None;
           Validation.sanitized := Some (Validation.trim content) |}
      /\ Validation.validateSegment (Validation.trim content)
         = Validation.validateSegment content).
Proof.
  intros Htag. pose proof (sanitizeInput_without_markup content Htag) as Hs.
  assert (Hiff :
    ClientValidation.valid (ClientValidation.validateSegment content) = true
    <-> Validation.valid (Validation.validateSegment content) = true).
  { rewrite client_valid_iff, server_valid_iff, Hs.
    unfold Validation.hasContent, Validation.isValidLength.
    rewrite trim_idempotent, andb_true_iff, !Nat.leb_le, Nat.ltb_lt.
    unfold Validation.MIN_SEGMENT_LENGTH, Validation.MAX_SEGMENT_LENGTH.
    intuition lia. }
  split.
  { destruct (ClientValidation.valid _), (Validation.valid _); try done.
    - symmetry. by apply Hiff.
    - by apply Hiff. }
  intros Hclient. apply Hiff in Hclient.
  apply server_valid_iff in Hclient as (H1 & H2 & H3).
  assert (Haccept : Validation.validateSegment content
            = {| Validation.valid := true; Validation.error := None;
                 Validation.sanitized := Some (Validation.trim content) |}).
  { rewrite <- Hs. by apply validateSegment_accepts. }
  split; [exact Haccept|]. rewrite Haccept.
  assert (Hfix : Validation.sanitizeInput (Validation.trim content)
                 = Validation.trim content).
  { rewrite <- Hs. apply sanitizeInput_fixed. }
  rewrite <- Hfix at 2. apply validateSegment_accepts.
  - unfold Validation.hasContent in *. by rewrite trim_idempotent.
  - rewrite Hfix. by rewrite <- Hs.
  - rewrite Hfix. by rewrite <- Hs.
Qed.

End ClientServer.

Lemma client_server_validation_agree_witness :
  ClientValidation.valid
    (ClientValidation.validateSegment "  The candle went out.  ")
  = Validation.valid (Validation.validateSegment "  The candle went out.  ").
Proof.
  apply client_server_validation_agree. vm_compute. reflexivity.
Defined.

(** ** The reconnection timer *)

Section ScheduleFacts.
Import ReconnectionManager ReconnectSchedule.

Lemma cappedDelay_closed a :
  cappedDelay a
  = if (a <? 5)%nat then 1000 * 2 ^ Z.of_nat a else 30000.
Proof.
  destruct (a <? 5)%nat eqn:Ha.
  - apply Nat.ltb_lt in Ha.
    do 5 (destruct a as [|a]; [reflexivity|]). lia.
  - apply Nat.ltb_ge in Ha. by apply cappedDelay_at_cap.
Qed.

Lemma scheduleReconnect_attempt st random :
  attempt (manager (scheduleReconnect st random))
  = if (maxAttempts <=? attempt (manager st))%nat
    then attempt (manager st) else S (attempt (manager st)).
Proof.
  unfold scheduleReconnect, isMaxAttemptsReached. cbn [clearTimer manager].
  by destruct (maxAttempts <=? attempt (manager st))%nat.
Qed.

Lemma schedule_attempt randoms st :
  (attempt (manager st) <= maxAttempts)%nat ->
  attempt (manager (schedule st randoms))
  = Nat.min (attempt (manager st) + length randoms) maxAttempts.
Proof.
  revert st. induction randoms as [|r randoms IH]; intros st Hst.
  - simpl. lia.
  - unfold schedule in *. cbn [foldl length].
    pose proof (scheduleReconnect_attempt st r) as Hstep.
    destruct (maxAttempts <=? attempt (manager st))%nat eqn:Hmax.
    + apply Nat.leb_le in Hmax. rewrite IH by lia. lia.
    + apply Nat.leb_gt in Hmax. rewrite IH by lia. lia.
Qed.

(** X28.  The reconnection schedule.  After [n] calls of
    [scheduleReconnect] with no [reset] between them the attempt counter is
    [min n 10].  The next call arms one timer while [n < 10]: its delay is
    positive and lies between three quarters and five quarters of
    1000 * 2^n ms for [n < 5], of 30000 ms from then on.  From the eleventh
    call on nothing is armed and the counter stays at 10.  [reset] brings
    back the initial state. *)
Theorem reconnect_schedule randoms (random : Q) :
  (0 <= random)%Q -> (random < 1)%Q ->
  let before := schedule initial randoms in
  let after := scheduleReconnect before random in
  let n := length randoms in
  let capped :=
    inject_Z (if (n <? 5)%nat then 1000 * 2 ^ Z.of_nat n else 30000) in
  attempt (manager before) = Nat.min n maxAttempts
  /\ ((n < 10)%nat ->
      exists delay,
        reconnectTimer after = Some delay
        /\ ((3 # 4) * capped <= delay)%Q
        /\ (delay <= (5 # 4) * capped)%Q
        /\ (0 < delay)%Q
        /\ attempt (manager after) = S n)
  /\ ((10 <= n)%nat ->
      after = {| manager := {| attempt := 10 |}; reconnectTimer := None |})
  /\ reset after = initial.
Proof.
  intros Hlo Hhi before after n capped.
  assert (Hbefore : attempt (manager before) = Nat.min n maxAttempts).
  { unfold before. rewrite schedule_attempt by (cbn; unfold maxAttempts; lia).
    reflexivity. }
  unfold maxAttempts in Hbefore.
  split; [exact Hbefore|]. split; [|split].
  - intros Hn. rewrite Nat.min_l in Hbefore by lia.
    unfold after, scheduleReconnect, isMaxAttemptsReached.
    cbn [clearTimer manager]. rewrite Hbefore.
    replace (maxAttempts <=? n)%nat with false
      by (symmetry; apply Nat.leb_gt; unfold maxAttempts; lia).
    unfold getNextDelay. rewrite Hbefore. eexists.
    split; [reflexivity|]. unfold capped. rewrite <- cappedDelay_closed.
    pose proof (cappedDelay_bounds n) as [Hpos _].
    assert (Hq : (0 < inject_Z (cappedDelay n))%Q).
    { change 0%Q with (inject_Z 0). by rewrite <- Zlt_Qlt. }
    set (c := inject_Z (cappedDelay n)) in *.
    assert (Hup : (c + c * (1 # 4) * (random * 2 - 1) <= (5 # 4) * c)%Q)
      by nra.
    assert (Hdown : ((3 # 4) * c <= c + c * (1 # 4) * (random * 2 - 1))%Q)
      by nra.
    split; [|split; [|split; [|reflexivity]]].
    + eapply Qle_trans; [exact Hdown|]. apply Q.le_max_r.
    + apply Q.max_lub; [nra|exact Hup].
    + eapply Qlt_le_trans; [|apply Q.le_max_r]. nra.
  - intros Hn. rewrite Nat.min_r in Hbefore by lia.
    unfold after, scheduleReconnect, isMaxAttemptsReached.
    cbn [clearTimer manager]. rewrite Hbefore. cbn.
    destruct before as [[a] timer]. cbn in Hbefore. by subst a.
  - reflexivity.
Qed.

End ScheduleFacts.

Lemma reconnect_schedule_witness :
  ReconnectionManager.attempt
    (ReconnectSchedule.manager
       (ReconnectSchedule.schedule ReconnectSchedule.initial
          [1 # 2; 1 # 2; 1 # 2]%Q))
  = 3%nat.
Proof.
  apply (reconnect_schedule [1 # 2; 1 # 2; 1 # 2]%Q (1 # 2)); done.
Defined.

(** ** The AI co-author *)

Section CoAuthorFacts.
Import AICoAuthor.

Lemma omap_chosen_sublist {A B} (g : A -> option B) (f : A -> B)
    (l : list A) :
  (forall x y, g x = Some y -> y = f x) ->
  omap g l `sublist_of` map f l.
Proof.
  intros Hg. induction l as [|x l IH]; [done|]. cbn [omap list_omap map].
  destruct (g x) as [y|] eqn:Hx.
  - rewrite (Hg x y Hx). by apply sublist_skip.
  - by apply sublist_cons.
Qed.

Lemma extractHorrorTags_sublist text :
  extractHorrorTags text
  `sublist_of` ["supernatural"; "psychological"; "gothic"; "suspense"].
Proof.
  unfold extractHorrorTags.
  change ["supernatural"; "psychological"; "gothic"; "suspense"]
    with (map fst tagKeywords).
  apply omap_chosen_sublist. intros [tag keywords] y.
  destruct (existsb _ keywords); [|done]. by intros [= <-].
Qed.

Lemma filterContent_clean text :
  existsb (fun keyword =>
             includes (Validation.toLowerCase (filterContent text)) keyword)
          (graphicKeywords ++ explicitKeywords)
  = false.
Proof.
  unfold filterContent.
  destruct (existsb (fun keyword =>
                       includes (Validation.toLowerCase text) keyword)
                    (graphicKeywords ++ explicitKeywords)) eqn:Hfound;
    [|exact Hfound].
  vm_compute. reflexivity.
Qed.

Lemma filterContent_nonempty text : text <> "" -> filterContent text <> "".
Proof.
  intros Htext. unfold filterContent. by destruct (existsb _ _).
Qed.

Lemma tryOnce_checked answer element :
  tryOnce answer = Returns element ->
  he_content element <> ""
  /\ existsb (fun keyword =>
                includes (Validation.toLowerCase (he_content element))
                         keyword)
             (graphicKeywords ++ explicitKeywords) = false
  /\ 1 <= he_intensity element <= 10
  /\ he_tags element
     `sublist_of` ["supernatural"; "psychological"; "gothic"; "suspense"].
Proof.
  destruct answer as [text|message]; [|done]. unfold tryOnce.
  case_bool_decide as Hempty; [done|]. intros [= <-].
  cbn [he_content he_intensity he_tags].
  split; [by apply filterContent_nonempty|].
  split; [apply filterContent_clean|].
  split; [unfold calculateIntensity; lia|apply extractHorrorTags_sublist].
Qed.

(** X29.  What [generateHorrorElement] returns and how long it waits.  The
    model is called at most three times, with 1000 ms and then 2000 ms slept
    between the calls.  An element that is returned has a non-empty content
    in which none of the blocked keywords occurs, in any letter case; an
    intensity between 1 and 10; and tags taken, without repetition and in
    this order, from supernatural, psychological, gothic and suspense.
    Without an API key nothing is tried. *)
Theorem generated_element_checked modelPresent answers :
  let '(result, slept) := generateHorrorElement modelPresent answers in
  slept `prefix_of` [1000; 2000]
  /\ (modelPresent = false -> slept = [] /\ ~ completesNormally result)
  /\ match result with
     | Returns element =>
         he_content element <> ""
         /\ existsb (fun keyword =>
                       includes (Validation.toLowerCase (he_content element))
                                keyword)
                    (graphicKeywords ++ explicitKeywords) = false
         /\ 1 <= he_intensity element <= 10
         /\ he_tags element
            `sublist_of`
            ["supernatural"; "psychological"; "gothic"; "suspense"]
         /\ exists n, (n < 3)%nat /\ tryOnce (answers n) = Returns element
                      /\ length slept = n
     | Throws _ =>
         modelPresent = true ->
         slept = [1000; 2000]
         /\ forall n, (n < 3)%nat -> ~ completesNormally (tryOnce (answers n))
     end.
Proof.
  unfold generateHorrorElement. destruct modelPresent; cbn [negb].
  2:{ split; [by exists [1000; 2000]|]. split; [|done].
      intros _. split; [done|]. by intros [? [=]]. }
  cbn [attemptsFrom maxRetries].
  destruct (tryOnce (answers 0%nat)) as [e0|m0] eqn:H0.
  { split; [by exists [1000; 2000]|]. split; [done|].
    destruct (tryOnce_checked _ _ H0) as (? & ? & ? & ?).
    repeat (split; [done|]). exists 0%nat. by repeat split; try lia. }
  destruct (tryOnce (answers 1%nat)) as [e1|m1] eqn:H1.
  { cbn. split; [by exists [2000]|]. split; [done|].
    destruct (tryOnce_checked _ _ H1) as (? & ? & ? & ?).
    repeat (split; [done|]). exists 1%nat. by repeat split; try lia. }
  destruct (tryOnce (answers 2%nat)) as [e2|m2] eqn:H2.
  { cbn. split; [by exists []|]. split; [done|].
    destruct (tryOnce_checked _ _ H2) as (? & ? & ? & ?).
    repeat (split; [done|]). exists 2%nat. by repeat split; try lia. }
  cbn. split; [by exists []|]. split; [done|]. intros _. split; [done|].
  intros n Hn [value Hvalue].
  destruct n as [|[|[|n]]]; [congruence|congruence|congruence|lia].
Qed.

End CoAuthorFacts.

(** ** What a listener's store holds *)

Section ListenerFacts.
Import StoryManager Gateway.

Ltac on_input i :=
  destruct i as [socket title prompt userName uuid now
                |socket sid' userName now
                |socket sid' pid
                |socket sid' content uuid now
                |a result uuid now]; simpl.

Lemma sortByTimestamp_ordered l :
  Sorted before l -> sortByTimestamp l = l.
Proof.
  induction 1 as [|x l Hl IH Hhd]; [done|].
  change (sortByTimestamp (x :: l))
    with (insertSegment x (sortByTimestamp l)).
  rewrite IH.
  destruct Hhd as [|y l' Hxy]; [done|]. cbn [insertSegment].
  unfold before in Hxy. by rewrite (proj2 (Z.leb_le _ _) Hxy).
Qed.

Lemma Sorted_app_left {A} (R : A -> A -> Prop) (l k : list A) :
  Sorted R (l ++ k) -> Sorted R l.
Proof.
  induction l as [|x l IH]; [constructor|]. simpl.
  intros [Hl Hhd]%Sorted_inv. constructor; [by apply IH|].
  destruct l as [|y l]; [constructor|]. simpl in Hhd.
  apply HdRel_inv in Hhd. by constructor.
Qed.

(** The log of the server after a run of appends. *)
Lemma appends_Permutation (l xs : list Segment.t) :
  foldl (fun l x => sortByTimestamp (l ++ [x])) l xs ≡ₚ l ++ xs.
Proof.
  revert l. induction xs as [|x xs IH]; intros l.
  - simpl. by rewrite app_nil_r.
  - cbn [foldl]. rewrite IH.
    rewrite (sortByTimestamp_Permutation (l ++ [x])).
    by rewrite <- app_assoc.
Qed.

Lemma appends_ordered (l xs : list Segment.t) :
  Sorted before (l ++ xs) ->
  foldl (fun l x => sortByTimestamp (l ++ [x])) l xs = l ++ xs.
Proof.
  revert l. induction xs as [|x xs IH]; intros l Hs.
  - simpl. by rewrite app_nil_r.
  - cbn [foldl].
    replace (l ++ x :: xs) with ((l ++ [x]) ++ xs) in *
      by (by rewrite <- app_assoc).
    rewrite sortByTimestamp_ordered by (by eapply Sorted_app_left).
    by apply IH.
Qed.

(** The store of the client across events that carry no whole session. *)
Lemma replay_segments arrivals (st : SessionStore.t) view :
  SessionStore.currentSession st = Some view ->
  Forall (fun arrival =>
            match snd arrival with
            | session_created _ | session_updated _ => False
            | _ => True
            end) arrivals ->
  exists view',
    SessionStore.currentSession (SessionStore.replay st arrivals)
    = Some view'
    /\ Session.segments view'
       = Session.segments view ++ addedSegments (map snd arrivals)
    /\ Session.id view' = Session.id view
    /\ Session.title view' = Session.title view.
Proof.
  revert st view.
  induction arrivals as [|[now event] arrivals IH]; intros st view Hst Hall.
  - exists view. by rewrite app_nil_r.
  - apply Forall_cons in Hall as [Hevent Hall]. cbn [snd] in Hevent.
    unfold SessionStore.replay in *. cbn [foldl map snd].
    destruct event as [s|s|sid|p|seg|sid|m cd d]; try done;
      cbn [SessionStore.receive].
    + by apply IH.
    + destruct (IH (SessionStore.addParticipant st p) _
                  ltac:(cbn; by rewrite Hst) Hall)
        as (view' & Hv & Hseg & Hid & Htitle).
      by exists view'.
    + destruct (IH (SessionStore.addSegment st seg now) _
                  ltac:(cbn; by rewrite Hst) Hall)
        as (view' & Hv & Hseg & Hid & Htitle).
      exists view'. split; [exact Hv|]. cbn in Hseg, Hid, Htitle.
      split; [|done]. rewrite Hseg. cbn. by rewrite <- app_assoc.
    + by apply IH.
    + by apply IH.
Qed.

Lemma observed_delivered c recipients event es :
  observed c (Delivered recipients event :: es)
  = (if bool_decide (c ∈ recipients) then [event] else [])
    ++ observed c es.
Proof. cbn [observed omap list_omap]. by destruct (bool_decide _). Qed.

Lemma observed_appended c sid segment es :
  observed c (Appended sid segment :: es) = observed c es.
Proof. reflexivity. Qed.

Lemma appendedTo_delivered sid recipients event es :
  appendedTo sid (Delivered recipients event :: es) = appendedTo sid es.
Proof. reflexivity. Qed.

Lemma appendedTo_appended sid sid' segment es :
  appendedTo sid (Appended sid' segment :: es)
  = (if bool_decide (sid' = sid) then [segment] else [])
    ++ appendedTo sid es.
Proof. cbn [appendedTo omap list_omap]. by destruct (bool_decide _). Qed.

Ltac on_the_wire :=
  unfold socket_emit, socket_to_emit, io_to_emit;
  repeat first [rewrite observed_delivered | rewrite observed_appended
               |rewrite appendedTo_delivered | rewrite appendedTo_appended];
  change (observed _ []) with (@nil ServerEvent);
  change (appendedTo _ []) with (@nil Segment.t).

(** One step, seen by a connection that is in the room of [sid], in no
    other room, and does not send the input. *)
Lemma step_listener σ i c sid session :
  storyManager σ !! sid = Some session ->
  c ∈ members σ sid ->
  (forall room, c ∈ members σ room -> room = sid) ->
  quietFor c sid i ->
  (exists session',
      storyManager (fst (step σ i)) !! sid = Some session'
      /\ Session.segments session'
         = foldl (fun l x => sortByTimestamp (l ++ [x]))
                 (Session.segments session)
                 (appendedTo sid (snd (step σ i))))
  /\ c ∈ members (fst (step σ i)) sid
  /\ (forall room, c ∈ members (fst (step σ i)) room -> room = sid)
  /\ addedSegments (observed c (snd (step σ i)))
     = appendedTo sid (snd (step σ i))
  /\ Forall (fun event =>
               match event with
               | session_created _ | session_updated _ => False
               | _ => True
               end) (observed c (snd (step σ i))).
Proof.
  intros Hs Hc Hrooms [Hreq Hfresh].
  assert (Hother : forall room, room <> sid -> c ∉ members σ room).
  { intros room Hne Hin. by apply Hne, Hrooms. }
  assert (Hjoin : forall σ0 socket room,
            socket <> c ->
            (forall r, c ∈ members σ0 r -> r = sid) ->
            forall r, c ∈ members (socket_join σ0 socket room) r -> r = sid).
  { intros σ0 socket room Hne H0 r. rewrite members_socket_join.
    case_decide as Hr; [|by apply H0]. subst r.
    intros [Hin|Hin]%elem_of_union; [set_solver|]. by apply H0. }
  revert Hreq Hfresh. on_input i; intros Hreq Hfresh.
  - assert (Hne : socket <> c) by congruence.
    rewrite addParticipant_lookup_ne by done.
    rewrite lookup_insert_ne by done. on_the_wire.
    rewrite bool_decide_eq_false_2 by set_solver.
    split; [by exists session|].
    split; [|split; [|by split]].
    + rewrite members_set_socket_data. by apply members_socket_join_mono.
    + intros room. rewrite members_set_socket_data. by apply Hjoin.
  - assert (Hne : socket <> c) by congruence.
    unfold on_session_join, getSession.
    destruct (storyManager σ !! sid') as [joined|] eqn:Hjoined;
      cbn [fst snd]; on_the_wire;
      rewrite (bool_decide_eq_false_2 (c ∈ {[socket]})) by set_solver.
    + split.
      { destruct (decide (sid' = sid)) as [->|Hsid].
        - destruct (addParticipant_lookup (storyManager σ) sid session
                      {| Participant.id := socket;
                         Participant.name := orElse userName "Anonymous";
                         Participant.joinedAt := now |} now Hs)
            as (s' & Hl & _ & Hseg & _).
          exists s'. split; [exact Hl|]. by rewrite Hseg.
        - exists session. split; [|done]. cbn.
          by rewrite addParticipant_lookup_ne. }
      split.
      { rewrite members_set_socket_data. by apply members_socket_join_mono. }
      split.
      { intros room. rewrite members_set_socket_data. by apply Hjoin. }
      destruct (bool_decide _); cbn; repeat constructor.
    + split; [by exists session|]. by repeat split.
  - assert (Hne : socket <> c) by congruence.
    unfold on_session_reconnect, getSession.
    destruct (storyManager σ !! sid') as [joined|] eqn:Hjoined;
      cbn [fst snd]; on_the_wire;
      rewrite !(bool_decide_eq_false_2 (c ∈ {[socket]})) by set_solver.
    + split; [by exists session|]. split.
      { rewrite members_set_socket_data. by apply members_socket_join_mono. }
      split; [|by split].
      intros room. rewrite members_set_socket_data. by apply Hjoin.
    + split; [by exists session|]. by repeat split.
  - assert (Hne : socket <> c) by congruence.
    destruct (Validation.valid (Validation.validateSegment content)) eqn:Hv.
    + destruct (storyManager σ !! sid') as [target|] eqn:Htarget.
      * destruct (on_segment_add_success σ socket sid' content uuid now
                    target Hv Htarget) as (Hserver & He & _).
        cbv zeta in Hserver, He. rewrite Hserver, He.
        set (segment := {| Segment.id := uuid |}) in *. on_the_wire.
        rewrite !(bool_decide_eq_false_2 (c ∈ {[socket]})) by set_solver.
        split; [|split; [done|split; [done|]]].
        { destruct (decide (sid' = sid)) as [->|Hsid].
          - destruct (addSegment_lookup (storyManager σ) sid session segment
                        now Hs) as (s' & Hl & Hseg & _).
            exists s'. split; [exact Hl|].
            by rewrite bool_decide_eq_true_2.
          - exists session. cbn. rewrite addSegment_lookup_ne by done.
            split; [done|]. by rewrite bool_decide_eq_false_2. }
        destruct (decide (sid' = sid)) as [->|Hsid].
        -- rewrite !bool_decide_eq_true_2 by done. cbn.
           split; [done|]. repeat constructor.
        -- rewrite bool_decide_eq_false_2 by (by apply Hother).
           rewrite bool_decide_eq_false_2 by done. by cbn.
      * rewrite (on_segment_add_missing _ _ _ _ _ _ Hv Htarget).
        cbn [server effects]. on_the_wire.
        rewrite bool_decide_eq_false_2 by set_solver.
        split; [by exists session|]. by repeat split.
    + destruct (on_segment_add_invalid σ socket sid' content uuid now Hv)
        as [message ->].
      cbn [server effects]. on_the_wire.
      rewrite bool_decide_eq_false_2 by set_solver.
      split; [by exists session|]. by repeat split.
  - unfold resume_segment_add, getSession.
    destruct result as [horrorElement|details]; cbn [fst snd].
    + set (aiSegment := {| Segment.id := uuid |}).
      rewrite observed_app, addedSegments_app, appendedTo_app.
      on_the_wire. rewrite members_with_manager.
      destruct (decide (aw_sessionId a = sid)) as [Hsid|Hsid].
      * rewrite Hsid, Hs. on_the_wire.
        rewrite !bool_decide_eq_true_2 by done.
        destruct (addSegment_lookup (storyManager σ) sid session aiSegment
                    now Hs) as (s' & Hl & Hseg & _).
        split; [by exists s'|]. split; [done|]. split; [done|].
        split; [done|]. cbn. repeat constructor.
      * rewrite bool_decide_eq_false_2 by (by apply Hother).
        assert (Hnone : appendedTo sid
                          match storyManager σ !! aw_sessionId a with
                          | Some _ => [Appended (aw_sessionId a) aiSegment]
                          | None => []
                          end = []).
        { destruct (storyManager σ !! aw_sessionId a); [|done].
          on_the_wire. by rewrite bool_decide_eq_false_2. }
        assert (Hsilent : observed c
                            match storyManager σ !! aw_sessionId a with
                            | Some _ => [Appended (aw_sessionId a) aiSegment]
                            | None => []
                            end = []).
        { by destruct (storyManager σ !! aw_sessionId a). }
        rewrite Hnone, Hsilent. split.
        { exists session. cbn. by rewrite addSegment_lookup_ne. }
        by repeat split.
    + on_the_wire. split; [by exists session|].
      split; [done|]. split; [done|].
      destruct (bool_decide _); cbn; repeat constructor.
Qed.

Lemma run_listener σ inputs c sid session :
  storyManager σ !! sid = Some session ->
  c ∈ members σ sid ->
  (forall room, c ∈ members σ room -> room = sid) ->
  Forall (quietFor c sid) inputs ->
  (exists session',
      storyManager (fst (run σ inputs)) !! sid = Some session'
      /\ Session.segments session'
         = foldl (fun l x => sortByTimestamp (l ++ [x]))
                 (Session.segments session)
                 (appendedTo sid (snd (run σ inputs))))
  /\ addedSegments (observed c (snd (run σ inputs)))
     = appendedTo sid (snd (run σ inputs))
  /\ Forall (fun event =>
               match event with
               | session_created _ | session_updated _ => False
               | _ => True
               end) (observed c (snd (run σ inputs))).
Proof.
  revert σ session.
  induction inputs as [|i inputs IH]; intros σ session Hs Hc Hrooms Hquiet.
  - cbn. split; [by exists session|]. split; [done|constructor].
  - apply Forall_cons in Hquiet as [Hi Hquiet].
    destruct (step_listener σ i c sid session Hs Hc Hrooms Hi)
      as ((s1 & Hs1 & Hseg1) & Hc1 & Hrooms1 & Hadd1 & Hall1).
    destruct (IH _ s1 Hs1 Hc1 Hrooms1 Hquiet)
      as ((s2 & Hs2 & Hseg2) & Hadd2 & Hall2).
    rewrite run_cons. cbn [fst snd].
    rewrite observed_app, addedSegments_app, appendedTo_app.
    split; [|split].
    + exists s2. split; [exact Hs2|]. by rewrite Hseg2, Hseg1, foldl_app.
    + by rewrite Hadd1, Hadd2.
    + by apply Forall_app.
Qed.

(** X30.  What a listener's store holds.  A connection that is in no other
    room joins a session and from then on only listens, while no session is
    created under that id again.  Its store, fed by the handlers of
    [useWebSocket] with the events the server sends it, then holds the log
    the session had at the join followed by every segment appended since, in
    the order of appending.  That is a rearrangement of the log the server
    holds, and it is that very log whenever it reads in chronological order
    (as it does when the server's clock never steps back). *)
Theorem listener_holds_the_log σ c sessionId userName now session rest
    (store : SessionStore.t) arrivals :
  storyManager σ !! sessionId = Some session ->
  (forall room, c ∈ members σ room -> room = sessionId) ->
  Forall (quietFor c sessionId) rest ->
  map snd arrivals
  = observed c
      (snd (run σ (SessionJoin c sessionId userName now :: rest))) ->
  exists stored view,
    storyManager
      (fst (run σ (SessionJoin c sessionId userName now :: rest)))
      !! sessionId = Some stored
    /\ SessionStore.currentSession (SessionStore.replay store arrivals)
       = Some view
    /\ Session.id view = Session.id session
    /\ Session.segments view
       = Session.segments session
         ++ appendedTo sessionId
              (snd (run σ (SessionJoin c sessionId userName now :: rest)))
    /\ Session.segments view ≡ₚ Session.segments stored
    /\ (Sorted before (Session.segments view) ->
        Session.segments view = Session.segments stored).
Proof.
  intros Hs Hrooms Hquiet Harrivals.
  rewrite run_cons in *. cbn [fst snd] in *.
  set (participant := {| Participant.id := c;
                         Participant.name := orElse userName "Anonymous";
                         Participant.joinedAt := now |}).
  destruct (addParticipant_lookup (storyManager σ) sessionId session
              participant now Hs)
    as (joined & Hjoined & _ & Hseg & Hid & _).
  assert (Hstep : step σ (SessionJoin c sessionId userName now)
          = (set_socket_data
               (socket_join
                  (with_manager σ
                     (addParticipant (storyManager σ) sessionId participant
                        now))
                  c sessionId) c sessionId c,
             [Delivered {[c]} (session_updated joined);
              Delivered
                (members
                   (set_socket_data
                      (socket_join
                         (with_manager σ
                            (addParticipant (storyManager σ) sessionId
                               participant now))
                         c sessionId) c sessionId c) sessionId ∖ {[c]})
                (participant_joined participant)])).
  { cbn [step]. unfold on_session_join, getSession. rewrite Hs.
    fold participant. by rewrite Hjoined. }
  rewrite Hstep in *. cbn [fst snd] in *.
  set (σ1 := set_socket_data _ _ _ _) in *.
  assert (Hc1 : c ∈ members σ1 sessionId).
  { unfold σ1. rewrite members_set_socket_data, members_socket_join.
    rewrite decide_True by done. set_solver. }
  assert (Hrooms1 : forall room, c ∈ members σ1 room -> room = sessionId).
  { intros room. unfold σ1.
    rewrite members_set_socket_data, members_socket_join.
    case_decide as Hroom; [done|]. apply Hrooms. }
  destruct (run_listener σ1 rest c sessionId joined Hjoined Hc1 Hrooms1
              Hquiet) as ((stored & Hstored & Hlog) & Hadded & Hall).
  rewrite observed_app in Harrivals.
  cbn [observed omap list_omap] in Harrivals.
  rewrite bool_decide_eq_true_2 in Harrivals
    by (by apply elem_of_singleton).
  rewrite bool_decide_eq_false_2 in Harrivals
    by (intros [_ Hnot]%elem_of_difference; by apply Hnot, elem_of_singleton).
  cbn [app] in Harrivals.
  destruct arrivals as [|[now0 event0] arrivals]; [done|].
  injection Harrivals as -> Harrivals.
  unfold SessionStore.replay. cbn [foldl SessionStore.receive].
  destruct (replay_segments arrivals (SessionStore.setSession store joined)
              joined eq_refl) as (view & Hview & Hsegments & Hvid & _).
  { apply Forall_forall. intros arrival Hin.
    rewrite Forall_forall in Hall. apply (Hall (snd arrival)).
    rewrite <- Harrivals. apply list_elem_of_In, in_map.
    by apply list_elem_of_In. }
  rewrite Harrivals, Hadded, Hseg in Hsegments.
  rewrite Hseg in Hlog.
  exists stored, view. split; [exact Hstored|]. split; [exact Hview|].
  split; [by rewrite Hvid, Hid|].
  rewrite appendedTo_app. cbn [appendedTo omap list_omap app].
  split; [exact Hsegments|]. rewrite Hsegments, Hlog. split.
  - symmetry. apply appends_Permutation.
  - intros Hsorted. symmetry. by apply appends_ordered.
Qed.

End ListenerFacts.

Lemma listener_holds_the_log_witness :
  exists stored view,
    Gateway.storyManager
      (fst (Gateway.run SessionStore.serverBeforeJoin
              [Gateway.SessionJoin "socket-2" "session-1" "Bob" 2000;
               Gateway.SegmentAdd "socket-1" "session-1" "A" "segment-a"
                 3000]))
      !! "session-1" = Some stored
    /\ SessionStore.currentSession
         (SessionStore.replay SessionStore.initial
            SessionStore.listenerArrivals) = Some view
    /\ Session.segments view = [Gateway.segmentA]
    /\ Session.segments view = Session.segments stored.
Proof.
  assert (Hrooms : forall room,
            "socket-2" ∈ Gateway.members SessionStore.serverBeforeJoin room ->
            room = "session-1").
  { intros room Hin. destruct (decide (room = "session-1")) as [->|Hne];
      [reflexivity|].
    exfalso. revert Hin. unfold Gateway.members.
    replace (Gateway.rooms SessionStore.serverBeforeJoin)
      with (<["session-1" := ({["socket-1"]} : gset string)]>
              (∅ : gmap string (gset string)))
      by (vm_compute; reflexivity).
    rewrite lookup_insert_ne by done. rewrite lookup_empty. cbn.
    apply not_elem_of_empty. }
  destruct (listener_holds_the_log SessionStore.serverBeforeJoin "socket-2"
              "session-1" "Bob" 2000 SessionStore.sessionBeforeJoin
              [Gateway.SegmentAdd "socket-1" "session-1" "A" "segment-a"
                 3000]
              SessionStore.initial SessionStore.listenerArrivals)
    as (stored & view & Hstored & Hview & _ & Hsegments & _ & Hsorted).
  - vm_compute. reflexivity.
  - exact Hrooms.
  - repeat constructor. discriminate.
  - vm_compute. reflexivity.
  - exists stored, view. split; [exact Hstored|]. split; [exact Hview|].
    assert (Hlog : Session.segments view = [Gateway.segmentA]).
    { rewrite Hsegments. vm_compute. reflexivity. }
    split; [exact Hlog|]. apply Hsorted. rewrite Hlog. repeat constructor.
Defined.
